(** * fastdiff.js and the client synchronisation loop

    A shallow embedding of [public/js/fastdiff.js] (the boundary diff
    [fastDiff], the shortest-edit-script search [diff] and the patch
    compactor [diffToChanges]) and of the editing loop of
    [public/js/client.js] ([getChanges], [applyChanges],
    [applyLocalChanges]).

    JavaScript numbers that index arrays or key the objects [fp] and [es]
    are integers here ([Z]); arrays are lists; the two objects used as maps
    from a diagonal number to a value are [gmap Z _]. *)

From Stdlib Require Import ZArith Lia.
From stdpp Require Import base option list list_numbers gmap strings pretty.

Local Open Scope Z_scope.

(** ** Values and arrays *)

(** The elements that the sequences hold: the value [undefined], the
    number [NaN], the integers and strings (a character of a string is a
    string of length one). *)
Inductive value : Type :=
  | VUndefined
  | VNaN
  | VNum (z : Z)
  | VStr (s : string).

#[global] Instance value_eq_dec : EqDecision value.
Proof. solve_decision. Defined.

(** [a === b]: it holds between identical values, except that [NaN] is
    not [===] to anything, itself included. *)
Definition strict_eq (a b : value) : bool :=
  match a with
  | VNaN => false
  | _ => bool_decide (a = b)
  end.

Definition is_undefined (v : value) : bool :=
  match v with VUndefined => true | _ => false end.

(** [arr.length] *)
Definition len {A} (arr : list A) : Z := Z.of_nat (length arr).

(** [arr[i]]: reading outside the array gives [undefined]. *)
Definition get (arr : list value) (i : Z) : value :=
  if i <? 0 then VUndefined else default VUndefined (arr !! Z.to_nat i).

(** How [slice] and [splice] resolve a relative index. *)
Definition clamp_index (length i : Z) : Z :=
  if i <? 0 then Z.max (length + i) 0 else Z.min i length.

(** [arr.slice(start, end)] *)
Definition slice {A} (arr : list A) (start end_ : Z) : list A :=
  let s := clamp_index (len arr) start in
  let e := clamp_index (len arr) end_ in
  take (Z.to_nat (e - s)) (drop (Z.to_nat s) arr).

(** [arr.slice(start)] *)
Definition slice_from {A} (arr : list A) (start : Z) : list A :=
  drop (Z.to_nat (clamp_index (len arr) start)) arr.

(** [arr.splice(start, deleteCount, ...items)], as the array it leaves. *)
Definition splice {A} (arr : list A) (start deleteCount : Z) (items : list A)
  : list A :=
  let s := clamp_index (len arr) start in
  let d := Z.min (Z.max deleteCount 0) (len arr - s) in
  take (Z.to_nat s) arr ++ items ++ drop (Z.to_nat (s + d)) arr.

(** [Array.from(str)] and [Array.prototype.slice.call(str)]: the characters
    of a string, each a string of its own. *)
Fixpoint of_string (s : string) : list value :=
  match s with
  | EmptyString => []
  | String c s' => VStr (String c EmptyString) :: of_string s'
  end.

(** What [join] prints for one element. *)
Definition to_js_string (v : value) : string :=
  match v with
  | VUndefined => EmptyString
  | VNaN => "NaN"
  | VNum z => pretty z
  | VStr s => s
  end.

(** [arr.join('')] *)
Definition join (arr : list value) : string :=
  foldr (fun v acc => to_js_string v +:+ acc) EmptyString arr.

(** ** fastdiff.js *)

(** The atomic operations ['equal'], ['insert'] and ['delete']. *)
Inductive atomic : Type := Equal | Insert | Delete.

#[global] Instance atomic_eq_dec : EqDecision atomic.
Proof. solve_decision. Defined.

(** The change objects [{index, type: 'insert', values}] and
    [{index, type: 'delete', howMany}]. *)
Inductive change : Type :=
  | CInsert (index : Z) (values : list value)
  | CDelete (index : Z) (howMany : Z).

#[global] Instance change_eq_dec : EqDecision change.
Proof. solve_decision. Defined.

Record changeIndexes : Type := mkChangeIndexes {
  firstIndex : Z;
  lastIndexOld : Z;
  lastIndexNew : Z
}.

Definition comparator : Type := value → value → bool.

(** The loop of [findFirstDifferenceIndex] from index [i] with [fuel]
    iterations left; it also records the pairs handed to [cmp]. *)
Fixpoint findFirstDifferenceIndex_loop (fuel : nat) (i : Z)
    (arr1 arr2 : list value) (cmp : comparator)
    (calls : list (value * value)) : Z * list (value * value) :=
  match fuel with
  | O => (-1, calls)
  | S fuel' =>
      if is_undefined (get arr1 i) then (i, calls)
      else if is_undefined (get arr2 i) then (i, calls)
      else if negb (cmp (get arr1 i) (get arr2 i))
           then (i, calls ++ [(get arr1 i, get arr2 i)])
           else findFirstDifferenceIndex_loop fuel' (i + 1) arr1 arr2 cmp
                  (calls ++ [(get arr1 i, get arr2 i)])
  end.

(** [findFirstDifferenceIndex] together with the calls it made to [cmp]. *)
Definition findFirstDifferenceIndex_calls (arr1 arr2 : list value)
    (cmp : comparator) : Z * list (value * value) :=
  findFirstDifferenceIndex_loop (Nat.max (length arr1) (length arr2)) 0
    arr1 arr2 cmp [].

Definition findFirstDifferenceIndex (arr1 arr2 : list value)
    (cmp : comparator) : Z :=
  fst (findFirstDifferenceIndex_calls arr1 arr2 cmp).

Definition cutAndReverse (arr : list value) (howMany : Z) : list value :=
  reverse (slice_from arr howMany).

Definition findChangeBoundaryIndexes (arr1 arr2 : list value)
    (cmp : comparator) : changeIndexes :=
  let firstIndex := findFirstDifferenceIndex arr1 arr2 cmp in
  if firstIndex =? -1 then mkChangeIndexes (-1) (-1) (-1)
  else
    let oldArrayReversed := cutAndReverse arr1 firstIndex in
    let newArrayReversed := cutAndReverse arr2 firstIndex in
    let lastIndex :=
      findFirstDifferenceIndex oldArrayReversed newArrayReversed cmp in
    mkChangeIndexes firstIndex (len arr1 - lastIndex) (len arr2 - lastIndex).

Definition changeIndexesToChanges (newArray : list value)
    (ci : changeIndexes) : list change :=
  let result := [] in
  let result :=
    if 0 <? lastIndexNew ci - firstIndex ci
    then result ++ [CInsert (firstIndex ci)
                      (slice newArray (firstIndex ci) (lastIndexNew ci))]
    else result in
  let result :=
    if 0 <? lastIndexOld ci - firstIndex ci
    then result ++ [CDelete (firstIndex ci + (lastIndexNew ci - firstIndex ci))
                      (lastIndexOld ci - firstIndex ci)]
    else result in
  result.

(** [Array(n).fill(x)] *)
Definition fill {A} (n : Z) (x : A) : list A := replicate (Z.to_nat n) x.

Definition changeIndexesToAtomicChanges (ci : changeIndexes) (newLength : Z)
  : list atomic :=
  if firstIndex ci =? -1 then fill newLength Equal
  else
    let result := [] in
    let result :=
      if 0 <? firstIndex ci then result ++ fill (firstIndex ci) Equal
      else result in
    let result :=
      if 0 <? lastIndexNew ci - firstIndex ci
      then result ++ fill (lastIndexNew ci - firstIndex ci) Insert
      else result in
    let result :=
      if 0 <? lastIndexOld ci - firstIndex ci
      then result ++ fill (lastIndexOld ci - firstIndex ci) Delete
      else result in
    let result :=
      if lastIndexNew ci <? newLength
      then result ++ fill (newLength - lastIndexNew ci) Equal
      else result in
    result.

(** [fastDiff(a, b, cmp, atomicChanges)]: the flag selects the kind of
    result. *)
Definition fastDiff (a b : list value) (cmp : comparator)
    (atomicChanges : bool)
  : if atomicChanges then list atomic else list change :=
  let ci := findChangeBoundaryIndexes a b cmp in
  match atomicChanges
        return (if atomicChanges then list atomic else list change) with
  | true => changeIndexesToAtomicChanges ci (len b)
  | false => changeIndexesToChanges b ci
  end.

(** *** The shortest-edit-script search of [diff] *)

(** The objects [fp] (furthest points) and [es] (edit scripts), keyed by
    the diagonal. *)
Record search_state : Type := mkSearch {
  fp : gmap Z Z;
  es : gmap Z (list atomic)
}.

Section search.
(** The arrays after the swap, the comparator, and the two labels
    [_insert] and [_delete]. *)
Variables (a b : list value) (cmp : comparator) (_insert _delete : atomic).

Let m : Z := len a.
Let n : Z := len b.
Let delta : Z := n - m.

(** [while (x < m && y < n && cmp(a[x], b[y])) { x++; y++; push }].
    Each turn needs [x < m], so [m - x] turns are all it can take. *)
Fixpoint snake_loop (fuel : nat) (x y : Z) (script : list atomic)
  : Z * list atomic :=
  match fuel with
  | O => (y, script)
  | S fuel' =>
      if (x <? m) && (y <? n) && cmp (get a x) (get b y)
      then snake_loop fuel' (x + 1) (y + 1) (script ++ [Equal])
      else (y, script)
  end.

(** [snake(k)]: the value it returns and the object [es] it leaves. *)
Definition snake (k : Z) (st : search_state) : Z * gmap Z (list atomic) :=
  let y1 := default (-1) (fp st !! (k - 1)) + 1 in
  let y2 := default (-1) (fp st !! (k + 1)) in
  let dir := if y2 <? y1 then -1 else 1 in
  let es1 :=
    match es st !! (k + dir) with
    | Some s => <[k := s]> (es st)
    | None => es st
    end in
  let es2 :=
    match es1 !! k with
    | Some _ => es1
    | None => <[k := []]> es1
    end in
  let script :=
    default [] (es2 !! k) ++ [if y2 <? y1 then _insert else _delete] in
  let y := Z.max y1 y2 in
  let x := y - k in
  let '(y', script') := snake_loop (Z.to_nat (m - x)) x y script in
  (y', <[k := script']> es2).

(** [fp[k] = snake(k)] *)
Definition visit (st : search_state) (k : Z) : search_state :=
  let '(y, es') := snake k st in
  mkSearch (<[k := y]> (fp st)) es'.

(** One turn of the [do] body for the value [p]. *)
Definition round (p : Z) (st : search_state) : search_state :=
  let st := foldl visit st (seqZ (- p) (delta + p)) in
  let st := foldl visit st (reverse (seqZ (delta + 1) p)) in
  visit st delta.

(** [do { ...; p++ } while (fp[delta] !== n)], given [fuel] turns: the
    state the loop ends in. *)
Fixpoint search (fuel : nat) (p : Z) (st : search_state)
  : option search_state :=
  match fuel with
  | O => None
  | S fuel' =>
      let st' := round p st in
      if bool_decide (fp st' !! delta = Some n) then Some st'
      else search fuel' (p + 1) st'
  end.

(** [return es[delta].slice(1)]; nothing is returned if [es[delta]] is
    missing. *)
Definition search_result (st : search_state) : option (list atomic) :=
  script ← es st !! delta; Some (slice_from script 1).
End search.

(** [aLength > 200 || bLength > 200 || aLength + bLength > 300] *)
Definition exceeds_thresholds (aLength bLength : Z) : bool :=
  (200 <? aLength) || (200 <? bLength) || (300 <? aLength + bLength).

(** [es = {}] and [fp = {}] *)
Definition initial_search : search_state := mkSearch ∅ ∅.

(** [diff(a, b, cmp)] with [fuel] turns for the [do] loop; [None] when
    they do not suffice. *)
Definition diff_fuel (fuel : nat) (a b : list value) (cmp : comparator)
  : option (list atomic) :=
  let aLength := len a in
  let bLength := len b in
  if exceeds_thresholds aLength bLength then Some (fastDiff a b cmp true)
  else if bLength <? aLength
       then search b a cmp Delete Insert fuel 0 initial_search
              ≫= search_result b a
       else search a b cmp Insert Delete fuel 0 initial_search
              ≫= search_result a b.

(** [diff(a, b, cmp)]; the loop is given one turn more than the shorter
    array has elements, which [diff_total] shows is enough. *)
Definition diff (a b : list value) (cmp : comparator)
  : option (list atomic) :=
  diff_fuel (S (Nat.min (length a) (length b))) a b cmp.

(** *** diffToChanges *)

Record compactor : Type := mkCompactor {
  changes : list change;
  index : Z;
  lastOperation : option change
}.

Definition pushLast (c : compactor) : compactor :=
  match lastOperation c with
  | Some op => mkCompactor (changes c ++ [op]) (index c) None
  | None => c
  end.

Arguments pushLast : simpl never.

(** The body of the [forEach] of [diffToChanges]. *)
Definition diffToChanges_step (output : list value) (c : compactor)
    (ch : atomic) : compactor :=
  match ch with
  | Equal =>
      let c := pushLast c in
      mkCompactor (changes c) (index c + 1) (lastOperation c)
  | Insert =>
      let c :=
        match lastOperation c with
        | Some (CInsert i vs) =>
            mkCompactor (changes c) (index c)
              (Some (CInsert i (vs ++ [get output (index c)])))
        | _ =>
            let c := pushLast c in
            mkCompactor (changes c) (index c)
              (Some (CInsert (index c) [get output (index c)]))
        end in
      mkCompactor (changes c) (index c + 1) (lastOperation c)
  | Delete =>
      match lastOperation c with
      | Some (CDelete i h) =>
          mkCompactor (changes c) (index c) (Some (CDelete i (h + 1)))
      | _ =>
          let c := pushLast c in
          mkCompactor (changes c) (index c) (Some (CDelete (index c) 1))
      end
  end.

Definition diffToChanges (diff : list atomic) (output : list value)
  : list change :=
  changes (pushLast (foldl (diffToChanges_step output)
                       (mkCompactor [] 0 None) diff)).

(** ** client.js *)

Definition getChanges (input output : list value) : option (list change) :=
  d ← diff input output strict_eq; Some (diffToChanges d output).

Definition applyChange (input : list value) (c : change) : list value :=
  match c with
  | CInsert i vs => splice input i 0 vs
  | CDelete i h => splice input i h []
  end.

Definition applyChanges (input : list value) (cs : list change)
  : list value :=
  foldl applyChange input cs.


(** The state of one participant: the shadow copy [syncValue], the flag
    [keypressed], the content of the editor widget, and the
    ['content_change'] messages handed to the socket so far. *)
Record client : Type := mkClient {
  syncValue : list value;
  keypressed : bool;
  editor : string;
  emitted : list (list change)
}.

(** [applyLocalChanges()]; [None] only if [diff] did not return. *)
Definition applyLocalChanges (c : client) : option client :=
  if keypressed c then
    let currentData := editor c in
    let input := syncValue c in
    let output := of_string currentData in
    changes ← getChanges input output;
    let input := applyChanges input changes in
    let c :=
      if bool_decide (join output = join input)
      then mkClient input (keypressed c) (editor c) (emitted c ++ [changes])
      else c in
    Some (mkClient (syncValue c) false (editor c) (emitted c))
  else Some c.

(** The handler of an incoming ['content_change'] message. *)
Definition on_content_change (incomingChanges : list change) (c : client)
  : option client :=
  let input := applyChanges (syncValue c) incomingChanges in
  let c := mkClient input (keypressed c) (editor c) (emitted c) in
  c ← applyLocalChanges c;
  Some (mkClient (syncValue c) (keypressed c) (join (syncValue c)) (emitted c)).

(** The [keypress] listener (the editor content is changed by the widget). *)
Definition on_keypress (c : client) : client :=
  mkClient (syncValue c) true (editor c) (emitted c).

(** [registerUserListener], as far as the editing loop goes: the shadow
    copy is reset to the empty string (the ['register'] message and the
    page elements are not part of this state). *)
Definition registerUserListener (c : client) : client :=
  mkClient [] (keypressed c) (editor c) (emitted c).

Definition minLines : nat := 14.

(** [str.repeat(count)] *)
Definition string_repeat (str : string) (count : nat) : string :=
  Nat.iter count (λ acc, str +:+ acc) EmptyString.

(** ['\n'.repeat(minLines)], the content the editor is given at load. *)
Definition startingValue : string :=
  string_repeat (String (Ascii.ascii_of_nat 10) EmptyString) minLines.

(** The page when [window.onload] has run: [syncValue = []],
    [keypressed = false], the editor filled with [startingValue]. *)
Definition initial_client : client := mkClient [] false startingValue [].

(** *** The debounce timer

    The page with its timers: [timeout] is the variable of that name (the
    handle of the last timer set, if any), [timers] the handles of the
    timers that are set and have neither fired nor been cleared, and
    [next_timer] the handle the next [setTimeout] returns. *)
Record page : Type := mkPage {
  page_client : client;
  timeout : option nat;
  timers : list nat;
  next_timer : nat
}.

(** [clearTimeout(handle)]; clearing [undefined] or a timer that is not
    pending does nothing. *)
Definition clearTimeout (handle : option nat) (pending : list nat)
  : list nat :=
  match handle with
  | Some h => filter (λ t, t ≠ h) pending
  | None => pending
  end.

(** What happens to a page: the widget changes the content of the editor,
    the [keypress] listener runs, a timer fires, a ['content_change']
    message comes in. *)
Inductive event : Type :=
  | Typed (content : string)
  | Keypress
  | Fire (handle : nat)
  | Incoming (incomingChanges : list change).

(** The [keypress] listener:
    [clearTimeout(timeout); keypressed = true;
     timeout = setTimeout(applyLocalChanges, 1000)]. *)
Definition keypress_listener (pg : page) : page :=
  let pending := clearTimeout (timeout pg) (timers pg) in
  let c := on_keypress (page_client pg) in
  let handle := next_timer pg in
  mkPage c (Some handle) (handle :: pending) (S handle).

(** One event; a timer that is not pending does not fire. *)
Definition page_step (pg : page) (e : event) : option page :=
  match e with
  | Typed content =>
      let c := page_client pg in
      Some (mkPage (mkClient (syncValue c) (keypressed c) content (emitted c))
              (timeout pg) (timers pg) (next_timer pg))
  | Keypress => Some (keypress_listener pg)
  | Fire handle =>
      if bool_decide (handle ∈ timers pg) then
        c ← applyLocalChanges (page_client pg);
        Some (mkPage c (timeout pg) (filter (λ t, t ≠ handle) (timers pg))
                (next_timer pg))
      else Some pg
  | Incoming incomingChanges =>
      c ← on_content_change incomingChanges (page_client pg);
      Some (mkPage c (timeout pg) (timers pg) (next_timer pg))
  end.

(** A run of events, in order. *)
Fixpoint page_run (pg : page) (es : list event) : option page :=
  match es with
  | [] => Some pg
  | e :: es' => pg' ← page_step pg e; page_run pg' es'
  end.

(** ** Edit scripts *)

(** Applying a stream of atomic operations to [a], reading the inserted
    elements from [news] (the new sequence from the current position on):
    [Equal] keeps the next element of [a], [Delete] drops it, [Insert]
    takes the next new element. A script must use up [a]. *)
Fixpoint run_script (s : list atomic) (a news : list value)
  : option (list value) :=
  match s with
  | [] => match a with [] => Some [] | _ :: _ => None end
  | Equal :: s' =>
      match a with
      | x :: a' => r ← run_script s' a' (tail news); Some (x :: r)
      | [] => None
      end
  | Insert :: s' =>
      match news with
      | y :: news' => r ← run_script s' a news'; Some (y :: r)
      | [] => None
      end
  | Delete :: s' =>
      match a with
      | _ :: a' => run_script s' a' news
      | [] => None
      end
  end.

(** The number of tokens equal to [t]. *)
Definition count (t : atomic) (s : list atomic) : Z :=
  len (filter (λ u, u = t) s).

(** The insert and delete tokens of a stream: the length of the edit
    script it carries. *)
Definition edits (s : list atomic) : Z := count Insert s + count Delete s.

(** * Notions of the proofs *)

(** Position [j] passes the test of [findFirstDifferenceIndex]: both
    arrays hold a value there and [cmp] accepts the pair. *)
Definition agree (arr1 arr2 : list value) (cmp : comparator) (j : Z) : bool :=
  negb (is_undefined (get arr1 j)) && negb (is_undefined (get arr2 j))
  && cmp (get arr1 j) (get arr2 j).

(** One token moves the position [(x, y)] in the edit graph of [a] and
    [b]: [Equal] along the diagonal, and only where [cmp] accepts the two
    elements; the token [ins] one step in [b]; the other token one step in
    [a]. *)
Definition walk_step (a b : list value) (cmp : comparator) (ins : atomic)
    (pos : Z * Z) (t : atomic) : option (Z * Z) :=
  if decide (t = Equal) then
    if (pos.1 <? len a) && (pos.2 <? len b)
       && cmp (get a pos.1) (get b pos.2)
    then Some (pos.1 + 1, pos.2 + 1) else None
  else if decide (t = ins) then Some (pos.1, pos.2 + 1)
  else Some (pos.1 + 1, pos.2).

Fixpoint walk (a b : list value) (cmp : comparator) (ins : atomic)
    (s : list atomic) (pos : Z * Z) : option (Z * Z) :=
  match s with
  | [] => Some pos
  | t :: s' => pos' ← walk_step a b cmp ins pos t; walk a b cmp ins s' pos'
  end.

(** A comparator that accepts only identical values, as [===] does. *)
Definition sound (cmp : comparator) : Prop :=
  ∀ u v, cmp u v = true → u = v.

(** Identity of values, decided: what [===] is on values other than
    [NaN]. The scripts that turn one array into another are the paths of
    its edit graph. *)
Definition same_value (u v : value) : bool := bool_decide (u = v).

(** The comparator as [diff] applies it to an element of [a] and one of
    [b]: after the swap the arguments come in the other order. *)
Definition oriented (cmp : comparator) (a b : list value) : comparator :=
  if len b <? len a then λ u v, cmp v u else cmp.

(** What holds of the compactor after the tokens that lead to [(x, y)]:
    the operations already pushed turn [a] into the first [y] new
    elements followed by the old elements that a pending delete started
    at, and the pending operation accounts for the rest. *)
Definition compactor_inv (a b : list value) (c : compactor) (x y : Z)
  : Prop :=
  index c = y ∧
  match lastOperation c with
  | None =>
      applyChanges a (changes c)
      = take (Z.to_nat y) b ++ drop (Z.to_nat x) a
  | Some (CInsert i vs) =>
      0 ≤ i ≤ y
      ∧ vs = take (Z.to_nat (y - i)) (drop (Z.to_nat i) b)
      ∧ applyChanges a (changes c)
        = take (Z.to_nat i) b ++ drop (Z.to_nat x) a
  | Some (CDelete i h) =>
      i = y ∧ 1 ≤ h ≤ x
      ∧ applyChanges a (changes c)
        = take (Z.to_nat y) b ++ drop (Z.to_nat (x - h)) a
  end.

Definition pending_delete (c : compactor) : bool :=
  match lastOperation c with Some (CDelete _ _) => true | _ => false end.

(** An insert operation with a value to insert, a delete operation that
    removes at least one element. *)
Definition nontrivial (op : change) : Prop :=
  match op with
  | CInsert _ vs => vs ≠ []
  | CDelete _ h => 1 ≤ h
  end.

Definition compactor_nontrivial (c : compactor) : Prop :=
  Forall nontrivial (changes c)
  ∧ ∀ op, lastOperation c = Some op → nontrivial op.

(** ** The search: what the loop keeps true *)

Section search_notions.
Variables (a b : list value) (cmp : comparator) (_insert _delete : atomic).

Local Abbreviation m := (len a).
Local Abbreviation n := (len b).
Local Abbreviation delta := (len b - len a).
Local Abbreviation W := (walk a b cmp _insert).

(** The cost of a path: its [_delete] tokens, or, beyond the diagonal
    [delta], its [_insert] tokens in excess of [delta]. The search
    visits the paths in the order of this number. *)
Definition cost (s : list atomic) : Z :=
  Z.max (count _delete s) (count _insert s - delta).

(** The test of the [while] loop of [snake]. *)
Definition snake_test (x y : Z) : bool :=
  (x <? m) && (y <? n) && cmp (get a x) (get b y).

(** The furthest point of a diagonal: no path of cost at most [q] that
    ends on the diagonal [k] gets beyond [y]. *)
Definition furthest (q k y : Z) : Prop :=
  ∀ s x' y', W s (0, 0) = Some (x', y') → y' - x' = k → cost s ≤ q → y' ≤ y.

(** What the two objects hold for a diagonal that the turn [q] of the
    loop has filled in: the script, behind the token that started the
    search, is a path of cost at most [q] to the furthest point. *)
Definition diag_data (q k : Z) (st : search_state) : Prop :=
  ∃ y s,
    fp st !! k = Some y ∧ es st !! k = Some (_insert :: s)
    ∧ W s (0, 0) = Some (y - k, y)
    ∧ cost s ≤ q
    ∧ (k ≤ delta → y - k ≤ m) ∧ (delta ≤ k → y ≤ n)
    ∧ furthest q k y.

Definition undefined (k : Z) (st : search_state) : Prop :=
  fp st !! k = None ∧ es st !! k = None.

(** The point of a diagonal lies strictly inside the graph. *)
Definition strict (k : Z) (st : search_state) : Prop :=
  ∀ y, fp st !! k = Some y → (k ≤ delta → y - k < m) ∧ (delta ≤ k → y < n).

Definition in_range (r k : Z) : Prop := 0 ≤ r ∧ - r ≤ k ≤ delta + r.

#[global] Instance in_range_dec r k : Decision (in_range r k).
Proof. unfold in_range. apply _. Defined.

(** The diagonal [k] as the turn [r] leaves it. *)
Definition cell (r k : Z) (st : search_state) : Prop :=
  if decide (in_range r k) then diag_data r k st else undefined k st.

(** The turn whose data a visit of [k] in turn [q] reads on the
    diagonal below and on the diagonal above. *)
Definition lrank (q k : Z) : Z := if decide (k ≤ delta) then q else q - 1.
Definition rrank (q k : Z) : Z := if decide (delta ≤ k) then q else q - 1.

(** The point [snake] starts from and the script it starts with. *)
Definition start_y (st : search_state) (k : Z) : Z :=
  Z.max (default (-1) (fp st !! (k - 1)) + 1)
        (default (-1) (fp st !! (k + 1))).

Definition start_script (st : search_state) (k : Z) : list atomic :=
  let y1 := default (-1) (fp st !! (k - 1)) + 1 in
  let y2 := default (-1) (fp st !! (k + 1)) in
  let dir := if y2 <? y1 then -1 else 1 in
  let es1 :=
    match es st !! (k + dir) with
    | Some s => <[k := s]> (es st)
    | None => es st
    end in
  let es2 :=
    match es1 !! k with
    | Some _ => es1
    | None => <[k := []]> es1
    end in
  default [] (es2 !! k) ++ [if y2 <? y1 then _insert else _delete].

(** The state when the turn [p] is over. *)
Definition Inv (p : Z) (st : search_state) : Prop := ∀ k, cell p k st.

(** The state within the turn [p]: the diagonals in [N] have been
    visited, the others still hold what the turn before left, and their
    points are inside the graph (the loop went on). *)
Definition Mid (p : Z) (N : Z → bool) (st : search_state) : Prop :=
  ∀ k, if N k then cell p k st else cell (p - 1) k st ∧ strict k st.

End search_notions.

(** ** Further notions *)

Definition pending_insert (c : compactor) : bool :=
  match lastOperation c with Some (CInsert _ _) => true | _ => false end.

(** The labels exchanged, as the swap of [diff] exchanges them. *)
Definition swap_label (t : atomic) : atomic :=
  match t with
  | Equal => Equal
  | Insert => Delete
  | Delete => Insert
  end.

(** The values a patch list inserts and the elements it asks to delete,
    counted. *)
Definition inserted (cs : list change) : Z :=
  foldr (λ op acc, match op with
                   | CInsert _ vs => len vs + acc
                   | CDelete _ _ => acc
                   end) 0 cs.

Definition deleted (cs : list change) : Z :=
  foldr (λ op acc, match op with
                   | CInsert _ _ => acc
                   | CDelete _ h => h + acc
                   end) 0 cs.

(** A patch list whose operations come in the order of the new sequence,
    from position [lo] on: an operation starts no earlier than where the
    one before it ends (an insert ends behind its values, a delete where
    it starts), and an insert carries the elements of [output] at its
    positions. *)
Fixpoint ordered (output : list value) (lo : Z) (cs : list change) : Prop :=
  match cs with
  | [] => True
  | CInsert i vs :: cs' =>
      lo ≤ i ∧ vs = get output <$> seqZ i (len vs)
      ∧ ordered output (i + len vs) cs'
  | CDelete i h :: cs' => lo ≤ i ∧ ordered output i cs'
  end.

(** Where a patch list that starts at [lo] ends. *)
Definition patch_end (lo : Z) (cs : list change) : Z :=
  foldl (λ acc op, match op with
                   | CInsert i vs => i + len vs
                   | CDelete i _ => i
                   end) lo cs.

(** The patch list of the compactor is in order, the pending operation
    follows it, and it ends where the index stands. *)
Definition compactor_ordered (output : list value) (c : compactor) : Prop :=
  ordered output 0 (changes c)
  ∧ match lastOperation c with
    | None => patch_end 0 (changes c) ≤ index c
    | Some (CInsert i vs) =>
        patch_end 0 (changes c) ≤ i ∧ i + len vs = index c
        ∧ vs = get output <$> seqZ i (len vs)
    | Some (CDelete i h) => patch_end 0 (changes c) ≤ i ∧ i = index c
    end.

(** At most one timer is pending, and it is the one the variable
    [timeout] names. *)
Definition one_timer (pg : page) : Prop :=
  timers pg = [] ∨ ∃ h, timeout pg = Some h ∧ timers pg = [h].

(** A keystroke that has not been sent has a pending timer behind it. *)
Definition keystroke_covered (pg : page) : Prop :=
  keypressed (page_client pg) = true → timers pg ≠ [].

(** The events of typing: the widget changes the content, the listener
    runs; no timer fires and nothing comes in. *)
Definition is_typing (e : event) : bool :=
  match e with
  | Typed _ | Keypress => true
  | Fire _ | Incoming _ => false
  end.

(** The maximal runs of a stream, each with its token and its length. *)
Fixpoint runs (s : list atomic) : list (atomic * Z) :=
  match s with
  | [] => []
  | t :: s' =>
      match runs s' with
      | (u, k) :: rs =>
          if decide (t = u) then (t, k + 1) :: rs else (t, 1) :: (u, k) :: rs
      | [] => [(t, 1)]
      end
  end.

(** Runs of positive length, no two neighbours with the same token. *)
Fixpoint maximal_runs (rs : list (atomic * Z)) : Prop :=
  match rs with
  | [] => True
  | (t, k) :: rs' =>
      0 < k
      ∧ match rs' with (u, _) :: _ => t ≠ u | [] => True end
      ∧ maximal_runs rs'
  end.

(** The stream that a list of runs stands for. *)
Definition expand (rs : list (atomic * Z)) : list atomic :=
  flat_map (λ r, fill r.2 r.1) rs.

(** The merged operations of a list of runs, from the position [idx] of
    the new array on: a run of equal tokens moves on by its length; a
    run of insert tokens is one insert operation at the position reached,
    with the elements that [output] holds from there on, and moves on by
    its length; a run of delete tokens is one delete operation at the
    position reached, as long as the run, and does not move. *)
Fixpoint merge_runs (output : list value) (idx : Z)
    (rs : list (atomic * Z)) : list change :=
  match rs with
  | [] => []
  | (Equal, k) :: rs' => merge_runs output (idx + k) rs'
  | (Insert, k) :: rs' =>
      CInsert idx (get output <$> seqZ idx k)
      :: merge_runs output (idx + k) rs'
  | (Delete, k) :: rs' => CDelete idx k :: merge_runs output idx rs'
  end.

(** The tokens that the pending operation of the compactor has taken in,
    and where their run started. *)
Definition pending_run (c : compactor) : list atomic :=
  match lastOperation c with
  | Some (CInsert _ vs) => fill (len vs) Insert
  | Some (CDelete _ h) => fill h Delete
  | None => []
  end.

Definition pending_start (c : compactor) : Z :=
  match lastOperation c with
  | Some (CInsert i _) => i
  | _ => index c
  end.

(** The pending operation is the one its run stands for. *)
Definition pending_ok (output : list value) (c : compactor) : Prop :=
  match lastOperation c with
  | None => True
  | Some (CInsert i vs) =>
      i + len vs = index c ∧ 1 ≤ len vs
      ∧ vs = get output <$> seqZ i (len vs)
  | Some (CDelete i h) => i = index c ∧ 1 ≤ h
  end.

(** The search state with every script relabelled. *)
Definition relabel_state (f : atomic → atomic) (st : search_state)
  : search_state :=
  mkSearch (fp st) ((λ script : list atomic, f <$> script) <$> es st).

(** ** Arrays: reading and cutting *)

Lemma len_nonneg {A} (l : list A) : 0 ≤ len l.
Proof. unfold len. lia. Qed.

Lemma len_app {A} (l1 l2 : list A) : len (l1 ++ l2) = len l1 + len l2.
Proof. unfold len. rewrite length_app. lia. Qed.

Lemma len_nil {A} : len (@nil A) = 0.
Proof. reflexivity. Qed.

Lemma len_cons {A} (x : A) l : len (x :: l) = 1 + len l.
Proof. unfold len. simpl. lia. Qed.

Lemma get_lookup arr i :
  0 ≤ i → get arr i = default VUndefined (arr !! Z.to_nat i).
Proof. intros Hi. unfold get. destruct (Z.ltb_spec i 0); [lia | done]. Qed.

Lemma get_out arr i : len arr ≤ i → get arr i = VUndefined.
Proof.
  intros Hi. pose proof (len_nonneg arr). rewrite get_lookup by lia.
  rewrite lookup_ge_None_2; [done | unfold len in *; lia].
Qed.

Lemma get_defined_in arr i : get arr i ≠ VUndefined → 0 ≤ i < len arr.
Proof.
  intros Hd. split.
  - destruct (Z.ltb_spec i 0) as [Hlt|]; [|done].
    exfalso. apply Hd. unfold get. by rewrite (proj2 (Z.ltb_lt _ _) Hlt).
  - destruct (Z.lt_ge_cases i (len arr)); [done|].
    exfalso. by apply Hd, get_out.
Qed.

Lemma get_lookup_Some arr i :
  0 ≤ i < len arr → arr !! Z.to_nat i = Some (get arr i).
Proof.
  intros Hi. rewrite get_lookup by lia.
  destruct (lookup_lt_is_Some_2 arr (Z.to_nat i)) as [v Hv];
    [unfold len in *; lia|]. by rewrite Hv.
Qed.

Lemma get_elem_of a j : 0 ≤ j < len a → get a j ∈ a.
Proof.
  intros Hj. apply list_elem_of_lookup. exists (Z.to_nat j).
  by apply get_lookup_Some.
Qed.

Lemma get_reverse arr i :
  0 ≤ i < len arr → get (reverse arr) i = get arr (len arr - 1 - i).
Proof.
  intros Hi. rewrite !get_lookup by lia. unfold len in *.
  rewrite reverse_lookup by lia. do 3 f_equal. lia.
Qed.

Lemma get_drop arr k i :
  0 ≤ k → 0 ≤ i → get (drop (Z.to_nat k) arr) i = get arr (k + i).
Proof.
  intros Hk Hi. rewrite !get_lookup by lia. rewrite lookup_drop.
  do 2 f_equal. lia.
Qed.

Lemma slice_from_nonneg {A} (arr : list A) k :
  0 ≤ k → slice_from arr k = drop (Z.to_nat k) arr.
Proof.
  intros Hk. unfold slice_from, clamp_index.
  destruct (Z.ltb_spec k 0); [lia|].
  destruct (Z.le_gt_cases k (len arr)).
  - by rewrite Z.min_l.
  - rewrite Z.min_r by lia. unfold len in *.
    rewrite !drop_ge; [done | lia | lia].
Qed.

Lemma slice_range {A} (arr : list A) s e :
  0 ≤ s ≤ e → e ≤ len arr →
  slice arr s e = take (Z.to_nat (e - s)) (drop (Z.to_nat s) arr).
Proof.
  intros Hs He. unfold slice, clamp_index.
  destruct (Z.ltb_spec s 0); [lia|]. destruct (Z.ltb_spec e 0); [lia|].
  by rewrite !Z.min_l by lia.
Qed.

Lemma splice_insert {A} (l1 l2 vs : list A) i :
  i = len l1 → splice (l1 ++ l2) i 0 vs = l1 ++ vs ++ l2.
Proof.
  intros ->. unfold splice, clamp_index. pose proof (len_nonneg l1).
  pose proof (len_nonneg l2). rewrite len_app.
  destruct (Z.ltb_spec (len l1) 0); [lia|].
  rewrite Z.min_l by lia. rewrite Z.max_l by lia. rewrite Z.min_l by lia.
  rewrite Z.add_0_r. unfold len. rewrite Nat2Z.id.
  by rewrite take_app_length, drop_app_length.
Qed.

Lemma splice_delete {A} (l1 l2 : list A) i h :
  i = len l1 → 0 ≤ h ≤ len l2 →
  splice (l1 ++ l2) i h [] = l1 ++ drop (Z.to_nat h) l2.
Proof.
  intros -> Hh. unfold splice, clamp_index. pose proof (len_nonneg l1).
  rewrite len_app. destruct (Z.ltb_spec (len l1) 0); [lia|].
  rewrite Z.min_l by lia. rewrite Z.max_l by lia. rewrite Z.min_l by lia.
  unfold len. rewrite Nat2Z.id, take_app_length. simpl. f_equal.
  rewrite Z2Nat.inj_add by (unfold len in *; lia). rewrite Nat2Z.id.
  by rewrite <- drop_drop, drop_app_length.
Qed.

Lemma take_snoc_get arr i :
  0 ≤ i < len arr →
  take (Z.to_nat (i + 1)) arr = take (Z.to_nat i) arr ++ [get arr i].
Proof.
  intros Hi. rewrite Z2Nat.inj_add by lia. change (Z.to_nat 1) with 1%nat.
  rewrite Nat.add_1_r. by apply take_S_r, get_lookup_Some.
Qed.

Lemma drop_cons_get arr i :
  0 ≤ i < len arr →
  drop (Z.to_nat i) arr = get arr i :: drop (Z.to_nat (i + 1)) arr.
Proof.
  intros Hi. rewrite Z2Nat.inj_add by lia. change (Z.to_nat 1) with 1%nat.
  rewrite Nat.add_1_r. by apply drop_S, get_lookup_Some.
Qed.

(** ** The boundary scan *)

Lemma is_undefined_true v : is_undefined v = true ↔ v = VUndefined.
Proof. destruct v; naive_solver. Qed.

Lemma is_undefined_false v : is_undefined v = false ↔ v ≠ VUndefined.
Proof. destruct v; naive_solver. Qed.

Lemma agree_in_range arr1 arr2 cmp j :
  agree arr1 arr2 cmp j = true → 0 ≤ j < len arr1 ∧ 0 ≤ j < len arr2.
Proof.
  unfold agree. rewrite !andb_true_iff, !negb_true_iff, !is_undefined_false.
  intros [[H1 H2] _]. apply get_defined_in in H1, H2. lia.
Qed.

Lemma agree_cmp arr1 arr2 cmp j :
  agree arr1 arr2 cmp j = true → cmp (get arr1 j) (get arr2 j) = true.
Proof. unfold agree. rewrite !andb_true_iff. tauto. Qed.

Lemma findFirstDifferenceIndex_loop_spec arr1 arr2 cmp fuel :
  ∀ i calls,
    let r := (findFirstDifferenceIndex_loop fuel i arr1 arr2 cmp calls).1 in
    (r = -1 ∧ ∀ j, i ≤ j < i + Z.of_nat fuel → agree arr1 arr2 cmp j = true)
    ∨ (i ≤ r < i + Z.of_nat fuel
       ∧ (∀ j, i ≤ j < r → agree arr1 arr2 cmp j = true)
       ∧ agree arr1 arr2 cmp r = false).
Proof.
  induction fuel as [|fuel IH]; intros i calls; simpl.
  - left. split; [done | intros; lia].
  - destruct (is_undefined (get arr1 i)) eqn:E1; simpl.
    { right. split; [lia|]. split; [intros; lia|].
      unfold agree. by rewrite E1. }
    destruct (is_undefined (get arr2 i)) eqn:E2; simpl.
    { right. split; [lia|]. split; [intros; lia|].
      unfold agree. by rewrite E1, E2. }
    destruct (cmp (get arr1 i) (get arr2 i)) eqn:E3; simpl.
    + assert (Hi : agree arr1 arr2 cmp i = true).
      { unfold agree. by rewrite E1, E2, E3. }
      destruct (IH (i + 1) (calls ++ [(get arr1 i, get arr2 i)]))
        as [[-> Hall] | (Hr & Hall & Hstop)].
      * left. split; [done|]. intros j Hj.
        destruct (decide (j = i)) as [->|]; [done | apply Hall; lia].
      * right. split; [lia|]. split; [|done]. intros j Hj.
        destruct (decide (j = i)) as [->|]; [done | apply Hall; lia].
    + right. split; [lia|]. split; [intros; lia|].
      unfold agree. by rewrite E1, E2, E3.
Qed.

(** What the scan returns: [-1] for two arrays of one length that agree
    everywhere, else the first position that fails the test. *)
Lemma findFirstDifferenceIndex_spec arr1 arr2 cmp :
  let r := findFirstDifferenceIndex arr1 arr2 cmp in
  (r = -1 ∧ len arr1 = len arr2
   ∧ ∀ j, 0 ≤ j < len arr1 → agree arr1 arr2 cmp j = true)
  ∨ (0 ≤ r ∧ r ≤ len arr1 ∧ r ≤ len arr2
     ∧ r < Z.max (len arr1) (len arr2)
     ∧ (∀ j, 0 ≤ j < r → agree arr1 arr2 cmp j = true)
     ∧ agree arr1 arr2 cmp r = false).
Proof.
  unfold findFirstDifferenceIndex, findFirstDifferenceIndex_calls.
  pose proof (findFirstDifferenceIndex_loop_spec arr1 arr2 cmp
                (Nat.max (length arr1) (length arr2)) 0 []) as H.
  simpl in H. rewrite Nat2Z.inj_max in H. fold (len arr1) (len arr2) in H.
  pose proof (len_nonneg arr1). pose proof (len_nonneg arr2).
  destruct H as [[-> Hall] | (Hr & Hall & Hstop)]; simpl.
  - left. split; [done|].
    assert (len arr1 = len arr2) as Heq.
    { destruct (Z.lt_trichotomy (len arr1) (len arr2)) as [Hlt|[?|Hlt]];
        [|done|].
      - destruct (agree_in_range _ _ _ _ (Hall (len arr1) ltac:(lia))). lia.
      - destruct (agree_in_range _ _ _ _ (Hall (len arr2) ltac:(lia))). lia. }
    split; [done|]. intros j Hj. apply Hall. lia.
  - right.
    assert (∀ j, 0 ≤ j < (findFirstDifferenceIndex_loop
              (Nat.max (length arr1) (length arr2)) 0 arr1 arr2 cmp []).1 →
            j < len arr1 ∧ j < len arr2) as Hin.
    { intros j Hj. destruct (agree_in_range _ _ _ _ (Hall j Hj)). lia. }
    set (r := (findFirstDifferenceIndex_loop _ 0 arr1 arr2 cmp []).1) in *.
    assert (r ≤ len arr1 ∧ r ≤ len arr2) as [? ?].
    { destruct (decide (r = 0)) as [->|]; [lia|].
      destruct (Hin (r - 1)); lia. }
    repeat split; try done; lia.
Qed.

(** The comparator is not called at the position where the scan stops on
    a missing element: the calls are those for the positions before it. *)
Lemma findFirstDifferenceIndex_loop_calls arr1 arr2 cmp fuel :
  ∀ i calls r,
    (∀ j, i ≤ j < r → agree arr1 arr2 cmp j = true) →
    i ≤ r < i + Z.of_nat fuel →
    is_undefined (get arr1 r) || is_undefined (get arr2 r) = true →
    findFirstDifferenceIndex_loop fuel i arr1 arr2 cmp calls
    = (r, calls ++ ((λ j, (get arr1 j, get arr2 j)) <$> seqZ i (r - i))).
Proof.
  induction fuel as [|fuel IH]; intros i calls r Hall Hr Hund; [lia|].
  simpl. destruct (decide (i = r)) as [->|Hne].
  - rewrite Z.sub_diag, seqZ_nil by lia. simpl. rewrite app_nil_r.
    destruct (is_undefined (get arr1 r)); [done|].
    simpl in Hund. by rewrite Hund.
  - pose proof (Hall i ltac:(lia)) as Hi. unfold agree in Hi.
    rewrite !andb_true_iff, !negb_true_iff in Hi.
    destruct Hi as [[-> ->] ->]. simpl.
    rewrite (IH (i + 1) _ r); [|intros; apply Hall; lia|lia|done].
    rewrite (seqZ_cons i) by lia. simpl. rewrite <- app_assoc. simpl.
    replace (Z.succ i) with (i + 1) by lia.
    by replace (Z.pred (r - i)) with (r - (i + 1)) by lia.
Qed.

(** The boundaries found for two arrays that differ: the common prefix
    and the common suffix do not overlap. *)
Lemma findChangeBoundaryIndexes_spec arr1 arr2 cmp :
  let ci := findChangeBoundaryIndexes arr1 arr2 cmp in
  let f := firstIndex ci in
  (f = -1 ∧ lastIndexOld ci = -1 ∧ lastIndexNew ci = -1
   ∧ findFirstDifferenceIndex arr1 arr2 cmp = -1)
  ∨ (∃ l, 0 ≤ f ∧ 0 ≤ l ∧ f + l ≤ len arr1 ∧ f + l ≤ len arr2
     ∧ f + l < Z.max (len arr1) (len arr2)
     ∧ f = findFirstDifferenceIndex arr1 arr2 cmp
     ∧ lastIndexOld ci = len arr1 - l ∧ lastIndexNew ci = len arr2 - l
     ∧ (∀ j, 0 ≤ j < f → agree arr1 arr2 cmp j = true)
     ∧ agree arr1 arr2 cmp f = false
     ∧ (∀ j, 0 ≤ j < l →
          agree (cutAndReverse arr1 f) (cutAndReverse arr2 f) cmp j = true)
     ∧ agree (cutAndReverse arr1 f) (cutAndReverse arr2 f) cmp l = false).
Proof.
  unfold findChangeBoundaryIndexes.
  pose proof (findFirstDifferenceIndex_spec arr1 arr2 cmp) as Hf.
  simpl in Hf. set (f := findFirstDifferenceIndex arr1 arr2 cmp) in *.
  destruct Hf as [(Hf & Hlen & Hall) | (Hf0 & Hf1 & Hf2 & Hmax & Hall & Hstop)].
  { rewrite Hf. simpl. left. done. }
  destruct (Z.eqb_spec f (-1)) as [?|_]; [lia|]. simpl. right.
  pose proof (findFirstDifferenceIndex_spec (cutAndReverse arr1 f)
                (cutAndReverse arr2 f) cmp) as Hl. simpl in Hl.
  set (l := findFirstDifferenceIndex (cutAndReverse arr1 f)
              (cutAndReverse arr2 f) cmp) in *.
  assert (Hc1 : len (cutAndReverse arr1 f) = len arr1 - f).
  { unfold cutAndReverse. rewrite slice_from_nonneg by lia. unfold len in *.
    rewrite length_reverse, length_drop. lia. }
  assert (Hc2 : len (cutAndReverse arr2 f) = len arr2 - f).
  { unfold cutAndReverse. rewrite slice_from_nonneg by lia. unfold len in *.
    rewrite length_reverse, length_drop. lia. }
  rewrite Hc1, Hc2 in Hl.
  destruct Hl as [(Hl & Hlen & Hall') | (Hl0 & Hl1 & Hl2 & Hl3 & Hall' & Hstop')].
  - exfalso.
    assert (Hlast : agree (cutAndReverse arr1 f) (cutAndReverse arr2 f) cmp
                      (len arr1 - f - 1) = true) by (apply Hall'; lia).
    unfold agree, cutAndReverse in Hlast.
    rewrite !slice_from_nonneg in Hlast by lia.
    rewrite !get_reverse in Hlast
      by (unfold len in *; rewrite length_drop; lia).
    replace (len (drop (Z.to_nat f) arr1)) with (len arr1 - f) in Hlast
      by (unfold len; rewrite length_drop; unfold len in *; lia).
    replace (len (drop (Z.to_nat f) arr2)) with (len arr1 - f) in Hlast
      by (unfold len; rewrite length_drop; unfold len in *; lia).
    rewrite !get_drop in Hlast by lia.
    replace (f + (len arr1 - f - 1 - (len arr1 - f - 1))) with f in Hlast
      by lia.
    unfold agree in Hstop. congruence.
  - exists l. repeat split; try done; lia.
Qed.

(** ** Streams of atomic operations as paths in the edit graph *)

Lemma walk_app a b cmp ins s1 s2 pos :
  walk a b cmp ins (s1 ++ s2) pos
  = walk a b cmp ins s1 pos ≫= walk a b cmp ins s2.
Proof.
  revert pos. induction s1 as [|t s1 IH]; intros pos; simpl; [done|].
  destruct (walk_step a b cmp ins pos t); simpl; [apply IH | done].
Qed.

Lemma walk_snoc a b cmp ins s t pos pos' :
  walk a b cmp ins s pos = Some pos' →
  walk a b cmp ins (s ++ [t]) pos = walk_step a b cmp ins pos' t.
Proof.
  intros H. rewrite walk_app, H. simpl.
  by destruct (walk_step a b cmp ins pos' t).
Qed.

Lemma walk_step_mono a b cmp ins pos t pos' :
  walk_step a b cmp ins pos t = Some pos' →
  pos.1 ≤ pos'.1 ∧ pos.2 ≤ pos'.2.
Proof.
  unfold walk_step. intros H.
  repeat case_decide; repeat case_match; simplify_eq; simpl; lia.
Qed.

Lemma walk_mono a b cmp ins s :
  ∀ pos pos', walk a b cmp ins s pos = Some pos' →
              pos.1 ≤ pos'.1 ∧ pos.2 ≤ pos'.2.
Proof.
  induction s as [|t s IH]; intros pos pos' H; simpl in H.
  - simplify_eq. lia.
  - destruct (walk_step a b cmp ins pos t) as [pos1|] eqn:E; [|done].
    simpl in H. apply walk_step_mono in E. apply IH in H. lia.
Qed.

Lemma strict_eq_sound : sound strict_eq.
Proof.
  intros u v H. destruct u; try done; by apply bool_decide_eq_true in H.
Qed.

Lemma strict_eq_refl v : v ≠ VNaN → strict_eq v v = true.
Proof. intros Hv. destruct v; try done; by apply bool_decide_eq_true. Qed.

Lemma strict_eq_not_NaN u v : strict_eq u v = true → u ≠ VNaN ∧ v ≠ VNaN.
Proof.
  intros H. pose proof (strict_eq_sound u v H) as <-. by destruct u.
Qed.

Lemma strict_eq_sym u v : strict_eq u v = strict_eq v u.
Proof.
  destruct (strict_eq u v) eqn:E.
  - destruct (strict_eq_not_NaN _ _ E) as [Hu _].
    pose proof (strict_eq_sound u v E) as <-. symmetry.
    by apply strict_eq_refl.
  - destruct (strict_eq v u) eqn:E'; [|done].
    destruct (strict_eq_not_NaN _ _ E') as [_ Hu].
    pose proof (strict_eq_sound v u E') as <-.
    by rewrite strict_eq_refl in E.
Qed.

Lemma same_value_sound : sound same_value.
Proof. intros u v H. by apply bool_decide_eq_true in H. Qed.

Lemma strict_eq_same_value u v :
  u ≠ VNaN ∨ v ≠ VNaN → strict_eq u v = same_value u v.
Proof.
  intros [Hu|Hv].
  - by destruct u.
  - rewrite strict_eq_sym. unfold same_value.
    rewrite (bool_decide_ext (u = v) (v = u)) by (split; intros ?; congruence).
    by destruct v.
Qed.

(** ** The compactor and [applyChanges] *)

Lemma applyChanges_snoc input cs c :
  applyChanges input (cs ++ [c]) = applyChange (applyChanges input cs) c.
Proof. unfold applyChanges. by rewrite foldl_app. Qed.

Section compactor.
Variables (a b : list value).

Local Abbreviation compactor_inv := (compactor_inv a b).

Lemma compactor_inv_flush c x y :
  compactor_inv c x y → 0 ≤ x ≤ len a → 0 ≤ y ≤ len b →
  compactor_inv (pushLast c) x y.
Proof.
  intros [Hidx Hop] Hx Hy. unfold pushLast, compactor_inv.
  destruct (lastOperation c) as [[i vs|i h]|] eqn:E; simpl;
    [| |by rewrite E].
  - destruct Hop as (Hi & -> & Happ). split; [done|].
    rewrite applyChanges_snoc, Happ. simpl.
    rewrite splice_insert
      by (unfold len in *; rewrite length_take; lia).
    rewrite app_assoc, take_take_drop. do 2 f_equal. lia.
  - destruct Hop as (-> & Hh & Happ). split; [done|].
    rewrite applyChanges_snoc, Happ. simpl.
    rewrite splice_delete.
    + rewrite drop_drop. do 2 f_equal. lia.
    + unfold len in *. rewrite length_take. lia.
    + unfold len in *. rewrite length_drop. lia.
Qed.

Lemma pushLast_lastOperation c : lastOperation (pushLast c) = None.
Proof. unfold pushLast. by destruct (lastOperation c) eqn:E. Qed.

Lemma pushLast_index c : index (pushLast c) = index c.
Proof. unfold pushLast. by destruct (lastOperation c). Qed.

Lemma compactor_inv_step cmp c x y t pos' :
  sound cmp →
  compactor_inv c x y → 0 ≤ x → 0 ≤ y →
  walk_step a b cmp Insert (x, y) t = Some pos' →
  pos'.1 ≤ len a → pos'.2 ≤ len b →
  compactor_inv (diffToChanges_step b c t) pos'.1 pos'.2.
Proof.
  intros Hcmp Hinv Hx Hy Hstep Hx' Hy'.
  unfold walk_step in Hstep. simpl in Hstep.
  destruct t; repeat case_decide; try done.
  - (* equal *)
    destruct (Z.ltb_spec x (len a)); [|done].
    destruct (Z.ltb_spec y (len b)); [|done].
    destruct (cmp (get a x) (get b y)) eqn:Ec; [|done].
    injection Hstep as <-. simpl in *. apply Hcmp in Ec.
    pose proof (compactor_inv_flush c x y Hinv ltac:(lia) ltac:(lia))
      as [Hidx Hop].
    unfold compactor_inv. simpl.
    rewrite pushLast_lastOperation in *. split; [lia|].
    rewrite Hop. rewrite (take_snoc_get b y) by lia.
    rewrite (drop_cons_get a x) by lia. rewrite Ec.
    by rewrite <- app_assoc.
  - (* insert *)
    injection Hstep as <-. simpl in *.
    assert (Hnew : compactor_inv
              (mkCompactor (changes (pushLast c)) (index (pushLast c) + 1)
                 (Some (CInsert (index (pushLast c))
                          [get b (index (pushLast c))]))) x (y + 1)).
    { pose proof (compactor_inv_flush c x y Hinv ltac:(lia) ltac:(lia))
        as [Hidx Hop].
      rewrite pushLast_lastOperation in Hop.
      unfold compactor_inv. simpl. rewrite Hidx.
      split; [done|]. split; [lia|]. split; [|done].
      replace (y + 1 - y) with 1 by lia. rewrite (drop_cons_get b y) by lia.
      done. }
    destruct Hinv as [Hidx Hop].
    destruct (lastOperation c) as [[i vs|i h]|] eqn:E; try done.
    unfold compactor_inv. simpl. destruct Hop as (Hi & -> & Happ).
    rewrite Hidx. split; [done|]. split; [lia|]. split; [|done].
    replace (y + 1 - i) with ((y - i) + 1) by lia.
    rewrite Z2Nat.inj_add by lia. change (Z.to_nat 1) with 1%nat.
    rewrite Nat.add_1_r. symmetry. apply take_S_r.
    rewrite lookup_drop.
    replace (Z.to_nat i + Z.to_nat (y - i))%nat with (Z.to_nat y) by lia.
    apply get_lookup_Some. lia.
  - (* delete *)
    injection Hstep as <-. simpl in *.
    assert (Hnew : compactor_inv
              (mkCompactor (changes (pushLast c)) (index (pushLast c))
                 (Some (CDelete (index (pushLast c)) 1))) (x + 1) y).
    { pose proof (compactor_inv_flush c x y Hinv ltac:(lia) ltac:(lia))
        as [Hidx Hop].
      rewrite pushLast_lastOperation in Hop.
      unfold compactor_inv. simpl. rewrite Hidx.
      split; [done|]. split; [done|]. split; [lia|].
      by replace (x + 1 - 1) with x by lia. }
    destruct Hinv as [Hidx Hop].
    destruct (lastOperation c) as [[i vs|i h]|] eqn:E; try done.
    unfold compactor_inv. simpl. destruct Hop as (-> & Hh & Happ).
    split; [done|]. split; [done|]. split; [lia|].
    by replace (x + 1 - (h + 1)) with (x - h) by lia.
Qed.

Lemma compactor_inv_walk cmp s :
  sound cmp →
  ∀ c x y,
    compactor_inv c x y → 0 ≤ x → 0 ≤ y →
    walk a b cmp Insert s (x, y) = Some (len a, len b) →
    applyChanges a
      (changes (pushLast (foldl (diffToChanges_step b) c s))) = b.
Proof.
  intros Hcmp. induction s as [|t s IH]; intros c x y Hinv Hx Hy Hw.
  - simpl in *. simplify_eq.
    destruct (compactor_inv_flush c _ _ Hinv) as [_ Hop]; [lia..|].
    rewrite pushLast_lastOperation in Hop. rewrite Hop.
    unfold len. rewrite !Nat2Z.id, take_ge, drop_ge by lia.
    by rewrite app_nil_r.
  - simpl in Hw.
    destruct (walk_step a b cmp Insert (x, y) t) as [[x' y']|] eqn:E;
      [|done].
    simpl in Hw. pose proof (walk_mono _ _ _ _ _ _ _ Hw) as [? ?].
    pose proof (walk_step_mono _ _ _ _ _ _ _ E) as [? ?]. simpl in *.
    apply (IH _ x' y'); [|lia|lia|done].
    by apply (compactor_inv_step cmp c x y t (x', y')).
Qed.

(** A stream that is a path from the origin to the far corner of the
    edit graph compacts to a patch that turns [a] into [b]. *)
Lemma diffToChanges_applyChanges cmp s :
  sound cmp →
  walk a b cmp Insert s (0, 0) = Some (len a, len b) →
  applyChanges a (diffToChanges s b) = b.
Proof.
  intros Hcmp Hw. unfold diffToChanges.
  apply (compactor_inv_walk cmp s Hcmp _ 0 0); [|done|done|done].
  split; [done|]. simpl. done.
Qed.
End compactor.

(** ** The atomic stream of the boundary engine is a path *)

Lemma fill_nonpos {A} n (x : A) : n ≤ 0 → fill n x = [].
Proof. intros H. unfold fill. by replace (Z.to_nat n) with 0%nat by lia. Qed.

Lemma fill_succ {A} n (x : A) : 0 ≤ n → fill (n + 1) x = x :: fill n x.
Proof.
  intros H. unfold fill. by replace (Z.to_nat (n + 1)) with (S (Z.to_nat n))
    by lia.
Qed.

Lemma len_fill {A} n (x : A) : 0 ≤ n → len (fill n x) = n.
Proof. intros H. unfold len, fill. rewrite length_replicate. lia. Qed.

Lemma walk_fill_equal a b cmp ins c :
  0 ≤ c →
  ∀ x y,
    (∀ j, 0 ≤ j < c →
          x + j < len a ∧ y + j < len b
          ∧ cmp (get a (x + j)) (get b (y + j)) = true) →
    walk a b cmp ins (fill c Equal) (x, y) = Some (x + c, y + c).
Proof.
  intros Hc. pattern c. apply natlike_ind; [| |done].
  - intros x y _. simpl. do 2 f_equal; lia.
  - clear c Hc. intros c Hc IH x y Hall. unfold Z.succ.
    rewrite fill_succ by done. simpl. unfold walk_step. simpl.
    destruct (Hall 0 ltac:(lia)) as (Hx & Hy & Hcmp).
    rewrite !Z.add_0_r in *.
    rewrite (proj2 (Z.ltb_lt _ _) Hx), (proj2 (Z.ltb_lt _ _) Hy), Hcmp.
    simpl. rewrite IH.
    + do 2 f_equal; lia.
    + intros j Hj. destruct (Hall (j + 1) ltac:(lia)) as (? & ? & ?).
      by replace (x + 1 + j) with (x + (j + 1)) by lia;
         replace (y + 1 + j) with (y + (j + 1)) by lia.
Qed.

Lemma walk_fill_ins a b cmp ins c :
  ins ≠ Equal → 0 ≤ c →
  ∀ x y, walk a b cmp ins (fill c ins) (x, y) = Some (x, y + c).
Proof.
  intros Hins Hc. pattern c. apply natlike_ind; [| |done].
  - intros x y. simpl. do 2 f_equal; lia.
  - clear c Hc. intros c Hc IH x y. unfold Z.succ.
    rewrite fill_succ by done. simpl. unfold walk_step. simpl.
    rewrite decide_False, decide_True by done. simpl. rewrite IH.
    do 2 f_equal; lia.
Qed.

Lemma walk_fill_del a b cmp ins del c :
  del ≠ Equal → del ≠ ins → 0 ≤ c →
  ∀ x y, walk a b cmp ins (fill c del) (x, y) = Some (x + c, y).
Proof.
  intros Hdel Hne Hc. pattern c. apply natlike_ind; [| |done].
  - intros x y. simpl. do 2 f_equal; lia.
  - clear c Hc. intros c Hc IH x y. unfold Z.succ.
    rewrite fill_succ by done. simpl. unfold walk_step. simpl.
    rewrite !decide_False by done. simpl. rewrite IH.
    do 2 f_equal; lia.
Qed.

Lemma len_cutAndReverse arr f :
  0 ≤ f ≤ len arr → len (cutAndReverse arr f) = len arr - f.
Proof.
  intros Hf. unfold cutAndReverse. rewrite slice_from_nonneg by lia.
  unfold len in *. rewrite length_reverse, length_drop. lia.
Qed.

Lemma get_cutAndReverse arr f i :
  0 ≤ f ≤ len arr → 0 ≤ i < len arr - f →
  get (cutAndReverse arr f) i = get arr (len arr - 1 - i).
Proof.
  intros Hf Hi. unfold cutAndReverse. rewrite slice_from_nonneg by lia.
  assert (len (drop (Z.to_nat f) arr) = len arr - f) as Hl.
  { unfold len in *. rewrite length_drop. lia. }
  rewrite get_reverse by lia. rewrite Hl, get_drop by lia. f_equal. lia.
Qed.

Lemma changeIndexesToAtomicChanges_runs ci newLength :
  firstIndex ci ≠ -1 →
  changeIndexesToAtomicChanges ci newLength
  = fill (firstIndex ci) Equal
    ++ fill (lastIndexNew ci - firstIndex ci) Insert
    ++ fill (lastIndexOld ci - firstIndex ci) Delete
    ++ fill (newLength - lastIndexNew ci) Equal.
Proof.
  intros Hf. unfold changeIndexesToAtomicChanges.
  destruct (Z.eqb_spec (firstIndex ci) (-1)); [done|]. simpl.
  repeat match goal with
         | |- context [if ?c <? ?d then _ else _] =>
             destruct (Z.ltb_spec c d)
         end;
    rewrite ?(fill_nonpos (firstIndex ci)),
      ?(fill_nonpos (lastIndexNew ci - firstIndex ci)),
      ?(fill_nonpos (lastIndexOld ci - firstIndex ci)),
      ?(fill_nonpos (newLength - lastIndexNew ci)) by lia;
    simpl; rewrite ?app_nil_r, <- ?app_assoc; done.
Qed.

(** For every comparator the atomic stream of [fastDiff] is a path from
    the origin to the far corner of the edit graph. *)
Lemma fastDiff_walk a b cmp :
  walk a b cmp Insert (fastDiff a b cmp true) (0, 0) = Some (len a, len b).
Proof.
  unfold fastDiff.
  pose proof (findChangeBoundaryIndexes_spec a b cmp) as H. simpl in H.
  set (ci := findChangeBoundaryIndexes a b cmp) in *.
  pose proof (len_nonneg a). pose proof (len_nonneg b).
  destruct H as [(Hf & _ & _ & Hr) | (l & Hf & Hl & Hla & Hlb & _ & Hfeq & Hold
                                       & Hnew & Hpre & _ & Hsuf & _)].
  - unfold changeIndexesToAtomicChanges. rewrite Hf. simpl.
    pose proof (findFirstDifferenceIndex_spec a b cmp) as Hs. simpl in Hs.
    destruct Hs as [(_ & Hlen & Hall) | (? & _)]; [|lia].
    rewrite walk_fill_equal; [by rewrite Hlen | lia |].
    intros j Hj. simpl. pose proof (Hall j ltac:(lia)) as Hj'.
    split; [lia|]. split; [lia|]. by apply agree_cmp.
  - rewrite changeIndexesToAtomicChanges_runs by lia.
    rewrite Hold, Hnew. rewrite walk_app.
    rewrite walk_fill_equal; [|lia|]; last first.
    { intros j Hj. simpl. split; [lia|]. split; [lia|].
      apply agree_cmp, Hpre. lia. }
    simpl. rewrite walk_app, walk_fill_ins; [|done|lia]. simpl.
    rewrite walk_app, (walk_fill_del _ _ _ Insert Delete); [|done|done|lia].
    simpl. rewrite walk_fill_equal; [f_equal; f_equal; lia|lia|].
    intros j Hj. split; [lia|]. split; [lia|].
    pose proof (Hsuf (l - 1 - j) ltac:(lia)) as Hag. apply agree_cmp in Hag.
    rewrite !get_cutAndReverse in Hag by lia.
    replace (0 + firstIndex ci + (len a - l - firstIndex ci) + j)
      with (len a - 1 - (l - 1 - j)) by lia.
    by replace (0 + firstIndex ci + (len b - l - firstIndex ci) + j)
      with (len b - 1 - (l - 1 - j)) by lia.
Qed.

(** ** Counting tokens *)

Lemma count_nil t : count t [] = 0.
Proof. done. Qed.

Lemma count_cons t u s :
  count t (u :: s) = (if decide (u = t) then 1 else 0) + count t s.
Proof.
  unfold count. rewrite filter_cons. case_decide; [|lia].
  rewrite len_cons. lia.
Qed.

Lemma count_app t s1 s2 : count t (s1 ++ s2) = count t s1 + count t s2.
Proof. unfold count. by rewrite filter_app, len_app. Qed.

Lemma count_nonneg t s : 0 ≤ count t s.
Proof. apply len_nonneg. Qed.

Lemma count_fill t u c :
  0 ≤ c → count t (fill c u) = if decide (u = t) then c else 0.
Proof.
  intros Hc. pattern c. apply natlike_ind; [| |done].
  - rewrite fill_nonpos by lia. by case_decide.
  - clear c Hc. intros c Hc IH. unfold Z.succ. rewrite fill_succ by done.
    rewrite count_cons, IH. case_decide; lia.
Qed.

Lemma count_total s :
  count Equal s + count Insert s + count Delete s = len s.
Proof.
  induction s as [|t s IH]; [done|].
  rewrite !count_cons, len_cons. destruct t; repeat case_decide; try done; lia.
Qed.

(** The diagonal a path ends on is the number of [ins] tokens less the
    number of the other edit tokens. *)
Lemma walk_diag a b cmp ins del s :
  ins ≠ Equal → del ≠ Equal → ins ≠ del →
  (∀ t, t = Equal ∨ t = ins ∨ t = del) →
  ∀ pos pos', walk a b cmp ins s pos = Some pos' →
    pos'.1 - pos.1 = count Equal s + count del s
    ∧ pos'.2 - pos.2 = count Equal s + count ins s.
Proof.
  intros Hi Hd Hne Hall. induction s as [|t s IH]; intros pos pos' H.
  - simpl in H. simplify_eq. rewrite !count_nil. lia.
  - simpl in H. destruct (walk_step a b cmp ins pos t) as [p1|] eqn:E; [|done].
    simpl in H. apply IH in H. rewrite !count_cons.
    unfold walk_step in E.
    destruct (Hall t) as [->|[->| ->]]; repeat case_decide; try done;
      repeat case_match; simplify_eq; simpl in *; lia.
Qed.

(** ** The shortest-edit-script search *)

Section search_correct.
Variables (a b : list value) (cmp : comparator) (_insert _delete : atomic).

(** The two ways [diff] sets the labels. *)
Hypothesis labels :
  (_insert = Insert ∧ _delete = Delete)
  ∨ (_insert = Delete ∧ _delete = Insert).

(** After the swap [a] is the shorter array. *)
Hypothesis a_shorter : len a ≤ len b.

Local Abbreviation m := (len a).
Local Abbreviation n := (len b).
Local Abbreviation delta := (len b - len a).
Local Abbreviation W := (walk a b cmp _insert).
Local Abbreviation Visit := (visit a b cmp _insert _delete).
Local Abbreviation Round := (round a b cmp _insert _delete).
Local Abbreviation Search := (search a b cmp _insert _delete).
Local Abbreviation cost := (cost a b _insert _delete).
Local Abbreviation snake_test := (snake_test a b cmp).
Local Abbreviation furthest := (furthest a b cmp _insert _delete).
Local Abbreviation diag_data := (diag_data a b cmp _insert _delete).
Local Abbreviation strict := (strict a b).
Local Abbreviation in_range := (in_range a b).
Local Abbreviation cell := (cell a b cmp _insert _delete).
Local Abbreviation lrank := (lrank a b).
Local Abbreviation rrank := (rrank a b).
Local Abbreviation start_script := (start_script _insert _delete).
Local Abbreviation Inv := (Inv a b cmp _insert _delete).
Local Abbreviation Mid := (Mid a b cmp _insert _delete).

Lemma insert_not_equal : _insert ≠ Equal.
Proof. destruct labels as [[-> ->]|[-> ->]]; done. Qed.

Lemma delete_not_equal : _delete ≠ Equal.
Proof. destruct labels as [[-> ->]|[-> ->]]; done. Qed.

Lemma insert_not_delete : _insert ≠ _delete.
Proof. destruct labels as [[-> ->]|[-> ->]]; done. Qed.

Lemma token_cases t : t = Equal ∨ t = _insert ∨ t = _delete.
Proof. destruct labels as [[-> ->]|[-> ->]]; destruct t; auto. Qed.

Lemma cost_nonneg s : 0 ≤ cost s.
Proof. unfold cost. pose proof (count_nonneg _delete s). lia. Qed.

Lemma walk_origin s x y :
  W s (0, 0) = Some (x, y) →
  0 ≤ x ∧ 0 ≤ y ∧ y - x = count _insert s - count _delete s.
Proof.
  intros H. pose proof (walk_mono _ _ _ _ _ _ _ H) as [? ?].
  pose proof (walk_diag a b cmp _insert _delete s insert_not_equal
                delete_not_equal insert_not_delete token_cases _ _ H)
    as [? ?]. simpl in *. lia.
Qed.

Lemma walk_snoc_insert s x y :
  W s (0, 0) = Some (x, y) → W (s ++ [_insert]) (0, 0) = Some (x, y + 1).
Proof.
  intros H. rewrite (walk_snoc _ _ _ _ _ _ _ _ H). unfold walk_step.
  rewrite decide_False by apply insert_not_equal. by rewrite decide_True.
Qed.

Lemma walk_snoc_delete s x y :
  W s (0, 0) = Some (x, y) → W (s ++ [_delete]) (0, 0) = Some (x + 1, y).
Proof.
  intros H. rewrite (walk_snoc _ _ _ _ _ _ _ _ H). unfold walk_step.
  rewrite decide_False by apply delete_not_equal.
  rewrite decide_False; [done|]. intros E. by apply insert_not_delete.
Qed.

Lemma count_snoc_insert s :
  count _insert (s ++ [_insert]) = count _insert s + 1
  ∧ count _delete (s ++ [_insert]) = count _delete s.
Proof.
  rewrite !count_app, !count_cons, !count_nil.
  pose proof insert_not_delete. repeat case_decide; try congruence; lia.
Qed.

Lemma count_snoc_delete s :
  count _insert (s ++ [_delete]) = count _insert s
  ∧ count _delete (s ++ [_delete]) = count _delete s + 1.
Proof.
  rewrite !count_app, !count_cons, !count_nil.
  pose proof insert_not_delete. repeat case_decide; try congruence; lia.
Qed.

Lemma count_snoc_equal s :
  count _insert (s ++ [Equal]) = count _insert s
  ∧ count _delete (s ++ [Equal]) = count _delete s.
Proof.
  rewrite !count_app, !count_cons, !count_nil.
  pose proof insert_not_equal. pose proof delete_not_equal.
  rewrite !decide_False by congruence. lia.
Qed.

Lemma cost_app_equal s c : 0 ≤ c → cost (s ++ fill c Equal) = cost s.
Proof.
  intros Hc. unfold cost. rewrite !count_app, !count_fill by done.
  pose proof insert_not_equal. pose proof delete_not_equal.
  rewrite !decide_False by congruence. f_equal; lia.
Qed.

Lemma snake_loop_spec fuel :
  ∀ x y script,
    ∃ j, 0 ≤ j
      ∧ snake_loop a b cmp fuel x y script
        = (y + j, script ++ fill j Equal)
      ∧ (∀ i, 0 ≤ i < j → snake_test (x + i) (y + i) = true)
      ∧ (m - x ≤ Z.of_nat fuel → snake_test (x + j) (y + j) = false).
Proof.
  induction fuel as [|fuel IH]; intros x y script.
  - exists 0. split; [done|]. simpl. rewrite fill_nonpos, app_nil_r by done.
    rewrite !Z.add_0_r. split; [done|]. split; [intros; lia|].
    intros Hx. unfold snake_test. destruct (Z.ltb_spec x m); [lia | done].
  - simpl. fold (snake_test x y). destruct (snake_test x y) eqn:E.
    + destruct (IH (x + 1) (y + 1) (script ++ [Equal]))
        as (j & Hj & -> & Hall & Hstop).
      exists (j + 1). split; [lia|]. split.
      { rewrite fill_succ by done. rewrite <- app_assoc. simpl.
        f_equal. lia. }
      split.
      * intros i Hi. destruct (decide (i = 0)) as [->|].
        { by rewrite !Z.add_0_r. }
        replace (x + i) with (x + 1 + (i - 1)) by lia.
        replace (y + i) with (y + 1 + (i - 1)) by lia. apply Hall. lia.
      * intros Hf. replace (x + (j + 1)) with (x + 1 + j) by lia.
        replace (y + (j + 1)) with (y + 1 + j) by lia. apply Hstop. lia.
    + exists 0. rewrite fill_nonpos, app_nil_r, !Z.add_0_r by done.
      split; [done|]. split; [done|]. split; [intros; lia | done].
Qed.

Lemma snake_test_walk s x y j :
  0 ≤ j →
  W s (0, 0) = Some (x, y) →
  (∀ i, 0 ≤ i < j → snake_test (x + i) (y + i) = true) →
  W (s ++ fill j Equal) (0, 0) = Some (x + j, y + j).
Proof.
  intros Hj Hw Hall. rewrite walk_app, Hw. simpl.
  apply walk_fill_equal; [done|]. intros i Hi.
  pose proof (Hall i Hi) as Ht. unfold snake_test in Ht.
  rewrite !andb_true_iff in Ht. destruct Ht as [[?%Z.ltb_lt ?%Z.ltb_lt] ?].
  done.
Qed.

Lemma no_path_out_of_range r k s x y :
  ¬ in_range r k → W s (0, 0) = Some (x, y) → y - x = k → ¬ cost s ≤ r.
Proof.
  intros Hr Hw Hk Hc. apply walk_origin in Hw as (_ & _ & Hd).
  pose proof (cost_nonneg s). pose proof (count_nonneg _insert s).
  pose proof (count_nonneg _delete s).
  apply Hr. unfold in_range, cost in *. lia.
Qed.

(** The other diagonals are left alone by a visit. *)
Lemma visit_other st k k' :
  k' ≠ k →
  fp (Visit st k) !! k' = fp st !! k' ∧ es (Visit st k) !! k' = es st !! k'.
Proof.
  intros Hne. unfold visit, snake.
  destruct (snake_loop _ _ _ _ _ _ _) as [y' s'] eqn:E. simpl.
  rewrite !lookup_insert_ne by done. split; [done|].
  repeat case_match; rewrite ?lookup_insert_ne by done; done.
Qed.

Lemma cost_snoc_insert q k t x y :
  W t (0, 0) = Some (x, y) → y - x = k - 1 →
  cost (t ++ [_insert]) ≤ q ↔ cost t ≤ lrank q k.
Proof.
  intros Hw Hk. apply walk_origin in Hw as (_ & _ & Hd).
  destruct (count_snoc_insert t) as [Hi Hdl].
  unfold cost, lrank. rewrite Hi, Hdl. case_decide; lia.
Qed.

Lemma cost_snoc_delete q k t x y :
  W t (0, 0) = Some (x, y) → y - x = k + 1 →
  cost (t ++ [_delete]) ≤ q ↔ cost t ≤ rrank q k.
Proof.
  intros Hw Hk. apply walk_origin in Hw as (_ & _ & Hd).
  destruct (count_snoc_delete t) as [Hi Hdl].
  unfold cost, rrank. rewrite Hi, Hdl. case_decide; lia.
Qed.

Lemma visit_unfold st k :
  ∃ es2,
    Visit st k
    = let '(y', s') :=
        snake_loop a b cmp (Z.to_nat (m - (start_y st k - k)))
          (start_y st k - k) (start_y st k) (start_script st k) in
      mkSearch (<[k := y']> (fp st)) (<[k := s']> es2).
Proof.
  unfold visit, snake, start_y, start_script.
  eexists. destruct (snake_loop _ _ _ _ _ _ _). reflexivity.
Qed.

Lemma snake_tail q k s0 y0 :
  W s0 (0, 0) = Some (y0 - k, y0) → cost s0 ≤ q →
  (k ≤ delta → y0 - k ≤ m) → (delta ≤ k → y0 ≤ n) →
  (∀ t x y, W t (0, 0) = Some (x, y) → y - x = k - 1 →
            cost (t ++ [_insert]) ≤ q → y + 1 ≤ y0) →
  (∀ t x y, W t (0, 0) = Some (x, y) → y - x = k + 1 →
            cost (t ++ [_delete]) ≤ q → y ≤ y0) →
  ∃ y' s,
    snake_loop a b cmp (Z.to_nat (m - (y0 - k))) (y0 - k) y0
      (_insert :: s0) = (y', _insert :: s)
    ∧ W s (0, 0) = Some (y' - k, y') ∧ cost s ≤ q
    ∧ (k ≤ delta → y' - k ≤ m) ∧ (delta ≤ k → y' ≤ n)
    ∧ furthest q k y'.
Proof.
  intros Hw Hc Hbx Hby HL HR.
  destruct (snake_loop_spec (Z.to_nat (m - (y0 - k))) (y0 - k) y0
              (_insert :: s0)) as (j & Hj & Heq & Hall & Hstop).
  exists (y0 + j), (s0 ++ fill j Equal). split; [done|].
  pose proof (snake_test_walk s0 _ _ j Hj Hw Hall) as Hw'.
  assert (Hin : 0 < j → y0 - k + j ≤ m ∧ y0 + j ≤ n).
  { intros Hpos. pose proof (Hall (j - 1) ltac:(lia)) as Ht.
    unfold snake_test in Ht. rewrite !andb_true_iff in Ht.
    destruct Ht as [[?%Z.ltb_lt ?%Z.ltb_lt] _]. lia. }
  split; [by replace (y0 + j - k) with (y0 - k + j) by lia|].
  split; [by rewrite cost_app_equal|].
  split; [intros; destruct (decide (j = 0)); lia|].
  split; [intros; destruct (decide (j = 0)); lia|].
  intros s'. induction s' as [|t s' IH] using rev_ind; intros x' y' Hs Hk Hq.
  - simpl in Hs. injection Hs as <- <-. apply walk_origin in Hw. lia.
  - rewrite walk_app in Hs.
    destruct (W s' (0, 0)) as [[x1 y1]|] eqn:E1; [|done]. simpl in Hs.
    destruct (walk_step a b cmp _insert (x1, y1) t) as [pos|] eqn:E2;
      [|done]. simpl in Hs. injection Hs as ->.
    unfold walk_step in E2. simpl in E2.
    destruct (token_cases t) as [->|[->| ->]].
    + rewrite decide_True in E2 by done.
      fold (snake_test x1 y1) in E2.
      destruct (snake_test x1 y1) eqn:Et; [|done].
      injection E2 as <- <-.
      destruct (count_snoc_equal s') as [Hi Hd].
      assert (cost s' ≤ q) as Hq' by (unfold cost in *; by rewrite <- Hi, <- Hd).
      pose proof (IH x1 y1 eq_refl ltac:(lia) Hq') as Hle.
      destruct (decide (y1 = y0 + j)) as [->|]; [|lia].
      replace x1 with (y0 - k + j) in Et by lia.
      rewrite Hstop in Et by lia. done.
    + rewrite decide_False in E2 by apply insert_not_equal.
      rewrite decide_True in E2 by done. injection E2 as <- <-.
      pose proof (HL s' x1 y1 E1 ltac:(lia) Hq). lia.
    + rewrite decide_False in E2 by apply delete_not_equal.
      rewrite decide_False in E2
        by (intros E; symmetry in E; by apply insert_not_delete).
      injection E2 as <- <-.
      pose proof (HR s' x1 y1 E1 ltac:(lia) Hq). lia.
Qed.

(** What a visit needs of a neighbouring diagonal. *)
Lemma cell_left_dominates q k st t x y :
  cell (lrank q k) (k - 1) st →
  W t (0, 0) = Some (x, y) → y - x = k - 1 → cost (t ++ [_insert]) ≤ q →
  y + 1 ≤ start_y st k.
Proof.
  intros Hcell Hw Hk Hc. rewrite (cost_snoc_insert q k t x y) in Hc by done.
  unfold cell in Hcell. case_decide as Hr.
  - destruct Hcell as (yl & sl & Hf & _ & _ & _ & _ & _ & Hfur).
    unfold start_y. rewrite Hf. simpl.
    pose proof (Hfur t x y Hw Hk Hc). lia.
  - by destruct (no_path_out_of_range _ _ t x y Hr Hw Hk).
Qed.

Lemma cell_right_dominates q k st t x y :
  cell (rrank q k) (k + 1) st →
  W t (0, 0) = Some (x, y) → y - x = k + 1 → cost (t ++ [_delete]) ≤ q →
  y ≤ start_y st k.
Proof.
  intros Hcell Hw Hk Hc. rewrite (cost_snoc_delete q k t x y) in Hc by done.
  unfold cell in Hcell. case_decide as Hr.
  - destruct Hcell as (yl & sl & Hf & _ & _ & _ & _ & _ & Hfur).
    unfold start_y. rewrite Hf. simpl.
    pose proof (Hfur t x y Hw Hk Hc). lia.
  - by destruct (no_path_out_of_range _ _ t x y Hr Hw Hk).
Qed.

Lemma start_from_left st k yl sl :
  fp st !! (k - 1) = Some yl → es st !! (k - 1) = Some (_insert :: sl) →
  default (-1) (fp st !! (k + 1)) < yl + 1 →
  start_script st k = _insert :: (sl ++ [_insert])
  ∧ start_y st k = yl + 1.
Proof.
  intros Hf He Hlt. unfold start_script, start_y. rewrite Hf. simpl.
  destruct (Z.ltb_spec (default (-1) (fp st !! (k + 1))) (yl + 1)); [|lia].
  replace (k + -1) with (k - 1) by lia. rewrite He.
  rewrite lookup_insert_eq. simpl. by rewrite lookup_insert_eq, Z.max_l by lia.
Qed.

Lemma start_from_right st k yr sr :
  fp st !! (k + 1) = Some yr → es st !! (k + 1) = Some (_insert :: sr) →
  default (-1) (fp st !! (k - 1)) + 1 ≤ yr →
  start_script st k = _insert :: (sr ++ [_delete])
  ∧ start_y st k = yr.
Proof.
  intros Hf He Hle. unfold start_script, start_y. rewrite Hf. simpl.
  destruct (Z.ltb_spec yr (default (-1) (fp st !! (k - 1)) + 1)); [lia|].
  rewrite He. rewrite lookup_insert_eq. simpl.
  by rewrite lookup_insert_eq, Z.max_r by lia.
Qed.

Lemma start_initial st k :
  undefined (k - 1) st → undefined (k + 1) st → es st !! k = None →
  start_script st k = [_insert] ∧ start_y st k = 0.
Proof.
  intros [Hf1 He1] [Hf2 He2] He. unfold start_script, start_y.
  rewrite Hf1, Hf2. simpl. replace (k + -1) with (k - 1) by lia.
  rewrite He1, He. by rewrite lookup_insert_eq.
Qed.

Lemma start_spec q k st :
  0 ≤ q →
  cell (lrank q k) (k - 1) st → (delta < k → strict (k - 1) st) →
  cell (rrank q k) (k + 1) st → (k < delta → strict (k + 1) st) →
  (¬ in_range (lrank q k) (k - 1) → ¬ in_range (rrank q k) (k + 1) →
   k = 0 ∧ es st !! k = None) →
  ∃ s0,
    start_script st k = _insert :: s0
    ∧ W s0 (0, 0) = Some (start_y st k - k, start_y st k)
    ∧ cost s0 ≤ q
    ∧ (k ≤ delta → start_y st k - k ≤ m)
    ∧ (delta ≤ k → start_y st k ≤ n).
Proof.
  intros Hq HL HLs HR HRs Hinit.
  assert (Hleft : ∀ yl sl,
    fp st !! (k - 1) = Some yl → es st !! (k - 1) = Some (_insert :: sl) →
    W sl (0, 0) = Some (yl - (k - 1), yl) → cost sl ≤ lrank q k →
    (k - 1 ≤ delta → yl - (k - 1) ≤ m) →
    default (-1) (fp st !! (k + 1)) < yl + 1 →
    ∃ s0, start_script st k = _insert :: s0
      ∧ W s0 (0, 0) = Some (start_y st k - k, start_y st k)
      ∧ cost s0 ≤ q
      ∧ (k ≤ delta → start_y st k - k ≤ m)
      ∧ (delta ≤ k → start_y st k ≤ n)).
  { intros yl sl Hf He Hw Hc Hb Hlt.
    destruct (start_from_left st k yl sl Hf He Hlt) as [-> ->].
    exists (sl ++ [_insert]). split; [done|]. split.
    { rewrite (walk_snoc_insert _ _ _ Hw). do 2 f_equal. lia. }
    split; [apply (cost_snoc_insert q k sl _ _ Hw); [lia|done]|].
    split; [lia|]. intros Hk. destruct (decide (k = delta)); [lia|].
    destruct (HLs ltac:(lia) yl Hf). lia. }
  assert (Hright : ∀ yr sr,
    fp st !! (k + 1) = Some yr → es st !! (k + 1) = Some (_insert :: sr) →
    W sr (0, 0) = Some (yr - (k + 1), yr) → cost sr ≤ rrank q k →
    (delta ≤ k + 1 → yr ≤ n) →
    default (-1) (fp st !! (k - 1)) + 1 ≤ yr →
    ∃ s0, start_script st k = _insert :: s0
      ∧ W s0 (0, 0) = Some (start_y st k - k, start_y st k)
      ∧ cost s0 ≤ q
      ∧ (k ≤ delta → start_y st k - k ≤ m)
      ∧ (delta ≤ k → start_y st k ≤ n)).
  { intros yr sr Hf He Hw Hc Hb Hle.
    destruct (start_from_right st k yr sr Hf He Hle) as [-> ->].
    exists (sr ++ [_delete]). split; [done|]. split.
    { rewrite (walk_snoc_delete _ _ _ Hw). do 2 f_equal. lia. }
    split; [apply (cost_snoc_delete q k sr _ _ Hw); [lia|done]|].
    split; [|lia]. intros Hk. destruct (decide (k = delta)); [lia|].
    destruct (HRs ltac:(lia) yr Hf). lia. }
  unfold cell in HL, HR. destruct (decide (in_range (lrank q k) (k - 1)))
    as [HLr|HLr], (decide (in_range (rrank q k) (k + 1))) as [HRr|HRr].
  - destruct HL as (yl & sl & Hfl & Hel & Hwl & Hcl & Hbl & _ & _).
    destruct HR as (yr & sr & Hfr & Her & Hwr & Hcr & _ & Hbr & _).
    destruct (Z.lt_ge_cases yr (yl + 1)).
    + apply (Hleft yl sl); try done. by rewrite Hfr.
    + apply (Hright yr sr); try done. rewrite Hfl. simpl. lia.
  - destruct HL as (yl & sl & Hfl & Hel & Hwl & Hcl & Hbl & _ & _).
    destruct HR as [Hfr Her]. apply (Hleft yl sl); try done.
    rewrite Hfr. simpl. apply walk_origin in Hwl. lia.
  - destruct HR as (yr & sr & Hfr & Her & Hwr & Hcr & _ & Hbr & _).
    destruct HL as [Hfl Hel]. apply (Hright yr sr); try done.
    rewrite Hfl. simpl. apply walk_origin in Hwr. lia.
  - destruct (Hinit HLr HRr) as [-> He].
    destruct (start_initial st 0 HL HR He) as [-> ->].
    exists []. split; [done|]. split; [done|].
    pose proof (len_nonneg a). pose proof (len_nonneg b).
    split; [|lia]. unfold cost. rewrite !count_nil. lia.
Qed.

(** A visit of the diagonal [k] in the turn [q] fills it in. *)
Lemma visit_new q k st :
  0 ≤ q →
  cell (lrank q k) (k - 1) st → (delta < k → strict (k - 1) st) →
  cell (rrank q k) (k + 1) st → (k < delta → strict (k + 1) st) →
  (¬ in_range (lrank q k) (k - 1) → ¬ in_range (rrank q k) (k + 1) →
   k = 0 ∧ es st !! k = None) →
  diag_data q k (Visit st k).
Proof.
  intros Hq HL HLs HR HRs Hinit.
  destruct (start_spec q k st Hq HL HLs HR HRs Hinit)
    as (s0 & Hs0 & Hw0 & Hc0 & Hbx & Hby).
  destruct (snake_tail q k s0 (start_y st k) Hw0 Hc0 Hbx Hby)
    as (y' & s & Hloop & Hw & Hc & Hbx' & Hby' & Hfur).
  { intros t x y. by apply cell_left_dominates. }
  { intros t x y. by apply cell_right_dominates. }
  destruct (visit_unfold st k) as [es2 ->]. rewrite Hs0, Hloop.
  exists y', s. simpl. by rewrite !lookup_insert_eq.
Qed.

(** *** The turns of the loop *)

Lemma Mid_ext p N N' st : (∀ k, N k = N' k) → Mid p N st → Mid p N' st.
Proof. intros HN H k. rewrite <- HN. apply H. Qed.

Lemma cell_out_of_range r r' k st :
  ¬ in_range r k → ¬ in_range r' k → cell r k st → cell r' k st.
Proof. intros H1 H2. unfold cell. by rewrite !decide_False by done. Qed.

Lemma undefined_strict k st : undefined k st → strict k st.
Proof. intros [Hf _] y Hy. congruence. Qed.

Lemma cell_same r k st st' :
  fp st' !! k = fp st !! k → es st' !! k = es st !! k →
  cell r k st → cell r k st'.
Proof.
  intros Hf He. unfold cell, diag_data, undefined. by rewrite Hf, He.
Qed.

Lemma strict_same k st st' :
  fp st' !! k = fp st !! k → strict k st → strict k st'.
Proof. intros Hf. unfold strict. by rewrite Hf. Qed.

Lemma visit_Mid p N k st :
  0 ≤ p → in_range p k → Mid p N st → N k = false →
  N (k - 1) = bool_decide (k ≤ delta) →
  N (k + 1) = bool_decide (delta ≤ k) →
  Mid p (λ k', bool_decide (k' = k) || N k') (Visit st k).
Proof.
  intros Hp Hr HM Hk HNl HNr k'. destruct (decide (k' = k)) as [->|Hne].
  - rewrite bool_decide_eq_true_2 by done. simpl.
    unfold cell. rewrite decide_True by done.
    pose proof (HM (k - 1)) as Hl. pose proof (HM (k + 1)) as Hrt.
    pose proof (HM k) as Hself. rewrite Hk in Hself.
    rewrite HNl in Hl. rewrite HNr in Hrt.
    unfold in_range in Hr.
    apply visit_new; [done|..].
    + unfold lrank. destruct (decide (k ≤ delta)).
      * by rewrite bool_decide_eq_true_2 in Hl by done.
      * rewrite bool_decide_eq_false_2 in Hl by done. apply Hl.
    + intros Hlt. rewrite bool_decide_eq_false_2 in Hl by lia. apply Hl.
    + unfold rrank. destruct (decide (delta ≤ k)).
      * by rewrite bool_decide_eq_true_2 in Hrt by done.
      * rewrite bool_decide_eq_false_2 in Hrt by done. apply Hrt.
    + intros Hlt. rewrite bool_decide_eq_false_2 in Hrt by lia. apply Hrt.
    + intros Hnl Hnr. unfold lrank, rrank, in_range in Hnl, Hnr.
      assert (p = 0 ∧ k = 0) as [-> ->] by (repeat case_decide; lia).
      split; [done|]. destruct Hself as [Hc _]. unfold cell in Hc.
      rewrite decide_False in Hc by (unfold in_range; lia). apply Hc.
  - rewrite bool_decide_eq_false_2 by done. simpl.
    destruct (visit_other st k k' Hne) as [Hf He].
    pose proof (HM k') as H. destruct (N k').
    + by apply (cell_same _ _ st).
    + destruct H. split; [by apply (cell_same _ _ st)|].
      by apply (strict_same _ st).
Qed.

Lemma lower_sweep p (c : nat) :
  0 ≤ p →
  ∀ j st, - p ≤ j → j + Z.of_nat c ≤ delta →
    Mid p (λ k, k <? j) st →
    Mid p (λ k, k <? j + Z.of_nat c) (foldl Visit st (seqZ j (Z.of_nat c))).
Proof.
  intros Hp. induction c as [|c IH]; intros j st Hj Hc HM.
  - simpl. rewrite Z.add_0_r. done.
  - rewrite seqZ_cons by lia. simpl.
    replace (Z.pred (Z.of_nat (S c))) with (Z.of_nat c) by lia.
    eapply Mid_ext; last first.
    + apply (IH (Z.succ j)); [lia|lia|].
      eapply Mid_ext; last first.
      * apply (visit_Mid p (λ k, k <? j) j st); try done.
        -- unfold in_range. lia.
        -- apply Z.ltb_irrefl.
        -- rewrite bool_decide_eq_true_2 by lia. apply Z.ltb_lt. lia.
        -- rewrite bool_decide_eq_false_2 by lia. apply Z.ltb_ge. lia.
      * intros k. simpl. case_bool_decide; simpl.
        -- subst. symmetry. apply Z.ltb_lt. lia.
        -- destruct (Z.ltb_spec k j), (Z.ltb_spec k (Z.succ j)); lia.
    + intros k. simpl.
      destruct (Z.ltb_spec k (Z.succ j + Z.of_nat c)),
        (Z.ltb_spec k (j + Z.of_nat (S c))); lia.
Qed.

Lemma upper_sweep p (c : nat) :
  0 ≤ p → Z.of_nat c ≤ p →
  ∀ st,
    Mid p (λ k, (k <? delta) || (delta + Z.of_nat c <? k)) st →
    Mid p (λ k, (k <? delta) || (delta <? k))
      (foldl Visit st (reverse (seqZ (delta + 1) (Z.of_nat c)))).
Proof.
  intros Hp. induction c as [|c IH]; intros Hc st HM.
  - simpl. eapply Mid_ext; [|done]. intros k. simpl.
    by rewrite Z.add_0_r.
  - rewrite seqZ_S, reverse_snoc. simpl. apply IH; [lia|].
    eapply Mid_ext; last first.
    + apply (visit_Mid p (λ k, (k <? delta) || (delta + Z.of_nat (S c) <? k))
               (delta + 1 + Z.of_nat c) st); try done.
      * unfold in_range. pose proof (len_nonneg a). lia.
      * simpl. apply orb_false_iff. split; [apply Z.ltb_ge|apply Z.ltb_ge];
          lia.
      * simpl. rewrite bool_decide_eq_false_2 by lia.
        apply orb_false_iff. split; [apply Z.ltb_ge|apply Z.ltb_ge]; lia.
      * simpl. rewrite bool_decide_eq_true_2 by lia.
        apply orb_true_iff. right. apply Z.ltb_lt. lia.
    + intros k. simpl. case_bool_decide; simpl.
      * subst. symmetry. apply orb_true_iff. right. apply Z.ltb_lt. lia.
      * destruct (Z.ltb_spec k delta); simpl; [done|].
        destruct (Z.ltb_spec (delta + Z.of_nat (S c)) k),
          (Z.ltb_spec (delta + Z.of_nat c) k); lia.
Qed.

Lemma round_Inv p st :
  0 ≤ p → Inv (p - 1) st → (∀ k, strict k st) → Inv p (Round p st).
Proof.
  intros Hp HI Hs. pose proof (len_nonneg a).
  assert (H0 : Mid p (λ k, k <? - p) st).
  { intros k. destruct (Z.ltb_spec k (- p)); [|done].
    apply (cell_out_of_range (p - 1)); [| |apply HI];
      unfold in_range; lia. }
  pose proof (lower_sweep p (Z.to_nat (delta + p)) Hp (- p) st
                ltac:(lia) ltac:(lia) H0) as H1.
  rewrite Z2Nat.id in H1 by lia.
  assert (H2 : Mid p (λ k, (k <? delta)
                           || (delta + Z.of_nat (Z.to_nat p) <? k))
                 (foldl Visit st (seqZ (- p) (delta + p)))).
  { intros k. pose proof (H1 k) as Hk. simpl in Hk.
    replace (- p + (delta + p)) with delta in Hk by lia.
    destruct (Z.ltb_spec k delta); simpl; [done|].
    destruct (Z.ltb_spec (delta + Z.of_nat (Z.to_nat p)) k); [|done].
    destruct Hk as [Hk _].
    apply (cell_out_of_range (p - 1)); [| |done]; unfold in_range; lia. }
  apply upper_sweep in H2; [|done|lia]. rewrite Z2Nat.id in H2 by lia.
  assert (H3 : Mid p (λ k', bool_decide (k' = delta)
                            || ((k' <? delta) || (delta <? k')))
                 (Visit (foldl Visit (foldl Visit st (seqZ (- p) (delta + p)))
                           (reverse (seqZ (delta + 1) p))) delta)).
  { apply visit_Mid; [done|unfold in_range; lia|exact H2|..].
    - by rewrite Z.ltb_irrefl.
    - rewrite bool_decide_eq_true_2 by lia.
      apply orb_true_iff. left. apply Z.ltb_lt. lia.
    - rewrite bool_decide_eq_true_2 by lia.
      apply orb_true_iff. right. apply Z.ltb_lt. lia. }
  intros k. unfold round. cbv zeta. specialize (H3 k).
  simpl in H3.
  destruct (decide (k = delta)) as [->|].
  - by rewrite bool_decide_eq_true_2 in H3 by done.
  - rewrite bool_decide_eq_false_2 in H3 by done. simpl in H3.
    destruct (Z.ltb_spec k delta), (Z.ltb_spec delta k); simpl in H3;
      try done; lia.
Qed.

Lemma walk_app_insert s x y c :
  0 ≤ c → W s (0, 0) = Some (x, y) →
  W (s ++ fill c _insert) (0, 0) = Some (x, y + c).
Proof.
  intros Hc Hw. rewrite walk_app, Hw. simpl.
  apply walk_fill_ins; [apply insert_not_equal | done].
Qed.

Lemma walk_app_delete s x y c :
  0 ≤ c → W s (0, 0) = Some (x, y) →
  W (s ++ fill c _delete) (0, 0) = Some (x + c, y).
Proof.
  intros Hc Hw. rewrite walk_app, Hw. simpl.
  apply walk_fill_del; [apply delete_not_equal | | done].
  intros E. symmetry in E. by apply insert_not_delete.
Qed.

Lemma count_app_insert s c :
  0 ≤ c →
  count _insert (s ++ fill c _insert) = count _insert s + c
  ∧ count _delete (s ++ fill c _insert) = count _delete s.
Proof.
  intros Hc. rewrite !count_app, !count_fill by done.
  pose proof insert_not_delete. repeat case_decide; try congruence; lia.
Qed.

Lemma count_app_delete s c :
  0 ≤ c →
  count _insert (s ++ fill c _delete) = count _insert s
  ∧ count _delete (s ++ fill c _delete) = count _delete s + c.
Proof.
  intros Hc. rewrite !count_app, !count_fill by done.
  pose proof insert_not_delete. repeat case_decide; try congruence; lia.
Qed.

Lemma Inv_delta p st :
  0 ≤ p → Inv p st → diag_data p delta st.
Proof.
  intros Hp HI. pose proof (HI delta) as H. unfold cell in H.
  rewrite decide_True in H; [done|]. unfold in_range. lia.
Qed.

(** When the loop goes on after a turn, every point it has reached lies
    strictly inside the graph. *)
Lemma Inv_strict p st :
  0 ≤ p → Inv p st → fp st !! delta ≠ Some n → ∀ k, strict k st.
Proof.
  intros Hp HI Hne k.
  destruct (Inv_delta p st Hp HI)
    as (yd & sd & Hfd & _ & _ & _ & _ & Hbd & Hfur).
  assert (yd < n) as Hyd.
  { specialize (Hbd ltac:(lia)).
    destruct (decide (yd = n)); [congruence | lia]. }
  pose proof (HI k) as Hk. unfold cell in Hk. case_decide as Hr;
    [|by apply undefined_strict].
  destruct Hk as (y & s & Hf & _ & Hw & Hc & _ & _ & _).
  intros y' Hy'. rewrite Hf in Hy'. injection Hy' as <-.
  pose proof (walk_origin _ _ _ Hw) as (_ & _ & Hd). split; intros Hle.
  - pose proof (walk_app_insert s _ _ (delta - k) ltac:(lia) Hw) as Hw'.
    destruct (count_app_insert s (delta - k) ltac:(lia)) as [Hi Hdl].
    pose proof (Hfur _ _ _ Hw' ltac:(lia)) as Hle'.
    unfold cost in Hle', Hc. rewrite Hi, Hdl in Hle'. lia.
  - pose proof (walk_app_delete s _ _ (k - delta) ltac:(lia) Hw) as Hw'.
    destruct (count_app_delete s (k - delta) ltac:(lia)) as [Hi Hdl].
    pose proof (Hfur _ _ _ Hw' ltac:(lia)) as Hle'.
    unfold cost in Hle', Hc. rewrite Hi, Hdl in Hle'. lia.
Qed.

(** The turn [p] gets the diagonal [delta] at least [p] steps on. *)
Lemma Inv_progress p st :
  0 ≤ p → Inv p st →
  ∃ yd, fp st !! delta = Some yd ∧ delta + p ≤ yd ≤ n.
Proof.
  intros Hp HI. pose proof (len_nonneg a).
  destruct (Inv_delta p st Hp HI)
    as (yd & sd & Hfd & _ & _ & _ & _ & Hbd & Hfur).
  exists yd. split; [done|]. split; [|apply Hbd; lia].
  assert (Hw0 : W [] (0, 0) = Some (0, 0)) by done.
  pose proof (walk_app_delete [] _ _ p Hp Hw0) as Hw1.
  pose proof (walk_app_insert _ _ _ (delta + p) ltac:(lia) Hw1) as Hw2.
  destruct (count_app_delete [] p Hp) as [Hi1 Hd1].
  destruct (count_app_insert ([] ++ fill p _delete) (delta + p)
              ltac:(lia)) as [Hi2 Hd2].
  rewrite count_nil in *.
  pose proof (Hfur _ _ _ Hw2 ltac:(lia)) as Hle.
  unfold cost in Hle. rewrite Hi2, Hd2, Hi1, Hd1 in Hle. lia.
Qed.

Lemma Inv_initial : Inv (-1) initial_search.
Proof.
  intros k. unfold cell. rewrite decide_False by (unfold in_range; lia).
  split; apply lookup_empty.
Qed.

Lemma strict_initial k : strict k initial_search.
Proof. apply undefined_strict. split; apply lookup_empty. Qed.

(** The loop ends, given one turn more than [a] has elements, and the
    script it ends with is, behind its first token, a path to the far
    corner of the least cost. *)
Lemma search_spec (fuel : nat) :
  ∀ p st,
    0 ≤ p → Inv (p - 1) st → (∀ k, strict k st) →
    (∀ s', W s' (0, 0) = Some (m, n) → p ≤ cost s') →
    m < p + Z.of_nat fuel →
    ∃ st' s,
      Search fuel p st = Some st'
      ∧ es st' !! delta = Some (_insert :: s)
      ∧ W s (0, 0) = Some (m, n)
      ∧ ∀ s', W s' (0, 0) = Some (m, n) → cost s ≤ cost s'.
Proof.
  induction fuel as [|fuel IH]; intros p st Hp HI Hs Hmin Hfuel.
  - exfalso. destruct (decide (p = 0)) as [->|].
    { pose proof (len_nonneg a). lia. }
    destruct (Inv_progress (p - 1) st ltac:(lia) HI) as (yd & Hfd & Hyd).
    destruct (Hs delta yd Hfd) as [_ Hlt]. lia.
  - simpl. pose proof (round_Inv p st Hp HI Hs) as HI'.
    destruct (Inv_delta p _ Hp HI')
      as (yd & sd & Hfd & Hed & Hwd & Hcd & _ & _ & Hfur).
    case_bool_decide as Hend.
    + exists (Round p st), sd. rewrite Hfd in Hend. injection Hend as ->.
      split; [done|]. split; [done|]. split.
      { rewrite Hwd. do 2 f_equal. lia. }
      intros s' Hs'. pose proof (Hmin s' Hs'). lia.
    + apply (IH (p + 1)); [lia| |by apply (Inv_strict p)| |lia].
      { by replace (p + 1 - 1) with p by lia. }
      intros s' Hs'. destruct (Z.le_gt_cases (p + 1) (cost s')); [done|].
      exfalso. pose proof (Hfur _ _ _ Hs' ltac:(lia) ltac:(lia)).
      destruct (Inv_progress p _ Hp HI') as (yd' & Hfd' & Hyd').
      rewrite Hfd in Hfd'. injection Hfd' as <-.
      apply Hend. rewrite Hfd. f_equal. lia.
Qed.

Lemma search_script :
  ∀ fuel, m < Z.of_nat fuel →
    ∃ st' s,
      Search fuel 0 initial_search = Some st'
      ∧ es st' !! delta = Some (_insert :: s)
      ∧ search_result a b st' = Some s
      ∧ W s (0, 0) = Some (m, n)
      ∧ ∀ s', W s' (0, 0) = Some (m, n) → cost s ≤ cost s'.
Proof.
  intros fuel Hfuel.
  destruct (search_spec fuel 0 initial_search ltac:(done) Inv_initial
              strict_initial) as (st' & s & Hsearch & Hes & Hw & Hmin).
  { intros s' _. apply cost_nonneg. }
  { lia. }
  exists st', s. repeat split; try done.
  unfold search_result. cbv zeta. rewrite Hes. simpl.
  by rewrite slice_from_nonneg.
Qed.

(** The number of turns: the loop ends in the turn whose number is the
    cost of the script it returns, whatever number of turns it is
    given. *)
Lemma search_rounds (fuel : nat) :
  ∀ p st,
    0 ≤ p → Inv (p - 1) st → (∀ k, strict k st) →
    (∀ s', W s' (0, 0) = Some (m, n) → p ≤ cost s') →
    m < p + Z.of_nat fuel →
    ∃ st' s,
      es st' !! delta = Some (_insert :: s)
      ∧ W s (0, 0) = Some (m, n)
      ∧ p ≤ cost s
      ∧ ∀ fuel' : nat,
          Search fuel' p st
          = if decide (cost s < p + Z.of_nat fuel') then Some st' else None.
Proof.
  induction fuel as [|fuel IH]; intros p st Hp HI Hs Hmin Hfuel.
  - exfalso. destruct (decide (p = 0)) as [->|].
    { pose proof (len_nonneg a). lia. }
    destruct (Inv_progress (p - 1) st ltac:(lia) HI) as (yd & Hfd & Hyd).
    destruct (Hs delta yd Hfd) as [_ Hlt]. lia.
  - pose proof (round_Inv p st Hp HI Hs) as HI'.
    destruct (Inv_delta p _ Hp HI')
      as (yd & sd & Hfd & Hed & Hwd & Hcd & _ & _ & Hfur).
    destruct (decide (fp (Round p st) !! delta = Some n)) as [Hend|Hend].
    + assert (Hwd' : W sd (0, 0) = Some (m, n)).
      { rewrite Hfd in Hend. injection Hend as ->. rewrite Hwd.
        do 2 f_equal. lia. }
      pose proof (Hmin sd Hwd').
      exists (Round p st), sd. split; [done|]. split; [done|].
      split; [done|]. intros [|fuel']; simpl.
      * rewrite decide_False by lia. done.
      * rewrite bool_decide_eq_true_2 by done.
        rewrite decide_True by lia. done.
    + destruct (IH (p + 1) (Round p st)) as (st' & s & Hes & Hw & Hps & Hall);
        [lia| |by apply (Inv_strict p)| |lia|].
      { by replace (p + 1 - 1) with p by lia. }
      { intros s' Hs'. destruct (Z.le_gt_cases (p + 1) (cost s')); [done|].
        exfalso. pose proof (Hfur _ _ _ Hs' ltac:(lia) ltac:(lia)).
        destruct (Inv_progress p _ Hp HI') as (yd' & Hfd' & Hyd').
        rewrite Hfd in Hfd'. injection Hfd' as <-.
        apply Hend. rewrite Hfd. f_equal. lia. }
      exists st', s. split; [done|]. split; [done|]. split; [lia|].
      intros [|fuel']; simpl.
      * rewrite decide_False by lia. done.
      * rewrite bool_decide_eq_false_2 by done. rewrite Hall.
        destruct (decide (cost s < p + 1 + Z.of_nat fuel')),
          (decide (cost s < p + Z.of_nat (S fuel'))); try done; lia.
Qed.

Lemma search_rounds_initial :
  ∃ st' s,
    search_result a b st' = Some s
    ∧ W s (0, 0) = Some (m, n)
    ∧ ∀ fuel : nat,
        Search fuel 0 initial_search
        = if decide (cost s < Z.of_nat fuel) then Some st' else None.
Proof.
  destruct (search_rounds (S (Z.to_nat m)) 0 initial_search ltac:(done)
              Inv_initial strict_initial) as (st' & s & Hes & Hw & _ & Hall).
  { intros s' _. apply cost_nonneg. }
  { pose proof (len_nonneg a). lia. }
  exists st', s. split.
  { unfold search_result. cbv zeta. rewrite Hes. simpl.
    by rewrite slice_from_nonneg. }
  split; [done|]. intros fuel. rewrite Hall.
  destruct (decide (cost s < 0 + Z.of_nat fuel)),
    (decide (cost s < Z.of_nat fuel)); try done; lia.
Qed.

(** On the paths to the far corner the cost counts the edit tokens. *)
Lemma edits_corner s :
  W s (0, 0) = Some (m, n) → edits s = delta + 2 * cost s.
Proof.
  intros Hw. apply walk_origin in Hw as (_ & _ & Hd).
  unfold edits, cost. destruct labels as [[-> ->]|[-> ->]]; lia.
Qed.
End search_correct.

(** ** [diff] on the inputs it searches itself *)

Lemma walk_ext a b cmp cmp' ins s :
  (∀ u v, cmp u v = cmp' u v) →
  ∀ pos, walk a b cmp ins s pos = walk a b cmp' ins s pos.
Proof.
  intros Hext. induction s as [|t s IH]; intros pos; simpl; [done|].
  unfold walk_step. rewrite Hext.
  repeat case_decide; repeat case_match; simpl; by rewrite ?IH.
Qed.

(** A path of the swapped search is a path of the graph of [a] and [b],
    with the coordinates exchanged. *)
Lemma walk_swap a b cmp s :
  ∀ x y,
    walk b a cmp Delete s (x, y)
    = (λ pos : Z * Z, (pos.2, pos.1))
        <$> walk a b (λ u v, cmp v u) Insert s (y, x).
Proof.
  induction s as [|t s IH]; intros x y; simpl; [done|].
  unfold walk_step. simpl.
  rewrite (andb_comm (x <? len b) (y <? len a)).
  destruct t; repeat case_decide; try done; simpl; try apply IH.
  destruct ((y <? len a) && (x <? len b) && cmp (get b x) (get a y));
    simpl; [apply IH | done].
Qed.

Lemma diff_fuel_script fuel a b cmp :
  exceeds_thresholds (len a) (len b) = false →
  Z.min (len a) (len b) < Z.of_nat fuel →
  ∃ s,
    diff_fuel fuel a b cmp = Some s
    ∧ walk a b (oriented cmp a b) Insert s (0, 0) = Some (len a, len b)
    ∧ ∀ s', walk a b (oriented cmp a b) Insert s' (0, 0)
            = Some (len a, len b) →
            edits s ≤ edits s'.
Proof.
  intros Hsmall Hfuel. unfold diff_fuel, oriented. cbv zeta. rewrite Hsmall.
  destruct (Z.ltb_spec (len b) (len a)) as [Hlt|Hge].
  - destruct (search_script b a cmp Delete Insert ltac:(by right)
                ltac:(lia) fuel ltac:(lia))
      as (st' & s & -> & _ & Hres & Hw & Hmin).
    exists s. simpl. split; [done|].
    rewrite walk_swap in Hw.
    destruct (walk a b (λ u v, cmp v u) Insert s (0, 0)) as [[x y]|] eqn:E;
      [|done].
    simpl in Hw. injection Hw as -> ->. split; [done|].
    intros s' Hs'.
    assert (Hw' : walk b a cmp Delete s' (0, 0) = Some (len b, len a)).
    { by rewrite walk_swap, Hs'. }
    assert (Hw : walk b a cmp Delete s (0, 0) = Some (len b, len a)).
    { by rewrite walk_swap, E. }
    pose proof (Hmin s' Hw').
    rewrite (edits_corner b a cmp Delete Insert ltac:(by right) s Hw).
    rewrite (edits_corner b a cmp Delete Insert ltac:(by right) s' Hw').
    lia.
  - destruct (search_script a b cmp Insert Delete ltac:(by left)
                ltac:(lia) fuel ltac:(lia))
      as (st' & s & -> & _ & Hres & Hw & Hmin).
    exists s. simpl. split; [done|]. split; [done|].
    intros s' Hs'. pose proof (Hmin s' Hs').
    rewrite (edits_corner a b cmp Insert Delete ltac:(by left) s Hw).
    rewrite (edits_corner a b cmp Insert Delete ltac:(by left) s' Hs').
    lia.
Qed.

Lemma min_fuel {A} (a b : list A) :
  Z.min (len a) (len b) < Z.of_nat (S (Nat.min (length a) (length b))).
Proof. unfold len. lia. Qed.

(** [diff] returns: on every input the loop ends within the turns the
    model gives it, and more turns change nothing. *)
Lemma diff_total a b cmp : is_Some (diff a b cmp).
Proof.
  unfold diff, diff_fuel. cbv zeta.
  destruct (exceeds_thresholds (len a) (len b)) eqn:E; [done|].
  destruct (diff_fuel_script (S (Nat.min (length a) (length b))) a b cmp E
              (min_fuel a b)) as (s & Hs & _).
  unfold diff_fuel in Hs. cbv zeta in Hs. rewrite E in Hs. by rewrite Hs.
Qed.

Lemma search_fuel_mono a b cmp i d fuel :
  ∀ p st st', search a b cmp i d fuel p st = Some st' →
              ∀ fuel', (fuel ≤ fuel')%nat →
                       search a b cmp i d fuel' p st = Some st'.
Proof.
  induction fuel as [|fuel IH]; intros p st st' H fuel' Hle; [done|].
  destruct fuel' as [|fuel']; [lia|]. simpl in *.
  case_bool_decide; [done|]. apply (IH _ _ _ H). lia.
Qed.

Lemma diff_fuel_mono fuel fuel' a b cmp s :
  diff_fuel fuel a b cmp = Some s → (fuel ≤ fuel')%nat →
  diff_fuel fuel' a b cmp = Some s.
Proof.
  unfold diff_fuel. cbv zeta. intros H Hle.
  destruct (exceeds_thresholds (len a) (len b)); [done|].
  destruct (len b <? len a).
  - destruct (search b a cmp Delete Insert fuel 0 initial_search)
      as [st'|] eqn:E; [|done].
    by rewrite (search_fuel_mono _ _ _ _ _ _ _ _ _ E fuel' Hle).
  - destruct (search a b cmp Insert Delete fuel 0 initial_search)
      as [st'|] eqn:E; [|done].
    by rewrite (search_fuel_mono _ _ _ _ _ _ _ _ _ E fuel' Hle).
Qed.

(** Whatever the size of the inputs, the stream of [diff] is a path from
    the origin to the far corner of the edit graph. *)
Lemma diff_walk a b cmp :
  ∃ s, diff a b cmp = Some s
       ∧ walk a b
           (if exceeds_thresholds (len a) (len b) then cmp
            else oriented cmp a b) Insert s (0, 0) = Some (len a, len b).
Proof.
  destruct (exceeds_thresholds (len a) (len b)) eqn:E.
  - exists (fastDiff a b cmp true). split; [|apply fastDiff_walk].
    unfold diff, diff_fuel. cbv zeta. by rewrite E.
  - destruct (diff_fuel_script _ a b cmp E (min_fuel a b)) as (s & Hs & Hw & _).
    by exists s.
Qed.

Lemma oriented_sound cmp a b : sound cmp → sound (oriented cmp a b).
Proof.
  intros H u v. unfold oriented. destruct (len b <? len a); [|apply H].
  intros Hc. symmetry. by apply H.
Qed.

(** The patch computed from the stream of [diff] turns [a] into [b], for
    every comparator that accepts identical values only. *)
Lemma diff_round_trip a b cmp :
  sound cmp →
  ∃ s, diff a b cmp = Some s ∧ applyChanges a (diffToChanges s b) = b.
Proof.
  intros Hcmp. destruct (diff_walk a b cmp) as (s & Hs & Hw).
  exists s. split; [done|].
  eapply diffToChanges_applyChanges; [|exact Hw].
  destruct (exceeds_thresholds _ _); [done | by apply oriented_sound].
Qed.

(** ** Scripts as lists and as paths *)

(** Applying a stream to [a] gives [b] exactly when the stream is a path
    from the origin to the far corner of the edit graph in which an equal
    token may stand wherever the two elements are identical. *)
Lemma run_script_walk a b s :
  ∀ x y, 0 ≤ x ≤ len a → 0 ≤ y ≤ len b →
    run_script s (drop (Z.to_nat x) a) (drop (Z.to_nat y) b)
    = Some (drop (Z.to_nat y) b)
    ↔ walk a b same_value Insert s (x, y) = Some (len a, len b).
Proof.
  induction s as [|t s IH]; intros x y Hx Hy.
  - simpl. destruct (decide (x = len a)) as [->|Hxa].
    + unfold len at 1. rewrite Nat2Z.id, drop_all.
      destruct (decide (y = len b)) as [->|Hyb].
      * unfold len at 1. by rewrite Nat2Z.id, drop_all.
      * rewrite (drop_cons_get b y) by lia. split; [done|].
        intros H. injection H as ->. done.
    + rewrite (drop_cons_get a x) by lia. split; [done|].
      intros H. injection H as -> _. done.
  - destruct t; simpl; unfold walk_step; simpl.
    + (* equal *)
      destruct (Z.ltb_spec x (len a)) as [Hxa|Hxa]; simpl.
      * rewrite (drop_cons_get a x) by lia.
        destruct (Z.ltb_spec y (len b)) as [Hyb|Hyb]; simpl.
        -- rewrite (drop_cons_get b y) by lia. simpl.
           unfold same_value. case_bool_decide as Heq; simpl.
           ++ rewrite <- IH by lia. rewrite Heq.
              destruct (run_script s _ _); simpl; split; intros ?; congruence.
           ++ destruct (run_script s _ _); simpl; split; intros ?; congruence.
        -- unfold len in *. rewrite (drop_ge b) by lia. simpl.
           destruct (run_script s _ _); simpl; split; intros ?; congruence.
      * unfold len in *. by rewrite (drop_ge a) by lia.
    + (* insert *)
      destruct (Z.lt_ge_cases y (len b)) as [Hyb|Hyb].
      * rewrite (drop_cons_get b y) by lia. rewrite <- IH by lia.
        destruct (run_script s _ _); simpl; split; intros ?; congruence.
      * rewrite (drop_ge b) by (unfold len in *; lia). split; [done|].
        intros H. apply walk_mono in H. simpl in H. lia.
    + (* delete *)
      destruct (Z.lt_ge_cases x (len a)) as [Hxa|Hxa].
      * rewrite (drop_cons_get a x) by lia. by rewrite <- IH by lia.
      * rewrite (drop_ge a) by (unfold len in *; lia). split; [done|].
        intros H. apply walk_mono in H. simpl in H. lia.
Qed.

Lemma run_script_path a b s :
  run_script s a b = Some b
  ↔ walk a b same_value Insert s (0, 0) = Some (len a, len b).
Proof.
  pose proof (len_nonneg a). pose proof (len_nonneg b).
  by rewrite <- (run_script_walk a b s 0 0) by lia.
Qed.

Lemma oriented_strict_eq a b u v : oriented strict_eq a b u v = strict_eq u v.
Proof.
  unfold oriented. destruct (len b <? len a); [|done]. apply strict_eq_sym.
Qed.

(** A path stays a path when the comparator accepts more. *)
Lemma walk_weaken a b cmp cmp' ins s :
  (∀ u v, cmp u v = true → cmp' u v = true) →
  ∀ pos pos', walk a b cmp ins s pos = Some pos' →
              walk a b cmp' ins s pos = Some pos'.
Proof.
  intros Hle. induction s as [|t s IH]; intros pos pos'; simpl; [done|].
  unfold walk_step. case_decide.
  - destruct ((pos.1 <? len a) && (pos.2 <? len b)); simpl; [|done].
    destruct (cmp (get a pos.1) (get b pos.2)) eqn:E; [|done].
    rewrite (Hle _ _ E). simpl. apply IH.
  - case_decide; simpl; apply IH.
Qed.

(** Two comparators that agree on the pairs of an element of [a] and an
    element of [b] have the same paths. *)
Lemma walk_ext_range a b cmp cmp' ins s :
  (∀ u v, u ∈ a → v ∈ b → cmp u v = cmp' u v) →
  ∀ pos, 0 ≤ pos.1 → 0 ≤ pos.2 →
         walk a b cmp ins s pos = walk a b cmp' ins s pos.
Proof.
  intros Hext. induction s as [|t s IH]; intros [x y] Hx Hy; simpl in *;
    [done|].
  unfold walk_step. simpl. case_decide.
  - destruct (Z.ltb_spec x (len a)); simpl; [|done].
    destruct (Z.ltb_spec y (len b)); simpl; [|done].
    rewrite (Hext (get a x) (get b y)) by (apply get_elem_of; lia).
    destruct (cmp' (get a x) (get b y)); simpl; [|done].
    apply IH; simpl; lia.
  - case_decide; simpl; apply IH; simpl; lia.
Qed.

(** On arrays one of which holds no [NaN], the paths of [===] are the
    scripts that turn [a] into [b]. *)
Lemma walk_strict_eq_same_value a b s :
  VNaN ∉ a ∨ VNaN ∉ b →
  walk a b strict_eq Insert s (0, 0) = walk a b same_value Insert s (0, 0).
Proof.
  intros Hnan. apply walk_ext_range; [|done|done].
  intros u v Hu Hv. apply strict_eq_same_value.
  destruct Hnan as [Hn|Hn]; [left|right]; intros ->; done.
Qed.

(** A path of [===] is a script that turns [a] into [b]. *)
Lemma run_script_strict_eq a b s :
  walk a b strict_eq Insert s (0, 0) = Some (len a, len b) →
  run_script s a b = Some b.
Proof.
  intros Hw. apply run_script_path. revert Hw. apply walk_weaken.
  intros u v H. apply bool_decide_eq_true. by apply strict_eq_sound.
Qed.

(** ** Streams of equal markers *)

Lemma diffToChanges_equal c output :
  0 ≤ c → diffToChanges (fill c Equal) output = [].
Proof.
  intros Hc. unfold diffToChanges.
  assert (∀ i, foldl (diffToChanges_step output) (mkCompactor [] i None)
                 (fill c Equal) = mkCompactor [] (i + c) None) as ->.
  { pattern c. apply natlike_ind; [| |done].
    - intros i. simpl. by rewrite Z.add_0_r.
    - clear c Hc. intros c Hc IH i. unfold Z.succ.
      rewrite fill_succ by done. simpl. unfold pushLast. simpl.
      rewrite IH. f_equal. lia. }
  done.
Qed.

Lemma edits_zero_fill s : edits s = 0 → s = fill (len s) Equal.
Proof.
  unfold edits. induction s as [|t s IH]; intros H; [done|].
  rewrite !count_cons in H. pose proof (count_nonneg Insert s).
  pose proof (count_nonneg Delete s). pose proof (len_nonneg s).
  destruct t; repeat case_decide; try done; try lia.
  rewrite len_cons, Z.add_comm, fill_succ by done. f_equal. apply IH. lia.
Qed.

(** Two copies of one array on which [cmp] accepts every element paired
    with itself: the search gives the stream of equal markers. *)
Lemma diff_same_small a cmp :
  exceeds_thresholds (len a) (len a) = false →
  (∀ j, 0 ≤ j < len a → cmp (get a j) (get a j) = true) →
  diff a a cmp = Some (fill (len a) Equal).
Proof.
  intros Hsmall Hrefl. pose proof (len_nonneg a).
  destruct (diff_fuel_script _ a a cmp Hsmall (min_fuel a a))
    as (s & Hs & Hw & Hmin).
  unfold oriented in Hw, Hmin. rewrite Z.ltb_irrefl in Hw, Hmin.
  assert (Heq : walk a a cmp Insert (fill (len a) Equal) (0, 0)
                = Some (len a, len a)).
  { rewrite walk_fill_equal; [done|done|]. intros j Hj. simpl.
    split; [lia|]. split; [lia|]. by apply Hrefl. }
  pose proof (Hmin _ Heq) as Hle. unfold edits in Hle.
  rewrite !count_fill in Hle by done. simpl in Hle.
  pose proof (count_nonneg Insert s). pose proof (count_nonneg Delete s).
  pose proof (walk_diag a a cmp Insert Delete s ltac:(done) ltac:(done)
                ltac:(done) ltac:(intros []; auto) _ _ Hw) as [Hx _].
  simpl in Hx. pose proof (count_total s).
  unfold diff. rewrite Hs. f_equal.
  rewrite (edits_zero_fill s) by (unfold edits; lia). f_equal. lia.
Qed.

(** The boundary scan of two copies of an array without [undefined] on
    which [cmp] accepts every element paired with itself. *)
Lemma findFirstDifferenceIndex_same a cmp :
  (∀ j, 0 ≤ j < len a →
        get a j ≠ VUndefined ∧ cmp (get a j) (get a j) = true) →
  findFirstDifferenceIndex a a cmp = -1.
Proof.
  intros Hall. pose proof (findFirstDifferenceIndex_spec a a cmp) as H.
  simpl in H. destruct H as [(? & _)|(H0 & _ & _ & Hmax & _ & Hstop)];
    [done|].
  exfalso. destruct (Hall (findFirstDifferenceIndex a a cmp) ltac:(lia))
    as [Hd Hc].
  unfold agree in Hstop. apply is_undefined_false in Hd.
  by rewrite Hd, Hc in Hstop.
Qed.

Lemma diff_same_large a cmp :
  exceeds_thresholds (len a) (len a) = true →
  (∀ j, 0 ≤ j < len a →
        get a j ≠ VUndefined ∧ cmp (get a j) (get a j) = true) →
  diff a a cmp = Some (fill (len a) Equal).
Proof.
  intros Hlarge Hall. unfold diff, diff_fuel. cbv zeta. rewrite Hlarge.
  unfold fastDiff, findChangeBoundaryIndexes.
  rewrite (findFirstDifferenceIndex_same a cmp Hall). done.
Qed.


Lemma round_trip_aux a b :
  ∃ patch, getChanges a b = Some patch ∧ applyChanges a patch = b.
Proof.
  destruct (diff_round_trip a b strict_eq strict_eq_sound) as (d & Hd & Hrt).
  exists (diffToChanges d b). unfold getChanges. by rewrite Hd.
Qed.

(** ** The editing loop *)

(** The test of [applyLocalChanges] cannot fail: the scratch copy is the
    snapshot, so every pending keystroke ends in a message and in a shadow
    copy equal to the snapshot. *)
Lemma applyLocalChanges_commits c :
  keypressed c = true →
  ∃ patch,
    getChanges (syncValue c) (of_string (editor c)) = Some patch
    ∧ applyLocalChanges c
      = Some (mkClient (of_string (editor c)) false (editor c)
                (emitted c ++ [patch])).
Proof.
  intros Hk. destruct (round_trip_aux (syncValue c) (of_string (editor c)))
    as (patch & Hp & Hrt).
  exists patch. split; [done|]. unfold applyLocalChanges.
  rewrite Hk, Hp. simpl. rewrite Hrt.
  by rewrite bool_decide_eq_true_2 by done.
Qed.

Lemma valid_script_length a b cmp s :
  walk a b cmp Insert s (0, 0) = Some (len a, len b) →
  2 * len s = len a + len b + edits s.
Proof.
  intros Hw.
  pose proof (walk_diag a b _ Insert Delete s ltac:(done) ltac:(done)
                ltac:(done) ltac:(intros []; auto) _ _ Hw) as [Hx Hy].
  simpl in Hx, Hy. pose proof (count_total s). unfold edits. lia.
Qed.

(** ** The index a delete operation carries *)

Lemma diffToChanges_step_index output c t :
  index (diffToChanges_step output c t)
  = index c + (if decide (t = Delete) then 0 else 1).
Proof.
  destruct t; simpl; unfold pushLast;
    repeat case_match; simpl; simplify_eq; lia.
Qed.

Lemma diffToChanges_index output s :
  ∀ c, index (foldl (diffToChanges_step output) c s)
       = index c + count Equal s + count Insert s.
Proof.
  induction s as [|t s IH]; intros c; simpl.
  - rewrite !count_nil. lia.
  - rewrite IH, diffToChanges_step_index, !count_cons.
    destruct t; repeat case_decide; try done; lia.
Qed.

Lemma pending_delete_foldl output s c :
  last s ≠ Some Delete → pending_delete c = false →
  pending_delete (foldl (diffToChanges_step output) c s) = false.
Proof.
  destruct s as [|t s _] using rev_ind; [done|].
  rewrite last_snoc, foldl_app. intros Ht _. simpl.
  set (c' := foldl (diffToChanges_step output) c s).
  unfold pending_delete. destruct t; [| |done]; simpl.
  - by rewrite pushLast_lastOperation.
  - by destruct (lastOperation c') as [[? ?|? ?]|].
Qed.

Lemma delete_run_continue output chs idx i k h :
  0 ≤ h →
  foldl (diffToChanges_step output)
    (mkCompactor chs idx (Some (CDelete i k))) (fill h Delete)
  = mkCompactor chs idx (Some (CDelete i (k + h))).
Proof.
  intros Hh. revert k. pattern h. apply natlike_ind; [| |done].
  - intros k. simpl. by rewrite Z.add_0_r.
  - clear h Hh. intros h Hh IH k. unfold Z.succ.
    rewrite fill_succ by done. simpl. rewrite IH. do 3 f_equal. lia.
Qed.

Lemma delete_run output c h :
  pending_delete c = false → 0 < h →
  foldl (diffToChanges_step output) c (fill h Delete)
  = mkCompactor (changes (pushLast c)) (index c)
      (Some (CDelete (index c) h)).
Proof.
  intros Hc Hh. replace h with (h - 1 + 1) at 1 by lia.
  rewrite fill_succ by lia. unfold pending_delete in Hc.
  change (foldl (diffToChanges_step output)
            (diffToChanges_step output c Delete) (fill (h - 1) Delete)
          = mkCompactor (changes (pushLast c)) (index c)
              (Some (CDelete (index c) h))).
  assert (diffToChanges_step output c Delete
          = mkCompactor (changes (pushLast c)) (index c)
              (Some (CDelete (index c) 1))) as ->.
  { simpl. unfold pushLast. repeat case_match; simplify_eq; done. }
  rewrite delete_run_continue by lia. do 3 f_equal. lia.
Qed.

Lemma diffToChanges_delete_run pre h output :
  last pre ≠ Some Delete → 0 < h →
  diffToChanges (pre ++ fill h Delete) output
  = diffToChanges pre output
    ++ [CDelete (count Equal pre + count Insert pre) h].
Proof.
  intros Hlast Hh. unfold diffToChanges. rewrite foldl_app.
  rewrite delete_run;
    [|by apply pending_delete_foldl|done].
  unfold pushLast at 1. simpl. rewrite diffToChanges_index. simpl.
  done.
Qed.

(** ** Identical inputs *)

(** The elements of an array that is its own counterpart under [===]. *)
Lemma strict_eq_all_defined (A : list value) :
  VUndefined ∉ A → VNaN ∉ A →
  ∀ j, 0 ≤ j < len A →
       get A j ≠ VUndefined ∧ strict_eq (get A j) (get A j) = true.
Proof.
  intros Hnot Hnan j Hj.
  split; [|apply strict_eq_refl]; intros E; [apply Hnot | apply Hnan];
    rewrite <- E; by apply get_elem_of.
Qed.

Lemma diff_same (A : list value) :
  exceeds_thresholds (len A) (len A) = false ∨ VUndefined ∉ A →
  VNaN ∉ A →
  diff A A strict_eq = Some (fill (len A) Equal).
Proof.
  intros H Hnan. destruct (exceeds_thresholds (len A) (len A)) eqn:E.
  - destruct H as [?|Hnot]; [done|].
    apply diff_same_large; [done|]. by apply strict_eq_all_defined.
  - apply diff_same_small; [done|]. intros j Hj. apply strict_eq_refl.
    intros E'. apply Hnan. rewrite <- E'. by apply get_elem_of.
Qed.

(** The characters of a string are strings: no [undefined] and no
    [NaN] among them. *)
Lemma of_string_values (str : string) :
  (VUndefined ∉ of_string str) ∧ (VNaN ∉ of_string str).
Proof.
  induction str as [|c str [IH1 IH2]]; simpl.
  - split; apply not_elem_of_nil.
  - split; apply not_elem_of_cons; done.
Qed.

Lemma count_runs c1 c2 c3 c4 :
  0 ≤ c1 → 0 ≤ c2 → 0 ≤ c3 → 0 ≤ c4 →
  count Insert (fill c1 Equal ++ fill c2 Insert ++ fill c3 Delete
                ++ fill c4 Equal) = c2.
Proof.
  intros. rewrite !count_app, !count_fill by done.
  repeat case_decide; try done; lia.
Qed.

(** ** Patch operations that change something *)

Lemma pushLast_nontrivial c :
  compactor_nontrivial c → compactor_nontrivial (pushLast c).
Proof.
  intros [Hc Hop]. unfold pushLast.
  destruct (lastOperation c) as [op|] eqn:E; [|by split; [|rewrite E]].
  split; simpl; [|done]. apply Forall_app. split; [done|].
  apply Forall_singleton. by apply Hop.
Qed.

Lemma diffToChanges_step_nontrivial output c t :
  compactor_nontrivial c →
  compactor_nontrivial (diffToChanges_step output c t).
Proof.
  intros Hc. pose proof (pushLast_nontrivial c Hc) as [Hp Hpl].
  destruct Hc as [Hch Hop]. destruct t; simpl.
  - split; [done|]. simpl. by rewrite pushLast_lastOperation.
  - destruct (lastOperation c) as [[i vs|i h]|] eqn:E; simpl.
    + split; [done|]. simpl. intros op [= <-]. simpl. by destruct vs.
    + split; [done|]. simpl. by intros op [= <-].
    + split; [done|]. simpl. by intros op [= <-].
  - destruct (lastOperation c) as [[i vs|i h]|] eqn:E; simpl.
    + split; [done|]. simpl. by intros op [= <-].
    + split; [done|]. simpl. intros op [= <-]. simpl.
      pose proof (Hop _ eq_refl) as Hh. simpl in Hh. lia.
    + split; [done|]. simpl. by intros op [= <-].
Qed.

Lemma diffToChanges_nontrivial s output :
  Forall nontrivial (diffToChanges s output).
Proof.
  unfold diffToChanges.
  assert (∀ c, compactor_nontrivial c →
               compactor_nontrivial
                 (foldl (diffToChanges_step output) c s)) as H.
  { induction s as [|t s IH]; intros c Hc; [done|]. simpl.
    by apply IH, diffToChanges_step_nontrivial. }
  apply pushLast_nontrivial, H. split; [constructor | done].
Qed.

Lemma fastDiff_nontrivial a b cmp :
  Forall nontrivial (fastDiff a b cmp false).
Proof.
  unfold fastDiff, changeIndexesToChanges.
  pose proof (findChangeBoundaryIndexes_spec a b cmp) as H. simpl in H.
  set (ci := findChangeBoundaryIndexes a b cmp) in *.
  destruct H as [(-> & -> & -> & _) | (l & H0 & Hl & Hla & Hlb & _ & _ & Hold
                                       & Hnew & _)].
  { simpl. constructor. }
  rewrite Hold, Hnew.
  destruct (Z.ltb_spec 0 (len b - l - firstIndex ci)) as [Hi|Hi];
    destruct (Z.ltb_spec 0 (len a - l - firstIndex ci)) as [Hd|Hd]; simpl;
    repeat constructor; simpl; try lia.
  all: rewrite slice_range by lia; intros E;
    apply (f_equal length) in E; rewrite length_take, length_drop in E;
    unfold len in *; simpl in E; lia.
Qed.

Lemma fastDiff_same a cmp :
  (∀ x, x ∈ a → x ≠ VUndefined ∧ cmp x x = true) →
  fastDiff a a cmp false = [].
Proof.
  intros Hall. unfold fastDiff, findChangeBoundaryIndexes.
  rewrite findFirstDifferenceIndex_same; [done|].
  intros j Hj. by apply Hall, get_elem_of.
Qed.

(** ** The runs of a stream and the operations they merge into *)

Lemma get_seqZ_snoc (output : list value) i k :
  0 ≤ k →
  get output <$> seqZ i (k + 1)
  = (get output <$> seqZ i k) ++ [get output (i + k)].
Proof.
  intros Hk. rewrite seqZ_app by lia. by rewrite fmap_app.
Qed.

Lemma fill_snoc_app {A} k (t : A) s :
  0 ≤ k → fill (k + 1) t ++ s = fill k t ++ t :: s.
Proof.
  intros Hk. rewrite fill_succ by done. unfold fill.
  by rewrite (replicate_cons_app (Z.to_nat k) t), <- app_assoc.
Qed.

Lemma runs_cons t s : ∃ k rs, runs (t :: s) = (t, k) :: rs ∧ 1 ≤ k.
Proof.
  revert t. induction s as [|u s IH]; intros t.
  - by exists 1, [].
  - destruct (IH u) as (k & rs & Hr & Hk). simpl in *. rewrite Hr.
    case_decide; eexists _, _; (split; [done|]); lia.
Qed.

Lemma runs_fill t k s :
  1 ≤ k → head s ≠ Some t → runs (fill k t ++ s) = (t, k) :: runs s.
Proof.
  intros Hk Hs. replace k with (k - 1 + 1) by lia.
  assert (0 ≤ k - 1) as Hk' by lia. revert Hk'. generalize (k - 1).
  clear k Hk. intros k Hk. pattern k. apply natlike_ind; [| |done].
  - simpl. destruct s as [|u s]; [done|].
    destruct (runs_cons u s) as (j & rs & Hr & _). simpl in Hr.
    change (runs (t :: u :: s)) with
      (match runs (u :: s) with
       | (u', k') :: rs' =>
           if decide (t = u') then (t, k' + 1) :: rs'
           else (t, 1) :: (u', k') :: rs'
       | [] => [(t, 1)]
       end).
    simpl. rewrite Hr. rewrite decide_False; [done|].
    intros ->. by apply Hs.
  - clear k Hk. intros k Hk IH. unfold Z.succ.
    rewrite (fill_succ (k + 1)) by lia. simpl. rewrite IH.
    by rewrite decide_True.
Qed.

Lemma runs_maximal s : maximal_runs (runs s).
Proof.
  induction s as [|t s IH]; simpl; [done|].
  destruct (runs s) as [|[u k] rs] eqn:E; simpl in *; [done|].
  destruct IH as (Hk & Hn & Hrs). case_decide as Ht; simpl.
  - subst u. split; [lia|]. done.
  - split; [lia|]. done.
Qed.

Lemma expand_runs s : expand (runs s) = s.
Proof.
  induction s as [|t s IH]; simpl; [done|].
  pose proof (runs_maximal s) as Hm.
  destruct (runs s) as [|[u k] rs] eqn:E; simpl in *.
  - by rewrite <- IH.
  - destruct Hm as (Hk & _). case_decide as Ht; unfold expand in *; simpl.
    + subst u. rewrite fill_succ by lia. simpl. by rewrite <- IH.
    + by rewrite <- IH.
Qed.

Lemma merge_runs_equal output idx s :
  merge_runs output idx (runs (Equal :: s))
  = merge_runs output (idx + 1) (runs s).
Proof.
  simpl. destruct (runs s) as [|[u k] rs]; [done|].
  case_decide as Hu; [|done]. subst u. simpl. f_equal. lia.
Qed.

(** Whatever state the compactor is in, the operations it will have
    pushed at the end are those of the runs still to come, the run of the
    pending operation included. *)
Lemma merge_runs_insert output idx k rs :
  merge_runs output idx ((Insert, k) :: rs)
  = CInsert idx (get output <$> seqZ idx k)
    :: merge_runs output (idx + k) rs.
Proof. done. Qed.

Lemma merge_runs_delete output idx k rs :
  merge_runs output idx ((Delete, k) :: rs)
  = CDelete idx k :: merge_runs output idx rs.
Proof. done. Qed.

Lemma compactor_runs output s :
  ∀ c, pending_ok output c →
       changes (pushLast (foldl (diffToChanges_step output) c s))
       = changes c
         ++ merge_runs output (pending_start c) (runs (pending_run c ++ s)).
Proof.
  induction s as [|t s IH]; intros [chs idx [[i vs|i h]|]];
    unfold pending_ok, pending_run, pending_start; simpl.
  - intros (Hi & Hk & Hvs). unfold pushLast. simpl.
    rewrite (runs_fill Insert (len vs) []) by done.
    simpl. by rewrite <- Hvs.
  - intros (-> & Hh). unfold pushLast. simpl.
    by rewrite (runs_fill Delete h []) by done.
  - intros _. unfold pushLast. simpl. by rewrite app_nil_r.
  - intros (Hi & Hk & Hvs). destruct t; simpl.
    + rewrite IH by done. unfold pending_run, pending_start. simpl.
      rewrite runs_fill by done.
      rewrite merge_runs_insert, merge_runs_equal, <- Hvs, Hi.
      by rewrite <- app_assoc.
    + rewrite IH.
      * unfold pending_run, pending_start. simpl.
        rewrite len_app. change (len [get output idx]) with 1.
        by rewrite fill_snoc_app by lia.
      * unfold pending_ok. simpl. rewrite len_app.
        change (len [get output idx]) with 1.
        split; [lia|]. split; [lia|].
        rewrite get_seqZ_snoc by lia. by rewrite <- Hvs, Hi.
    + rewrite IH by done. unfold pending_run, pending_start. simpl.
      rewrite (runs_fill Insert) by done.
      rewrite merge_runs_insert, <- Hvs, Hi.
      by rewrite <- app_assoc.
  - intros (-> & Hh). destruct t; simpl.
    + rewrite IH by done. unfold pending_run, pending_start. simpl.
      rewrite runs_fill by done.
      rewrite merge_runs_delete, merge_runs_equal.
      by rewrite <- app_assoc.
    + rewrite IH by done. unfold pending_run, pending_start. simpl.
      rewrite (runs_fill Delete) by done. rewrite merge_runs_delete.
      by rewrite <- app_assoc.
    + rewrite IH by (unfold pending_ok; simpl; lia).
      unfold pending_run, pending_start. simpl.
      by rewrite fill_snoc_app by lia.
  - intros _. destruct t; simpl.
    + rewrite IH by done. unfold pending_run, pending_start. simpl.
      by rewrite <- merge_runs_equal.
    + rewrite IH; [done|]. unfold pending_ok. simpl.
      change (len [get output idx]) with 1. split; [lia|]. done.
    + rewrite IH; [done|]. unfold pending_ok. simpl. lia.
Qed.

Lemma diffToChanges_runs s output :
  diffToChanges s output = merge_runs output 0 (runs s).
Proof.
  unfold diffToChanges.
  by rewrite (compactor_runs output s (mkCompactor [] 0 None)).
Qed.

(** A run of delete tokens anywhere in a stream. *)
Lemma diffToChanges_delete_run_inside pre h post output :
  last pre ≠ Some Delete → head post ≠ Some Delete → 0 < h →
  diffToChanges (pre ++ fill h Delete ++ post) output
  = diffToChanges pre output
    ++ CDelete (count Equal pre + count Insert pre) h
       :: merge_runs output (count Equal pre + count Insert pre) (runs post).
Proof.
  intros Hlast Hhead Hh. unfold diffToChanges. rewrite !foldl_app.
  rewrite delete_run; [|by apply pending_delete_foldl|done].
  rewrite compactor_runs by (unfold pending_ok; simpl; lia).
  unfold pending_run, pending_start. simpl.
  rewrite runs_fill by (done || lia). simpl.
  by rewrite diffToChanges_index.
Qed.

(** * The properties *)

(** C1. Round trip: for all sequences [A] and [B], with the default
    comparator [===], [diff] returns a stream, and the patch list
    [diffToChanges (diff A B) B] (the one [getChanges] computes), applied
    with [applyChanges] to a copy of [A], gives exactly [B]. *)
Theorem round_trip (A B : list value) :
  ∃ d patch,
    diff A B strict_eq = Some d
    ∧ getChanges A B = Some patch
    ∧ patch = diffToChanges d B
    ∧ applyChanges A patch = B.
Proof.
  destruct (diff_round_trip A B strict_eq strict_eq_sound) as (d & Hd & Hrt).
  exists d, (diffToChanges d B). unfold getChanges. rewrite Hd. done.
Qed.

(** C2. With a keystroke pending, [applyLocalChanges] takes a snapshot of
    the editor, computes the patch from the shadow copy [syncValue] to the
    snapshot and applies it to a scratch copy of the shadow copy. When the
    scratch copy then prints as the snapshot does (the test
    [output.join('') === input.join('')]) the patch is emitted and the
    scratch copy becomes the shadow copy; otherwise nothing is emitted and
    the shadow copy stays. The test passes exactly when the scratch copy
    is the snapshot, element by element. Either way the flag is cleared
    and the editor is left alone. *)
Theorem applyLocalChanges_verify_then_commit (c : client) :
  keypressed c = true →
  ∃ patch c',
    getChanges (syncValue c) (of_string (editor c)) = Some patch
    ∧ applyLocalChanges c = Some c'
    ∧ keypressed c' = false
    ∧ editor c' = editor c
    ∧ (join (of_string (editor c)) = join (applyChanges (syncValue c) patch)
       ↔ applyChanges (syncValue c) patch = of_string (editor c))
    ∧ ((join (of_string (editor c))
        = join (applyChanges (syncValue c) patch)
        ∧ emitted c' = emitted c ++ [patch]
        ∧ syncValue c' = applyChanges (syncValue c) patch)
       ∨ (join (of_string (editor c))
          ≠ join (applyChanges (syncValue c) patch)
          ∧ emitted c' = emitted c
          ∧ syncValue c' = syncValue c)).
Proof.
  intros Hk.
  destruct (round_trip_aux (syncValue c) (of_string (editor c)))
    as (patch & Hp & Hrt).
  exists patch. unfold applyLocalChanges. rewrite Hk, Hp. simpl.
  case_bool_decide as Hjoin; eexists; (split; [done|]);
    (split; [reflexivity|]); simpl; (split; [done|]); (split; [done|]);
    (split; [by rewrite Hrt|]).
  - left. done.
  - right. done.
Qed.

Lemma applyLocalChanges_verify_then_commit_witness :
  ∃ patch c',
    getChanges [] (of_string "ab") = Some patch
    ∧ applyLocalChanges (mkClient [] true "ab" []) = Some c'
    ∧ keypressed c' = false
    ∧ editor c' = "ab"%string
    ∧ (join (of_string "ab") = join (applyChanges [] patch)
       ↔ applyChanges [] patch = of_string "ab")
    ∧ ((join (of_string "ab") = join (applyChanges [] patch)
        ∧ emitted c' = [] ++ [patch]
        ∧ syncValue c' = applyChanges [] patch)
       ∨ (join (of_string "ab") ≠ join (applyChanges [] patch)
          ∧ emitted c' = []
          ∧ syncValue c' = [])).
Proof.
  exact (applyLocalChanges_verify_then_commit (mkClient [] true "ab" [])
           eq_refl).
Defined.

(** C3. For all [a], [b] and [cmp]: the dispatcher takes the boundary
    engine exactly when [len a > 200], [len b > 200] or
    [len a + len b > 300], and then returns [fastDiff a b cmp true]; on
    every smaller input the search ends, [es[delta]] starts with the token
    pushed by the first call of [snake] (the label [_insert]), and [diff]
    returns [es[delta]] without that one token, a stream whose tokens
    account for every element of [a] and of [b]. *)
Theorem diff_dispatch (a b : list value) (cmp : comparator) :
  exceeds_thresholds (len a) (len b)
  = bool_decide (200 < len a ∨ 200 < len b ∨ 300 < len a + len b)
  ∧ if exceeds_thresholds (len a) (len b)
    then diff a b cmp = Some (fastDiff a b cmp true)
    else
      ∃ st sentinel s,
        (if len b <? len a
         then search b a cmp Delete Insert
                (S (Nat.min (length a) (length b))) 0 initial_search
         else search a b cmp Insert Delete
                (S (Nat.min (length a) (length b))) 0 initial_search)
        = Some st
        ∧ sentinel = (if len b <? len a then Delete else Insert)
        ∧ es st !! Z.abs (len b - len a) = Some (sentinel :: s)
        ∧ diff a b cmp = Some s
        ∧ count Equal s + count Delete s = len a
        ∧ count Equal s + count Insert s = len b.
Proof.
  split.
  { unfold exceeds_thresholds.
    destruct (Z.ltb_spec 200 (len a)), (Z.ltb_spec 200 (len b)),
      (Z.ltb_spec 300 (len a + len b)); simpl; symmetry;
      (apply bool_decide_eq_true_2 || apply bool_decide_eq_false_2); lia. }
  destruct (exceeds_thresholds (len a) (len b)) eqn:E.
  { unfold diff, diff_fuel. cbv zeta. by rewrite E. }
  destruct (diff_fuel_script _ a b cmp E (min_fuel a b)) as (s' & Hs' & Hw' & _).
  pose proof (walk_diag a b _ Insert Delete s' ltac:(done) ltac:(done)
                ltac:(done) ltac:(intros []; auto) _ _ Hw') as [Hx Hy].
  simpl in Hx, Hy. fold (diff a b cmp) in Hs'.
  unfold diff, diff_fuel in *. cbv zeta in *. rewrite E in *.
  destruct (Z.ltb_spec (len b) (len a)) as [Hlt|Hge].
  - destruct (search_script b a cmp Delete Insert ltac:(by right)
                ltac:(lia) (S (Nat.min (length a) (length b)))
                ltac:(unfold len in *; lia))
      as (st & s & Hsearch & Hes & Hres & _).
    rewrite Hsearch in *. simpl in *.
    exists st, Delete, s. split; [done|]. split; [done|].
    replace (Z.abs (len b - len a)) with (len a - len b) by lia.
    split; [done|]. rewrite Hres in *. injection Hs' as <-.
    split; [done|]. lia.
  - destruct (search_script a b cmp Insert Delete ltac:(by left)
                ltac:(lia) (S (Nat.min (length a) (length b)))
                ltac:(unfold len in *; lia))
      as (st & s & Hsearch & Hes & Hres & _).
    rewrite Hsearch in *. simpl in *.
    exists st, Insert, s. split; [done|]. split; [done|].
    replace (Z.abs (len b - len a)) with (len b - len a) by lia.
    split; [done|]. rewrite Hres in *. injection Hs' as <-.
    split; [done|]. lia.
Qed.

(** C4, as the code has it. For [A = "abcabba"] and [B = "cbabac"] the
    stream of [diff] holds exactly 5 insert and delete tokens. In general,
    for inputs within the thresholds, applying the stream to [A] gives
    [B], and no stream whose equal tokens stand where [===] relates the
    two elements has fewer insert and delete tokens, or fewer tokens.
    When [A] or [B] holds no [NaN], these are all the streams that turn
    [A] into [B], and the stream of [diff] is the shortest of them. *)
Theorem shortest_edit_script :
  (∃ s, diff (of_string "abcabba") (of_string "cbabac") strict_eq = Some s
        ∧ edits s = 5)
  ∧ ∀ A B : list value,
      exceeds_thresholds (len A) (len B) = false →
      ∃ s, diff A B strict_eq = Some s
           ∧ run_script s A B = Some B
           ∧ (∀ s', walk A B strict_eq Insert s' (0, 0)
                    = Some (len A, len B) →
                    edits s ≤ edits s' ∧ len s ≤ len s')
           ∧ (VNaN ∉ A ∨ VNaN ∉ B →
              ∀ s', run_script s' A B = Some B →
                    edits s ≤ edits s' ∧ len s ≤ len s').
Proof.
  split.
  { eexists. split; [vm_compute; reflexivity | vm_compute; reflexivity]. }
  intros A B Hsmall.
  destruct (diff_fuel_script _ A B strict_eq Hsmall (min_fuel A B))
    as (s & Hs & Hw & Hmin).
  rewrite (walk_ext _ _ _ strict_eq) in Hw by apply oriented_strict_eq.
  exists s. split; [done|]. split; [by apply run_script_strict_eq|].
  assert (∀ s', walk A B strict_eq Insert s' (0, 0) = Some (len A, len B) →
                edits s ≤ edits s' ∧ len s ≤ len s') as Hshort.
  { intros s' Hs'. assert (edits s ≤ edits s') as Hle.
    { apply Hmin. by rewrite (walk_ext _ _ _ strict_eq)
        by apply oriented_strict_eq. }
    split; [done|].
    pose proof (valid_script_length _ _ _ _ Hw).
    pose proof (valid_script_length _ _ _ _ Hs'). lia. }
  split; [done|]. intros Hnan s' Hs'. apply Hshort.
  rewrite walk_strict_eq_same_value by done. by apply run_script_path.
Qed.

Lemma shortest_edit_script_witness :
  ∃ s, diff (of_string "kitten") (of_string "sitting") strict_eq = Some s
       ∧ run_script s (of_string "kitten") (of_string "sitting")
         = Some (of_string "sitting")
       ∧ ∀ s', run_script s' (of_string "kitten") (of_string "sitting")
               = Some (of_string "sitting") →
               edits s ≤ edits s' ∧ len s ≤ len s'.
Proof.
  destruct (proj2 shortest_edit_script (of_string "kitten")
              (of_string "sitting") eq_refl) as (s & Hs & Hrun & _ & Hmin).
  exists s. split; [exact Hs|]. split; [exact Hrun|]. apply Hmin.
  left. apply of_string_values.
Defined.

(** C4 as stated fails on [NaN]: the arrays [[NaN]] and [[NaN]] are
    within the thresholds, the stream of one equal token turns the one
    into the other without an insert or a delete, and [diff] returns an
    insert and a delete, since [NaN === NaN] is false. *)
Lemma shortest_edit_script_counterexample :
  exceeds_thresholds (len [VNaN]) (len [VNaN]) = false
  ∧ diff [VNaN] [VNaN] strict_eq = Some [Insert; Delete]
  ∧ run_script [Equal] [VNaN] [VNaN] = Some [VNaN]
  ∧ edits [Equal] < edits [Insert; Delete].
Proof. repeat split; vm_compute; reflexivity. Qed.

(** C5, as the code has it. The stream
    [equal, insert, insert, equal, delete, delete, equal] over the new
    sequence ["xYZw"] compacts to the insert of [Y, Z] at index 1 and the
    delete of 2 elements at index 4 (not 3). The index of a delete
    operation is the number of equal and insert tokens before its run:
    the position reached in the new sequence, past everything already
    placed. This holds for a run of delete tokens wherever it stands in
    a stream: the operations of the tokens before it come first, then the
    one delete operation of the run, then the operations of the tokens
    behind it. For every stream the patch list is that of its maximal
    runs, one operation for each run of insert tokens and each run of
    delete tokens. *)
Theorem compactor_merge :
  diffToChanges [Equal; Insert; Insert; Equal; Delete; Delete; Equal]
    (of_string "xYZw")
  = [CInsert 1 [VStr "Y"; VStr "Z"]; CDelete 4 2]
  ∧ (∀ pre h post output,
       last pre ≠ Some Delete → head post ≠ Some Delete → 0 < h →
       diffToChanges (pre ++ fill h Delete ++ post) output
       = diffToChanges pre output
         ++ CDelete (count Equal pre + count Insert pre) h
            :: merge_runs output (count Equal pre + count Insert pre)
                 (runs post))
  ∧ (∀ s output,
       diffToChanges s output = merge_runs output 0 (runs s)
       ∧ maximal_runs (runs s) ∧ expand (runs s) = s).
Proof.
  split; [vm_compute; reflexivity|]. split.
  - intros pre h post output. apply diffToChanges_delete_run_inside.
  - intros s output. split; [apply diffToChanges_runs|].
    split; [apply runs_maximal | apply expand_runs].
Qed.

Lemma compactor_merge_witness :
  diffToChanges ([Equal; Insert; Insert; Equal] ++ fill 2 Delete ++ [Equal])
    (of_string "xYZw")
  = diffToChanges [Equal; Insert; Insert; Equal] (of_string "xYZw")
    ++ CDelete (count Equal [Equal; Insert; Insert; Equal]
                + count Insert [Equal; Insert; Insert; Equal]) 2
       :: merge_runs (of_string "xYZw")
            (count Equal [Equal; Insert; Insert; Equal]
             + count Insert [Equal; Insert; Insert; Equal])
            (runs [Equal]).
Proof.
  apply (proj1 (proj2 compactor_merge) [Equal; Insert; Insert; Equal] 2
           [Equal] (of_string "xYZw")); [discriminate | discriminate |].
  reflexivity.
Defined.

(** C5 as stated fails: the delete operation does not carry index 3. *)
Lemma compactor_merge_counterexample :
  diffToChanges [Equal; Insert; Insert; Equal; Delete; Delete; Equal]
    (of_string "xYZw")
  ≠ [CInsert 1 [VStr "Y"; VStr "Z"]; CDelete 3 2].
Proof. vm_compute. discriminate. Qed.

(** C6, as the code has it. For every sequence [A] that holds no [NaN]
    and is within the thresholds of the dispatcher or holds no
    [undefined] element, [diff A A] is the stream of exactly [len A]
    equal markers, and [diffToChanges] turns that stream, over [A], into
    the empty patch list. *)
Theorem diff_identical (A : list value) :
  exceeds_thresholds (len A) (len A) = false ∨ VUndefined ∉ A →
  VNaN ∉ A →
  diff A A strict_eq = Some (fill (len A) Equal)
  ∧ len (fill (len A) Equal : list atomic) = len A
  ∧ diffToChanges (fill (len A) Equal) A = [].
Proof.
  intros H Hnan. pose proof (len_nonneg A). split; [by apply diff_same|].
  split; [by apply len_fill | by apply diffToChanges_equal].
Qed.

Lemma diff_identical_witness :
  diff (of_string "abc") (of_string "abc") strict_eq
  = Some (fill (len (of_string "abc")) Equal)
  ∧ len (fill (len (of_string "abc")) Equal : list atomic)
    = len (of_string "abc")
  ∧ diffToChanges (fill (len (of_string "abc")) Equal) (of_string "abc") = [].
Proof.
  apply (diff_identical (of_string "abc")).
  - left. reflexivity.
  - apply of_string_values.
Defined.

(** C6 as stated fails on a long array of [undefined]: the boundary
    engine reports every position as inserted and deleted. It fails on
    [[NaN]] too, at any size: [NaN === NaN] is false, so the search
    inserts the new element and deletes the old one. *)
Lemma diff_identical_counterexample :
  diff (replicate 201 VUndefined) (replicate 201 VUndefined) strict_eq
  = Some (replicate 201 Insert ++ replicate 201 Delete)
  ∧ diff (replicate 201 VUndefined) (replicate 201 VUndefined) strict_eq
    ≠ Some (fill (len (replicate 201 VUndefined)) Equal)
  ∧ diff [VNaN] [VNaN] strict_eq = Some [Insert; Delete]
  ∧ diff [VNaN] [VNaN] strict_eq ≠ Some (fill (len [VNaN]) Equal).
Proof.
  assert (diff (replicate 201 VUndefined) (replicate 201 VUndefined) strict_eq
          = Some (replicate 201 Insert ++ replicate 201 Delete)) as H
    by (vm_compute; reflexivity).
  split; [exact H|]. split; [rewrite H; vm_compute; discriminate|].
  split; [vm_compute; reflexivity | vm_compute; discriminate].
Qed.

(** C7, as the code has it. For all [A] and [B] the stream of [diff A B]
    holds exactly [len B] tokens that are not delete tokens (and [len A]
    that are not insert tokens), so its length is [len B] plus the number
    of its delete tokens; when [A] and [B] are identical, free of [NaN],
    and within the thresholds or free of [undefined], it is the stream of
    [len B] equal markers. *)
Theorem diff_stream_length (A B : list value) :
  ∃ s, diff A B strict_eq = Some s
       ∧ count Equal s + count Insert s = len B
       ∧ count Equal s + count Delete s = len A
       ∧ len s = len B + count Delete s
       ∧ (A = B →
          exceeds_thresholds (len A) (len B) = false ∨ VUndefined ∉ A →
          VNaN ∉ A →
          s = fill (len B) Equal).
Proof.
  destruct (diff_walk A B strict_eq) as (s & Hs & Hw).
  pose proof (walk_diag A B _ Insert Delete s ltac:(done) ltac:(done)
                ltac:(done) ltac:(intros []; auto) _ _ Hw) as [Hx Hy].
  simpl in Hx, Hy. pose proof (count_total s).
  exists s. split; [done|]. split; [lia|]. split; [lia|]. split; [lia|].
  intros <- Hok Hnan. pose proof (diff_same A Hok Hnan) as Hsame.
  rewrite Hs in Hsame. by injection Hsame.
Qed.

Lemma diff_stream_length_witness :
  ∃ s, diff (of_string "ab") (of_string "ab") strict_eq = Some s
       ∧ s = fill (len (of_string "ab")) Equal.
Proof.
  destruct (diff_stream_length (of_string "ab") (of_string "ab"))
    as (s & Hs & _ & _ & _ & Hsame).
  exists s. split; [exact Hs|]. apply Hsame; [reflexivity| |].
  - left. reflexivity.
  - apply of_string_values.
Defined.

(** C7 as stated fails: for [A = ["x"]] and [B = []], two different
    sequences, the stream is one delete token and [B] is empty. *)
Lemma diff_stream_length_counterexample :
  diff [VStr "x"] [] strict_eq = Some [Delete]
  ∧ [VStr "x"] ≠ ([] : list value)
  ∧ len [Delete] ≠ len ([] : list value).
Proof. split; [vm_compute; reflexivity|]. split; discriminate. Qed.

(** C8. For ["hello world"] and ["hello there world"] the boundary engine
    finds [firstIndex = 6], and in compacted mode returns the one insert
    operation of the six characters ["there "] at index 6, and no delete
    operation. *)
Theorem boundary_example :
  firstIndex (findChangeBoundaryIndexes (of_string "hello world")
                (of_string "hello there world") strict_eq) = 6
  ∧ fastDiff (of_string "hello world") (of_string "hello there world")
      strict_eq false
    = [CInsert 6 (of_string "there ")].
Proof. split; vm_compute; reflexivity. Qed.

(** C9. When one of the arrays holds [undefined] at position [i] (or has
    no position [i]) and every earlier position passes the test,
    [findFirstDifferenceIndex] returns [i] and has called [cmp] on the
    earlier positions only. So for an array [A] whose first [undefined]
    is at [i], with [cmp] accepting the earlier elements,
    [fastDiff A A cmp true] is [i] equal markers followed by a change
    region: one or more inserts and as many deletes, and it is not the
    stream of [len A] equal markers. *)
Theorem undefined_is_a_difference :
  (∀ arr1 arr2 cmp i,
     0 ≤ i < Z.max (len arr1) (len arr2) →
     get arr1 i = VUndefined ∨ get arr2 i = VUndefined →
     (∀ j, 0 ≤ j < i → agree arr1 arr2 cmp j = true) →
     findFirstDifferenceIndex_calls arr1 arr2 cmp
     = (i, (λ j, (get arr1 j, get arr2 j)) <$> seqZ 0 i))
  ∧ (∀ A cmp i,
       0 ≤ i < len A → get A i = VUndefined →
       (∀ j, 0 ≤ j < i → agree A A cmp j = true) →
       ∃ c l, 0 < c ∧ 0 ≤ l
         ∧ fastDiff A A cmp true
           = fill i Equal ++ fill c Insert ++ fill c Delete ++ fill l Equal
         ∧ fastDiff A A cmp true ≠ fill (len A) Equal).
Proof.
  assert (Hfirst : ∀ arr1 arr2 cmp i,
     0 ≤ i < Z.max (len arr1) (len arr2) →
     get arr1 i = VUndefined ∨ get arr2 i = VUndefined →
     (∀ j, 0 ≤ j < i → agree arr1 arr2 cmp j = true) →
     findFirstDifferenceIndex_calls arr1 arr2 cmp
     = (i, (λ j, (get arr1 j, get arr2 j)) <$> seqZ 0 i)).
  { intros arr1 arr2 cmp i Hi Hund Hall.
    unfold findFirstDifferenceIndex_calls.
    rewrite (findFirstDifferenceIndex_loop_calls _ _ _ _ 0 [] i Hall).
    - by rewrite Z.sub_0_r.
    - unfold len in Hi. lia.
    - apply orb_true_iff. rewrite !is_undefined_true. done. }
  split; [exact Hfirst|].
  intros A cmp i Hi Hund Hall.
  pose proof (Hfirst A A cmp i ltac:(lia) (or_introl Hund) Hall) as Hcalls.
  assert (findFirstDifferenceIndex A A cmp = i) as Hf.
  { unfold findFirstDifferenceIndex. by rewrite Hcalls. }
  pose proof (findChangeBoundaryIndexes_spec A A cmp) as H. simpl in H.
  unfold fastDiff.
  set (ci := findChangeBoundaryIndexes A A cmp) in *.
  destruct H as [(_ & _ & _ & Hr) | (l & H0 & Hl & Hla & _ & Hlt & Hfeq & Hold
                                     & Hnew & _)]; [lia|].
  rewrite Hf in Hfeq.
  exists (len A - l - i), l. split; [lia|]. split; [done|].
  rewrite changeIndexesToAtomicChanges_runs by lia.
  rewrite Hold, Hnew, Hfeq.
  replace (len A - (len A - l)) with l by lia. split; [done|].
  intros E. apply (f_equal (count Insert)) in E.
  rewrite count_runs, count_fill in E by lia.
  rewrite decide_False in E by done. lia.
Qed.

Lemma undefined_is_a_difference_witness :
  ∃ c l, 0 < c ∧ 0 ≤ l
    ∧ fastDiff [VNum 1; VUndefined; VNum 2] [VNum 1; VUndefined; VNum 2]
        strict_eq true
      = fill 1 Equal ++ fill c Insert ++ fill c Delete ++ fill l Equal
    ∧ fastDiff [VNum 1; VUndefined; VNum 2] [VNum 1; VUndefined; VNum 2]
        strict_eq true
      ≠ fill (len [VNum 1; VUndefined; VNum 2]) Equal.
Proof.
  apply (proj2 undefined_is_a_difference [VNum 1; VUndefined; VNum 2]
           strict_eq 1).
  - split; [lia | reflexivity].
  - reflexivity.
  - intros j Hj. assert (j = 0) as -> by lia. reflexivity.
Defined.

(** C10, as the code has it. Every operation of a patch list made by
    [diffToChanges], or by [fastDiff] in compacted mode, changes
    something: an insert carries at least one value, a delete removes at
    least one element. A stream of equal markers compacts to the empty
    patch list, and identical inputs give the empty patch list when no
    element of them is [undefined] and [cmp] accepts each element paired
    with itself. *)
Theorem patch_operations_nontrivial :
  (∀ s output, Forall nontrivial (diffToChanges s output))
  ∧ (∀ a b cmp, Forall nontrivial (fastDiff a b cmp false))
  ∧ (∀ (k : nat) output, diffToChanges (replicate k Equal) output = [])
  ∧ (∀ a cmp,
       (∀ x, x ∈ a → x ≠ VUndefined ∧ cmp x x = true) →
       fastDiff a a cmp false = []).
Proof.
  split; [apply diffToChanges_nontrivial|].
  split; [apply fastDiff_nontrivial|].
  split; [|apply fastDiff_same].
  intros k output. rewrite <- (Nat2Z.id k). apply diffToChanges_equal. lia.
Qed.

Lemma patch_operations_nontrivial_witness :
  fastDiff (of_string "ab") (of_string "ab") strict_eq false = [].
Proof.
  apply (proj2 (proj2 (proj2 patch_operations_nontrivial))).
  intros x Hx. apply list_elem_of_In in Hx. simpl in Hx.
  destruct Hx as [<-|[<-|[]]]; (split; [discriminate | reflexivity]).
Defined.

(** C10 as stated fails on identical inputs that hold [undefined]: the
    patch list has an insert and a delete. *)
Lemma patch_operations_nontrivial_counterexample :
  fastDiff [VUndefined] [VUndefined] strict_eq false
  = [CInsert 0 [VUndefined]; CDelete 1 1]
  ∧ fastDiff [VUndefined] [VUndefined] strict_eq false ≠ [].
Proof. split; [vm_compute; reflexivity | vm_compute; discriminate]. Qed.


(** * Further properties of the code *)

(** ** Runs of one token in the compactor *)

Lemma equal_run output c k :
  0 ≤ k →
  pushLast (foldl (diffToChanges_step output) c (fill k Equal))
  = mkCompactor (changes (pushLast c)) (index c + k) None.
Proof.
  intros Hk. revert c. pattern k. apply natlike_ind; [| |done].
  - intros c. simpl. rewrite Z.add_0_r. unfold pushLast.
    destruct c as [chs idx [op|]]; done.
  - clear k Hk. intros k Hk IH c. unfold Z.succ.
    rewrite fill_succ by done. simpl. rewrite IH. simpl.
    rewrite pushLast_index. unfold pushLast at 1. simpl.
    rewrite pushLast_lastOperation. f_equal. lia.
Qed.

Lemma insert_run_continue output chs idx i vs k :
  0 ≤ k →
  foldl (diffToChanges_step output)
    (mkCompactor chs idx (Some (CInsert i vs))) (fill k Insert)
  = mkCompactor chs (idx + k)
      (Some (CInsert i (vs ++ (get output <$> seqZ idx k)))).
Proof.
  intros Hk. revert idx vs. pattern k. apply natlike_ind; [| |done].
  - intros idx vs. simpl. by rewrite Z.add_0_r, app_nil_r.
  - clear k Hk. intros k Hk IH idx vs. unfold Z.succ.
    rewrite fill_succ by done. simpl. rewrite IH.
    rewrite (seqZ_cons idx) by lia. simpl. rewrite <- app_assoc. simpl.
    replace (Z.pred (k + 1)) with k by lia.
    replace (Z.succ idx) with (idx + 1) by lia.
    f_equal. lia.
Qed.

Lemma insert_run output c k :
  pending_insert c = false → 0 < k →
  foldl (diffToChanges_step output) c (fill k Insert)
  = mkCompactor (changes (pushLast c)) (index c + k)
      (Some (CInsert (index c) (get output <$> seqZ (index c) k))).
Proof.
  intros Hc Hk. replace k with (k - 1 + 1) at 1 by lia.
  rewrite fill_succ by lia. unfold pending_insert in Hc.
  change (foldl (diffToChanges_step output)
            (diffToChanges_step output c Insert) (fill (k - 1) Insert)
          = mkCompactor (changes (pushLast c)) (index c + k)
              (Some (CInsert (index c) (get output <$> seqZ (index c) k)))).
  assert (diffToChanges_step output c Insert
          = mkCompactor (changes (pushLast c)) (index c + 1)
              (Some (CInsert (index c) [get output (index c)]))) as ->.
  { simpl. rewrite pushLast_index.
    destruct (lastOperation c) as [[? ?|? ?]|]; done. }
  rewrite insert_run_continue by lia.
  rewrite (seqZ_cons (index c) k) by lia. simpl.
  replace (Z.succ (index c)) with (index c + 1) by lia.
  replace (Z.pred k) with (k - 1) by lia. f_equal. lia.
Qed.

Lemma get_seqZ_slice (arr : list value) i k :
  0 ≤ i → 0 ≤ k → i + k ≤ len arr →
  get arr <$> seqZ i k = take (Z.to_nat k) (drop (Z.to_nat i) arr).
Proof.
  intros Hi Hk. revert i Hi. pattern k. apply natlike_ind; [| |done].
  - intros i Hi _. by rewrite seqZ_nil.
  - clear k Hk. intros k Hk IH i Hi Hlen.
    rewrite seqZ_cons by lia. simpl.
    replace (Z.pred (Z.succ k)) with k by lia.
    rewrite IH by lia. rewrite (drop_cons_get arr i) by lia.
    replace (Z.to_nat (Z.succ k)) with (S (Z.to_nat k)) by lia. simpl.
    do 3 f_equal; lia.
Qed.

Lemma equal_run_init output i k :
  0 ≤ k →
  foldl (diffToChanges_step output) (mkCompactor [] i None) (fill k Equal)
  = mkCompactor [] (i + k) None.
Proof.
  intros Hk. revert i. pattern k. apply natlike_ind; [| |done].
  - intros i. simpl. by rewrite Z.add_0_r.
  - clear k Hk. intros k Hk IH i. unfold Z.succ.
    rewrite fill_succ by done. simpl. unfold pushLast. simpl.
    rewrite IH. f_equal. lia.
Qed.

(** The two kinds of result of [fastDiff] agree: compacting the atomic
    stream gives the change set. *)
Lemma fastDiff_compact a b cmp :
  diffToChanges (fastDiff a b cmp true) b = fastDiff a b cmp false.
Proof.
  unfold fastDiff.
  pose proof (findChangeBoundaryIndexes_spec a b cmp) as H. simpl in H.
  set (ci := findChangeBoundaryIndexes a b cmp) in *.
  pose proof (len_nonneg a). pose proof (len_nonneg b).
  destruct H as [(Hf & Ho & Hn & _) | (l & Hf & Hl & Hla & Hlb & _ & _ & Hold
                                       & Hnew & _)].
  { unfold changeIndexesToAtomicChanges, changeIndexesToChanges.
    rewrite Hf, Ho, Hn. simpl. by apply diffToChanges_equal. }
  rewrite changeIndexesToAtomicChanges_runs by lia.
  unfold changeIndexesToChanges, diffToChanges. rewrite Hold, Hnew.
  rewrite !foldl_app, equal_run_init, equal_run by lia. simpl.
  destruct (Z.ltb_spec 0 (len b - l - firstIndex ci)) as [Hi|Hi];
    destruct (Z.ltb_spec 0 (len a - l - firstIndex ci)) as [Hd|Hd]; simpl.
  - rewrite insert_run by done. simpl.
    rewrite delete_run by done. simpl. unfold pushLast; simpl.
    rewrite get_seqZ_slice, slice_range by lia. by rewrite !Z.add_0_l.
  - rewrite insert_run by done. simpl.
    rewrite (fill_nonpos (len a - l - firstIndex ci)) by lia. simpl.
    unfold pushLast; simpl.
    rewrite get_seqZ_slice, slice_range by lia. by rewrite !Z.add_0_l.
  - rewrite (fill_nonpos (len b - l - firstIndex ci)) by lia. simpl.
    rewrite delete_run by done. simpl. unfold pushLast; simpl.
    rewrite !Z.add_0_l. do 2 f_equal. lia.
  - rewrite (fill_nonpos (len b - l - firstIndex ci)) by lia.
    by rewrite (fill_nonpos (len a - l - firstIndex ci)) by lia.
Qed.

Lemma fastDiff_round_trip a b cmp :
  sound cmp → applyChanges a (fastDiff a b cmp false) = b.
Proof.
  intros Hcmp. rewrite <- fastDiff_compact.
  apply (diffToChanges_applyChanges a b cmp); [done | apply fastDiff_walk].
Qed.

(** ** The region the boundary engine finds *)

Lemma common_prefix (a b : list value) f :
  0 ≤ f ≤ len a → f ≤ len b →
  (∀ j, 0 ≤ j < f → get a j = get b j) →
  take (Z.to_nat f) a = take (Z.to_nat f) b.
Proof.
  intros Hfa Hfb Hall. apply list_eq. intros i.
  destruct (decide (i < Z.to_nat f)%nat) as [Hi|Hi].
  - rewrite !lookup_take_lt by done.
    pose proof (Hall (Z.of_nat i) ltac:(lia)) as Hg.
    pose proof (get_lookup_Some a (Z.of_nat i) ltac:(lia)) as Ha.
    pose proof (get_lookup_Some b (Z.of_nat i) ltac:(lia)) as Hb.
    rewrite Nat2Z.id in Ha, Hb. by rewrite Ha, Hb, Hg.
  - by rewrite !lookup_take_ge by lia.
Qed.


Lemma agree_sound a b cmp j :
  sound cmp → agree a b cmp j = true → get a j = get b j.
Proof. intros Hcmp H. by apply Hcmp, agree_cmp. Qed.

Lemma agree_defined a b cmp j :
  agree a b cmp j = true → get a j ≠ VUndefined ∧ get b j ≠ VUndefined.
Proof.
  unfold agree. rewrite !andb_true_iff, !negb_true_iff, !is_undefined_false.
  tauto.
Qed.

Lemma elem_of_get (a : list value) x :
  x ∈ a → ∃ j, 0 ≤ j < len a ∧ get a j = x.
Proof.
  intros [i Hi]%list_elem_of_lookup. exists (Z.of_nat i).
  pose proof (lookup_lt_Some _ _ _ Hi). unfold len. split; [lia|].
  rewrite get_lookup by lia. by rewrite Nat2Z.id, Hi.
Qed.

Lemma findFirstDifferenceIndex_identical a b :
  findFirstDifferenceIndex a b strict_eq = -1
  ↔ a = b ∧ (VUndefined ∉ a) ∧ (VNaN ∉ a).
Proof.
  split.
  - intros Hr.
    pose proof (findFirstDifferenceIndex_spec a b strict_eq) as H.
    simpl in H. destruct H as [(_ & Hlen & Hall)|(? & _)]; [|lia].
    pose proof (len_nonneg a). split; [|split].
    + assert (take (Z.to_nat (len a)) a = take (Z.to_nat (len a)) b) as Hp.
      { apply common_prefix; [lia|lia|]. intros j Hj.
        apply (agree_sound _ _ strict_eq); [apply strict_eq_sound|].
        by apply Hall. }
      by rewrite !take_ge in Hp by (unfold len in *; lia).
    + intros (j & Hj & Hg)%elem_of_get.
      by destruct (agree_defined _ _ _ _ (Hall j Hj)).
    + intros (j & Hj & Hg)%elem_of_get.
      pose proof (agree_cmp _ _ _ _ (Hall j Hj)) as Hc.
      by destruct (strict_eq_not_NaN _ _ Hc).
  - intros (<- & Hnot & Hnan). apply findFirstDifferenceIndex_same.
    by apply strict_eq_all_defined.
Qed.




(** ** Streams of one token *)

Lemma count_le_len t s : count t s ≤ len s.
Proof.
  induction s as [|u s IH]; [done|]. rewrite count_cons, len_cons.
  case_decide; lia.
Qed.

Lemma count_all_fill t s : count t s = len s → s = fill (len s) t.
Proof.
  induction s as [|u s IH]; intros H; [done|].
  rewrite count_cons, len_cons in H. pose proof (count_le_len t s).
  pose proof (len_nonneg s).
  case_decide as Hu; [|lia]. subst u.
  rewrite len_cons, Z.add_comm, fill_succ by done. f_equal. apply IH. lia.
Qed.

Lemma walk_fill_equal_inv a b cmp ins k :
  0 ≤ k →
  ∀ x y pos,
    walk a b cmp ins (fill k Equal) (x, y) = Some pos →
    pos = (x + k, y + k)
    ∧ ∀ j, 0 ≤ j < k →
           x + j < len a ∧ y + j < len b
           ∧ cmp (get a (x + j)) (get b (y + j)) = true.
Proof.
  intros Hk. pattern k. apply natlike_ind; [| |done].
  - intros x y pos H. simpl in H. injection H as <-.
    split; [f_equal; lia | intros; lia].
  - clear k Hk. intros k Hk IH x y pos. unfold Z.succ.
    rewrite fill_succ by done. simpl. unfold walk_step. simpl.
    destruct (Z.ltb_spec x (len a)); [|done].
    destruct (Z.ltb_spec y (len b)); [|done].
    destruct (cmp (get a x) (get b y)) eqn:E; [|done]. simpl.
    intros [-> Hall]%IH. split; [f_equal; lia|].
    intros j Hj. destruct (decide (j = 0)) as [->|].
    + by rewrite !Z.add_0_r.
    + destruct (Hall (j - 1) ltac:(lia)) as (? & ? & Hc).
      replace (x + 1 + (j - 1)) with (x + j) in * by lia.
      replace (y + 1 + (j - 1)) with (y + j) in * by lia. done.
Qed.

Lemma diff_counts a b cmp s :
  diff a b cmp = Some s →
  count Equal s + count Delete s = len a
  ∧ count Equal s + count Insert s = len b.
Proof.
  intros Hs. destruct (diff_walk a b cmp) as (s' & Hs' & Hw).
  rewrite Hs in Hs'. injection Hs' as <-.
  pose proof (walk_diag a b _ Insert Delete s ltac:(done) ltac:(done)
                ltac:(done) ltac:(intros []; auto) _ _ Hw) as [Hx Hy].
  simpl in Hx, Hy. lia.
Qed.

Lemma diff_to_empty a cmp : diff a [] cmp = Some (fill (len a) Delete).
Proof.
  destruct (diff_total a [] cmp) as [s Hs]. rewrite Hs. f_equal.
  destruct (diff_counts _ _ _ _ Hs) as [Ha Hb]. rewrite len_nil in Hb.
  pose proof (count_nonneg Equal s). pose proof (count_nonneg Insert s).
  pose proof (count_total s).
  rewrite (count_all_fill Delete s) by lia. f_equal. lia.
Qed.

Lemma diff_from_empty b cmp : diff [] b cmp = Some (fill (len b) Insert).
Proof.
  destruct (diff_total [] b cmp) as [s Hs]. rewrite Hs. f_equal.
  destruct (diff_counts _ _ _ _ Hs) as [Ha Hb]. rewrite len_nil in Ha.
  pose proof (count_nonneg Equal s). pose proof (count_nonneg Delete s).
  pose proof (count_total s).
  rewrite (count_all_fill Insert s) by lia. f_equal. lia.
Qed.

Lemma diffToChanges_all_delete h output :
  0 < h → diffToChanges (fill h Delete) output = [CDelete 0 h].
Proof.
  intros Hh. unfold diffToChanges. by rewrite delete_run.
Qed.

Lemma diffToChanges_all_insert (output : list value) :
  output ≠ [] →
  diffToChanges (fill (len output) Insert) output = [CInsert 0 output].
Proof.
  intros Hne. pose proof (len_nonneg output).
  assert (0 < len output).
  { destruct output; [done|]. rewrite len_cons. pose proof (len_nonneg output).
    lia. }
  unfold diffToChanges. rewrite insert_run by done. simpl.
  rewrite get_seqZ_slice by lia. unfold len. rewrite Nat2Z.id. simpl.
  by rewrite take_ge.
Qed.

Lemma getChanges_from_empty (b : list value) :
  getChanges [] b
  = Some (match b with [] => [] | _ :: _ => [CInsert 0 b] end).
Proof.
  unfold getChanges. rewrite diff_from_empty. simpl. f_equal.
  destruct b as [|x b]; [done|]. by apply diffToChanges_all_insert.
Qed.

Lemma getChanges_to_empty (a : list value) :
  getChanges a []
  = Some (match a with [] => [] | _ :: _ => [CDelete 0 (len a)] end).
Proof.
  unfold getChanges. rewrite diff_to_empty. simpl. f_equal.
  destruct a as [|x a]; [done|]. apply diffToChanges_all_delete.
  rewrite len_cons. pose proof (len_nonneg a). lia.
Qed.

(** ** Streams without edits *)

Lemma fastDiff_no_edits a b cmp :
  edits (fastDiff a b cmp true) = 0 → findFirstDifferenceIndex a b cmp = -1.
Proof.
  unfold fastDiff.
  pose proof (findChangeBoundaryIndexes_spec a b cmp) as H. simpl in H.
  set (ci := findChangeBoundaryIndexes a b cmp) in *.
  pose proof (len_nonneg a). pose proof (len_nonneg b).
  destruct H as [(_ & _ & _ & Hr) | (l & Hf & Hl & Hla & Hlb & Hlt & _ & Hold
                                     & Hnew & _)]; [done|].
  rewrite changeIndexesToAtomicChanges_runs by lia. rewrite Hold, Hnew.
  unfold edits. rewrite !count_app, !count_fill by lia.
  repeat case_decide; try done. lia.
Qed.

Lemma walk_equal_same (a b : list value) cmp k :
  sound cmp → 0 ≤ k →
  walk a b cmp Insert (fill k Equal) (0, 0) = Some (len a, len b) → a = b.
Proof.
  intros Hcmp Hk Hw.
  apply (walk_fill_equal_inv a b cmp Insert k Hk) in Hw as [Hpos Hall].
  injection Hpos as Ha Hb. simpl in *.
  assert (take (Z.to_nat (len a)) a = take (Z.to_nat (len a)) b) as Hp.
  { apply common_prefix; [lia|lia|]. intros j Hj.
    destruct (Hall j ltac:(lia)) as (_ & _ & Hc). by apply Hcmp. }
  by rewrite !take_ge in Hp by (unfold len in *; lia).
Qed.

(** ** The labels do not steer the search *)

Section relabel.
Variables (a b : list value) (cmp : comparator) (i d : atomic).
Variable f : atomic → atomic.
Hypothesis f_equal_token : f Equal = Equal.

Lemma snake_loop_relabel fuel :
  ∀ x y script,
    snake_loop a b cmp fuel x y (f <$> script)
    = (let '(y', script') := snake_loop a b cmp fuel x y script in
       (y', f <$> script')).
Proof.
  induction fuel as [|fuel IH]; intros x y script; simpl; [done|].
  destruct ((x <? len a) && (y <? len b) && cmp (get a x) (get b y)); [|done].
  rewrite <- IH. rewrite fmap_app. simpl. by rewrite f_equal_token.
Qed.

Lemma visit_relabel st k :
  visit a b cmp (f i) (f d) (relabel_state f st) k
  = relabel_state f (visit a b cmp i d st k).
Proof.
  unfold visit, snake, relabel_state. simpl.
  set (y1 := default (-1) (fp st !! (k - 1)) + 1).
  set (y2 := default (-1) (fp st !! (k + 1))).
  set (F := λ script : list atomic, f <$> script).
  set (dir := if y2 <? y1 then -1 else 1).
  set (tok := if y2 <? y1 then i else d).
  assert ((if y2 <? y1 then f i else f d) = f tok) as ->
    by (unfold tok; by destruct (y2 <? y1)).
  set (es1 := match es st !! (k + dir) with
              | Some s => <[k := s]> (es st)
              | None => es st
              end).
  assert (match (F <$> es st) !! (k + dir) with
          | Some s => <[k := s]> (F <$> es st)
          | None => F <$> es st
          end = F <$> es1) as ->.
  { unfold es1. rewrite lookup_fmap.
    destruct (es st !! (k + dir)); simpl; [by rewrite fmap_insert | done]. }
  set (es2 := match es1 !! k with
              | Some _ => es1
              | None => <[k := []]> es1
              end).
  assert (match (F <$> es1) !! k with
          | Some _ => F <$> es1
          | None => <[k := []]> (F <$> es1)
          end = F <$> es2) as ->.
  { unfold es2. rewrite lookup_fmap.
    destruct (es1 !! k); simpl; [done | by rewrite fmap_insert]. }
  assert (default [] ((F <$> es2) !! k) ++ [f tok]
          = f <$> (default [] (es2 !! k) ++ [tok])) as ->.
  { rewrite lookup_fmap, fmap_app. by destruct (es2 !! k). }
  rewrite snake_loop_relabel.
  destruct (snake_loop a b cmp _ _ _ _) as [y' s']. simpl.
  by rewrite fmap_insert.
Qed.

Lemma foldl_visit_relabel ks :
  ∀ st,
    foldl (visit a b cmp (f i) (f d)) (relabel_state f st) ks
    = relabel_state f (foldl (visit a b cmp i d) st ks).
Proof.
  induction ks as [|k ks IH]; intros st; simpl; [done|].
  by rewrite visit_relabel, IH.
Qed.

Lemma round_relabel p st :
  round a b cmp (f i) (f d) p (relabel_state f st)
  = relabel_state f (round a b cmp i d p st).
Proof.
  unfold round. cbv zeta. by rewrite !foldl_visit_relabel, visit_relabel.
Qed.

Lemma search_relabel fuel :
  ∀ p st,
    search a b cmp (f i) (f d) fuel p (relabel_state f st)
    = relabel_state f <$> search a b cmp i d fuel p st.
Proof.
  induction fuel as [|fuel IH]; intros p st; simpl; [done|].
  rewrite round_relabel. simpl.
  destruct (bool_decide (fp (round a b cmp i d p st) !! (len b - len a)
                         = Some (len b))); [done | apply IH].
Qed.

Lemma search_result_relabel st :
  search_result a b (relabel_state f st)
  = (λ script : list atomic, f <$> script) <$> search_result a b st.
Proof.
  unfold search_result, relabel_state. cbv zeta. simpl.
  rewrite lookup_fmap. destruct (es st !! (len b - len a)) as [s|]; [|done].
  simpl. f_equal. unfold slice_from, len. by rewrite length_fmap, fmap_drop.
Qed.
End relabel.

Lemma relabel_initial f : relabel_state f initial_search = initial_search.
Proof. unfold relabel_state, initial_search. simpl. by rewrite fmap_empty. Qed.

Lemma swap_label_involutive t : swap_label (swap_label t) = t.
Proof. by destruct t. Qed.

Lemma diff_swap_longer a b cmp :
  exceeds_thresholds (len a) (len b) = false → len b < len a →
  diff a b cmp = (λ s : list atomic, swap_label <$> s) <$> diff b a cmp.
Proof.
  intros Hsmall Hlt. unfold diff, diff_fuel. cbv zeta.
  assert (exceeds_thresholds (len b) (len a) = false) as Hsmall'.
  { unfold exceeds_thresholds in *. rewrite (Z.add_comm (len b)).
    destruct (200 <? len a), (200 <? len b); done. }
  rewrite Hsmall, Hsmall'.
  rewrite (proj2 (Z.ltb_lt _ _) Hlt), (proj2 (Z.ltb_ge _ _)) by lia.
  rewrite (Nat.min_comm (length b)).
  pose proof (search_relabel b a cmp Insert Delete swap_label eq_refl
                (S (Nat.min (length a) (length b))) 0 initial_search) as H.
  rewrite relabel_initial in H. simpl swap_label in H. rewrite H.
  destruct (search b a cmp Insert Delete _ 0 initial_search) as [st|];
    [|done].
  simpl. by rewrite search_result_relabel.
Qed.

(** ** What a patch list from the compactor looks like *)

Lemma inserted_app cs1 cs2 :
  inserted (cs1 ++ cs2) = inserted cs1 + inserted cs2.
Proof.
  induction cs1 as [|[? ?|? ?] cs1 IH]; simpl; [done| |done].
  unfold inserted in *. simpl. rewrite IH. lia.
Qed.

Lemma deleted_app cs1 cs2 :
  deleted (cs1 ++ cs2) = deleted cs1 + deleted cs2.
Proof.
  induction cs1 as [|[? ?|? ?] cs1 IH]; simpl; [done|done|].
  unfold deleted in *. simpl. rewrite IH. lia.
Qed.

(** What the pending operation will add to the patch list. *)
Lemma pushLast_changes c :
  changes (pushLast c)
  = changes c ++ match lastOperation c with Some op => [op] | None => [] end.
Proof.
  unfold pushLast. destruct (lastOperation c); simpl; [done|].
  by rewrite app_nil_r.
Qed.

Lemma diffToChanges_step_totals output c t :
  inserted (changes (pushLast (diffToChanges_step output c t)))
  = inserted (changes (pushLast c)) + (if decide (t = Insert) then 1 else 0)
  ∧ deleted (changes (pushLast (diffToChanges_step output c t)))
    = deleted (changes (pushLast c)) + (if decide (t = Delete) then 1 else 0).
Proof.
  destruct c as [chs idx [[i vs|i h]|]], t; simpl; unfold pushLast; simpl;
    rewrite ?inserted_app, ?deleted_app, ?app_nil_r;
    unfold inserted, deleted; simpl; rewrite ?len_app;
    change (len [get output idx]) with 1; lia.
Qed.

Lemma diffToChanges_totals_from output s :
  ∀ c,
    inserted (changes (pushLast (foldl (diffToChanges_step output) c s)))
    = inserted (changes (pushLast c)) + count Insert s
    ∧ deleted (changes (pushLast (foldl (diffToChanges_step output) c s)))
      = deleted (changes (pushLast c)) + count Delete s.
Proof.
  induction s as [|t s IH]; intros c; simpl.
  - rewrite !count_nil. lia.
  - destruct (IH (diffToChanges_step output c t)) as [-> ->].
    destruct (diffToChanges_step_totals output c t) as [-> ->].
    rewrite !count_cons. lia.
Qed.

Lemma patch_end_snoc lo cs op :
  patch_end lo (cs ++ [op]) = patch_end (patch_end lo cs) [op].
Proof. unfold patch_end. by rewrite foldl_app. Qed.

Lemma ordered_snoc output cs op :
  ∀ lo,
    ordered output lo (cs ++ [op])
    ↔ ordered output lo cs ∧ ordered output (patch_end lo cs) [op].
Proof.
  induction cs as [|[i vs|i h] cs IH]; intros lo; simpl.
  - tauto.
  - rewrite IH. unfold patch_end. simpl. tauto.
  - rewrite IH. unfold patch_end. simpl. tauto.
Qed.

Lemma ordered_end output cs : ∀ lo, ordered output lo cs → lo ≤ patch_end lo cs.
Proof.
  induction cs as [|[i vs|i h] cs IH]; intros lo H; simpl in *.
  - unfold patch_end. simpl. lia.
  - destruct H as (Hlo & _ & Hrest). apply IH in Hrest.
    unfold patch_end in *. simpl. pose proof (len_nonneg vs). lia.
  - destruct H as (Hlo & Hrest). apply IH in Hrest.
    unfold patch_end in *. simpl. lia.
Qed.

Lemma compactor_ordered_flush output c :
  compactor_ordered output c → compactor_ordered output (pushLast c).
Proof.
  intros (Hord & Hop). unfold compactor_ordered.
  rewrite pushLast_lastOperation, pushLast_index, pushLast_changes.
  destruct (lastOperation c) as [[i vs|i h]|] eqn:E; simpl.
  - destruct Hop as (Hle & Hidx & Hvs). rewrite ordered_snoc, patch_end_snoc.
    simpl. repeat split; try done; lia.
  - destruct Hop as (Hle & Hidx). rewrite ordered_snoc, patch_end_snoc.
    simpl. repeat split; try done; lia.
  - by rewrite app_nil_r.
Qed.

Lemma compactor_ordered_step output c t :
  compactor_ordered output c →
  compactor_ordered output (diffToChanges_step output c t).
Proof.
  intros Hc. pose proof (compactor_ordered_flush output c Hc) as Hf.
  unfold compactor_ordered in Hf.
  rewrite pushLast_lastOperation, pushLast_index in Hf.
  destruct Hf as [Hford Hfend]. destruct Hc as [Hord Hop].
  unfold compactor_ordered. destruct t; simpl.
  - rewrite pushLast_lastOperation, pushLast_index. split; [done|]. lia.
  - destruct (lastOperation c) as [[i vs|i h]|] eqn:E; simpl.
    + destruct Hop as (Hle & Hidx & Hvs). split; [done|]. split; [done|].
      rewrite len_app. change (len [get output (index c)]) with 1.
      split; [lia|]. rewrite get_seqZ_snoc by apply len_nonneg.
      rewrite <- Hvs. by rewrite Hidx.
    + by rewrite pushLast_index.
    + by rewrite pushLast_index.
  - destruct (lastOperation c) as [[i vs|i h]|] eqn:E; simpl.
    + rewrite pushLast_index. done.
    + done.
    + rewrite pushLast_index. done.
Qed.

Lemma diffToChanges_ordered_from output s :
  ∀ c, compactor_ordered output c →
       compactor_ordered output
         (pushLast (foldl (diffToChanges_step output) c s)).
Proof.
  induction s as [|t s IH]; intros c Hc; simpl.
  - by apply compactor_ordered_flush.
  - by apply IH, compactor_ordered_step.
Qed.

(** ** The turns of the loop *)

Lemma diff_fuel_turns a b cmp :
  exceeds_thresholds (len a) (len b) = false →
  ∃ s, ∀ fuel : nat,
    diff_fuel fuel a b cmp
    = if decide (edits s - Z.abs (len b - len a) < 2 * Z.of_nat fuel)
      then Some s else None.
Proof.
  intros Hsmall. unfold diff_fuel. cbv zeta. rewrite Hsmall.
  destruct (Z.ltb_spec (len b) (len a)) as [Hlt|Hge].
  - destruct (search_rounds_initial b a cmp Delete Insert ltac:(by right)
                ltac:(lia)) as (st' & s & Hres & Hw & Hall).
    pose proof (edits_corner b a cmp Delete Insert ltac:(by right) s Hw).
    exists s. intros fuel. rewrite Hall.
    repeat case_decide; simpl; try done; lia.
  - destruct (search_rounds_initial a b cmp Insert Delete ltac:(by left)
                ltac:(lia)) as (st' & s & Hres & Hw & Hall).
    pose proof (edits_corner a b cmp Insert Delete ltac:(by left) s Hw).
    exists s. intros fuel. rewrite Hall.
    repeat case_decide; simpl; try done; lia.
Qed.

(** ** Strings as arrays *)

Lemma join_of_string (s : string) : join (of_string s) = s.
Proof. induction s as [|c s IH]; simpl; [done|]. by rewrite IH. Qed.

Lemma applyLocalChanges_total c : is_Some (applyLocalChanges c).
Proof.
  destruct (keypressed c) eqn:Hk.
  - destruct (applyLocalChanges_commits c Hk) as (patch & _ & ->). done.
  - unfold applyLocalChanges. by rewrite Hk.
Qed.

(** ** The timers of the page *)

Lemma clearTimeout_one_timer pg :
  one_timer pg → clearTimeout (timeout pg) (timers pg) = [].
Proof.
  intros [H|(h & Ht & H)]; rewrite H.
  - by destruct (timeout pg).
  - rewrite Ht. simpl. rewrite filter_cons, decide_False; [done|].
    by intros [].
Qed.

Lemma page_step_total pg e : is_Some (page_step pg e).
Proof.
  destruct e as [content| |h|incoming]; simpl; try done.
  - case_bool_decide; [|done].
    by destruct (applyLocalChanges_total (page_client pg)) as [c ->].
  - unfold on_content_change. cbv zeta.
    match goal with |- context [applyLocalChanges ?c] =>
      destruct (applyLocalChanges_total c) as [c' ->] end.
    done.
Qed.

Lemma applyLocalChanges_keypressed c c' :
  applyLocalChanges c = Some c' → keypressed c' = false.
Proof.
  unfold applyLocalChanges. destruct (keypressed c) eqn:Hk.
  - destruct (getChanges _ _); simpl; [|done]. by intros [= <-].
  - by intros [= <-].
Qed.

Lemma page_step_invariant pg e pg' :
  one_timer pg → keystroke_covered pg → page_step pg e = Some pg' →
  one_timer pg' ∧ keystroke_covered pg'.
Proof.
  intros Hone Hcov. unfold keystroke_covered in *.
  destruct e as [content| |h|incoming]; simpl.
  - intros [= <-]. done.
  - intros [= <-]. unfold keypress_listener, one_timer. simpl.
    rewrite clearTimeout_one_timer by done. split; [|done].
    right. by eexists.
  - case_bool_decide as Hin; [|by intros [= <-]].
    destruct (applyLocalChanges (page_client pg)) as [c|] eqn:E; [|done].
    simpl. intros [= <-]. unfold one_timer. simpl.
    rewrite (applyLocalChanges_keypressed _ _ E). split; [|done].
    left. destruct Hone as [H0|(h0 & _ & H0)]; rewrite H0 in *.
    + done.
    + apply list_elem_of_singleton in Hin as ->.
      rewrite filter_cons, decide_False; [done|]. by intros [].
  - unfold on_content_change. cbv zeta.
    match goal with |- context [applyLocalChanges ?c] =>
      destruct (applyLocalChanges c) as [c'|] eqn:E end; [|done].
    simpl. intros [= <-]. unfold one_timer. simpl.
    by rewrite (applyLocalChanges_keypressed _ _ E).
Qed.

Lemma page_run_invariant es :
  ∀ pg, one_timer pg → keystroke_covered pg →
        ∃ pg', page_run pg es = Some pg'
               ∧ one_timer pg' ∧ keystroke_covered pg'.
Proof.
  induction es as [|e es IH]; intros pg Hone Hcov; simpl.
  - by exists pg.
  - destruct (page_step_total pg e) as [pg1 Hstep]. rewrite Hstep. simpl.
    destruct (page_step_invariant _ _ _ Hone Hcov Hstep). by apply IH.
Qed.

Lemma typing_run es :
  ∀ pg pg',
    Forall (λ e, is_typing e = true) es → page_run pg es = Some pg' →
    syncValue (page_client pg') = syncValue (page_client pg)
    ∧ emitted (page_client pg') = emitted (page_client pg)
    ∧ (keypressed (page_client pg) = true ∨ Keypress ∈ es →
       keypressed (page_client pg') = true).
Proof.
  induction es as [|e es IH]; intros pg pg' Hall; simpl.
  - intros [= <-]. split; [done|]. split; [done|].
    intros [?|?%elem_of_nil]; done.
  - apply Forall_cons in Hall as [He Hall].
    destruct e as [content| | |]; try done; simpl; intros Hrun;
      destruct (IH _ _ Hall Hrun) as (Hs & Hm & Hk); simpl in *.
    + split; [done|]. split; [done|]. intros [?|Hin]; apply Hk; [by left|].
      apply elem_of_cons in Hin as [?|?]; [done | by right].
    + split; [done|]. split; [done|]. intros _. apply Hk. by left.
Qed.

Lemma page_run_total evs : ∀ pg, is_Some (page_run pg evs).
Proof.
  induction evs as [|e evs IH]; intros pg; simpl; [done|].
  destruct (page_step_total pg e) as [pg1 ->]. simpl. apply IH.
Qed.

Lemma typing_run_timers evs :
  ∀ pg pg',
    Forall (λ e, is_typing e = true) evs → one_timer pg →
    page_run pg evs = Some pg' →
    one_timer pg' ∧ (timers pg ≠ [] ∨ Keypress ∈ evs → timers pg' ≠ []).
Proof.
  induction evs as [|e evs IH]; intros pg pg' Hall Hone; simpl.
  - intros [= <-]. split; [done|]. intros [?|?%elem_of_nil]; done.
  - apply Forall_cons in Hall as [He Hall].
    destruct e as [content| | |]; try done; simpl; intros Hrun.
    + apply IH in Hrun as [H1 H2]; [|done|exact Hone].
      split; [done|]. intros [?|Hin]; apply H2; [by left|].
      apply elem_of_cons in Hin as [?|?]; [done | by right].
    + assert (one_timer (keypress_listener pg)) as Hone'.
      { unfold keypress_listener, one_timer. simpl.
        rewrite clearTimeout_one_timer by done. right. by eexists. }
      destruct (IH _ _ Hall Hone' Hrun) as [H1 H2]. split; [done|].
      intros _. apply H2. by left.
Qed.

(** ** The size of a patch *)

Lemma diffToChanges_totals s output :
  inserted (diffToChanges s output) = count Insert s
  ∧ deleted (diffToChanges s output) = count Delete s.
Proof.
  unfold diffToChanges.
  by destruct (diffToChanges_totals_from output s (mkCompactor [] 0 None))
    as [-> ->].
Qed.

Lemma nontrivial_size cs :
  Forall nontrivial cs →
  len cs ≤ inserted cs + deleted cs ∧ 0 ≤ inserted cs ∧ 0 ≤ deleted cs.
Proof.
  induction 1 as [|[i vs|i h] cs Hop _ IH]; [done| |];
    rewrite len_cons; unfold inserted, deleted in *; simpl in *.
  - destruct vs as [|v vs]; [done|]. rewrite len_cons.
    pose proof (len_nonneg vs). lia.
  - lia.
Qed.

(** * Further theorems *)

(** ** fastdiff.js: the boundary engine *)

(** X1. The two kinds of result of [fastDiff] agree for all inputs and
    every comparator: compacting the atomic stream over the new array
    gives the change set that the compacted mode builds directly. *)
Theorem fastDiff_modes_agree (a b : list value) (cmp : comparator) :
  diffToChanges (fastDiff a b cmp true) b = fastDiff a b cmp false.
Proof. apply fastDiff_compact. Qed.

(** X2. For a comparator that accepts identical values only, the change
    set of [fastDiff] turns [a] into [b]. *)
Theorem fastDiff_patch_round_trip (a b : list value) (cmp : comparator) :
  sound cmp → applyChanges a (fastDiff a b cmp false) = b.
Proof. apply fastDiff_round_trip. Qed.

Lemma fastDiff_patch_round_trip_witness :
  applyChanges (of_string "hello world")
    (fastDiff (of_string "hello world") (of_string "hello there world")
       strict_eq false)
  = of_string "hello there world".
Proof.
  apply (fastDiff_patch_round_trip (of_string "hello world")
           (of_string "hello there world") strict_eq).
  apply strict_eq_sound.
Defined.



(** X4. What [findFirstDifferenceIndex] returns, for every comparator:
    [-1] exactly when the arrays have the same length and every position
    holds a value in both and passes [cmp]; otherwise the least position
    that fails, which lies below the greater length. With [===] the
    result is [-1] exactly for identical arrays that hold neither
    [undefined] nor [NaN]. *)
Theorem findFirstDifferenceIndex_contract (arr1 arr2 : list value)
    (cmp : comparator) :
  (findFirstDifferenceIndex arr1 arr2 cmp = -1
   ↔ len arr1 = len arr2
     ∧ ∀ j, 0 ≤ j < len arr1 → agree arr1 arr2 cmp j = true)
  ∧ (findFirstDifferenceIndex arr1 arr2 cmp ≠ -1 →
     0 ≤ findFirstDifferenceIndex arr1 arr2 cmp
         < Z.max (len arr1) (len arr2)
     ∧ agree arr1 arr2 cmp (findFirstDifferenceIndex arr1 arr2 cmp) = false
     ∧ ∀ j, 0 ≤ j < findFirstDifferenceIndex arr1 arr2 cmp →
            agree arr1 arr2 cmp j = true)
  ∧ (findFirstDifferenceIndex arr1 arr2 strict_eq = -1
     ↔ arr1 = arr2 ∧ (VUndefined ∉ arr1) ∧ (VNaN ∉ arr1)).
Proof.
  pose proof (findFirstDifferenceIndex_spec arr1 arr2 cmp) as H. simpl in H.
  set (r := findFirstDifferenceIndex arr1 arr2 cmp) in *.
  split; [|split; [|apply findFirstDifferenceIndex_identical]].
  - split.
    + intros Hr. destruct H as [(_ & ? & ?)|(? & _)]; [done | lia].
    + intros [Hlen Hall].
      destruct H as [(? & _)|(? & ? & ? & Hlt & _ & Hstop)]; [done|].
      rewrite Hall in Hstop by lia. done.
  - intros Hr. destruct H as [(? & _)|(? & ? & ? & ? & ? & ?)]; [done|].
    split; [lia | done].
Qed.

(** ** fastdiff.js: [diff] *)

(** X5. Empty inputs, of any size on the other side and for every
    comparator: against the empty array the stream is all deletes, from
    the empty array all inserts; the patch is then one delete of the
    whole old array at index 0, or one insert of the whole new array at
    index 0, and no operation at all when both are empty. *)
Theorem diff_empty_inputs (a b : list value) (cmp : comparator) :
  diff a [] cmp = Some (fill (len a) Delete)
  ∧ diff [] b cmp = Some (fill (len b) Insert)
  ∧ getChanges a []
    = Some (match a with [] => [] | _ :: _ => [CDelete 0 (len a)] end)
  ∧ getChanges [] b
    = Some (match b with [] => [] | _ :: _ => [CInsert 0 b] end).
Proof.
  split; [apply diff_to_empty|]. split; [apply diff_from_empty|].
  split; [apply getChanges_to_empty | apply getChanges_from_empty].
Qed.

(** X6. With [===], the stream of [diff] is free of insert and delete
    tokens exactly when the two arrays are identical, hold no [NaN] and,
    for inputs beyond the thresholds, hold no [undefined] element. *)
Theorem diff_no_edits_iff (a b : list value) :
  ∃ s, diff a b strict_eq = Some s
       ∧ (edits s = 0
          ↔ a = b ∧ (VNaN ∉ a)
            ∧ (exceeds_thresholds (len a) (len b) = false
               ∨ VUndefined ∉ a)).
Proof.
  destruct (diff_walk a b strict_eq) as (s & Hs & Hw).
  exists s. split; [done|]. split.
  - intros He. destruct (exceeds_thresholds (len a) (len b)) eqn:E.
    + unfold diff, diff_fuel in Hs. cbv zeta in Hs. rewrite E in Hs.
      injection Hs as <-. apply fastDiff_no_edits in He.
      apply findFirstDifferenceIndex_identical in He as (-> & ? & ?).
      split; [done|]. split; [done | by right].
    + rewrite (edits_zero_fill s He) in Hw.
      rewrite (walk_ext _ _ _ strict_eq) in Hw by apply oriented_strict_eq.
      pose proof (walk_fill_equal_inv a b strict_eq Insert (len s)
                    (len_nonneg s) 0 0 _ Hw) as [Hpos Hall].
      injection Hpos as Ha Hb.
      assert (a = b) as <-.
      { apply (walk_equal_same a b strict_eq (len s));
          [apply strict_eq_sound | apply len_nonneg | done]. }
      split; [done|]. split; [|by left].
      intros (j & Hj & Hg)%elem_of_get.
      destruct (Hall j ltac:(lia)) as (_ & _ & Hc).
      destruct (strict_eq_not_NaN _ _ Hc) as [Hn _].
      rewrite Z.add_0_l in Hn. by rewrite Hg in Hn.
  - intros (<- & Hnan & Hok). rewrite (diff_same a Hok Hnan) in Hs.
    injection Hs as <-.
    unfold edits. rewrite !count_fill by apply len_nonneg.
    by repeat case_decide.
Qed.

(** X7. Every comparator, within the thresholds: the stream of [diff] is
    a path through the edit graph of [a] and [b] from the origin to the
    far corner, whose equal tokens stand where the comparator accepts the
    two elements, and no such path has fewer insert and delete tokens.
    The comparator is applied as [cmp(a[x], b[y])] when [a] is not the
    longer array and as [cmp(b[y], a[x])] when it is: the swap of the
    arrays exchanges its arguments. *)
Theorem diff_shortest_path (a b : list value) (cmp : comparator) :
  exceeds_thresholds (len a) (len b) = false →
  ∃ s,
    diff a b cmp = Some s
    ∧ walk a b (oriented cmp a b) Insert s (0, 0) = Some (len a, len b)
    ∧ (∀ s', walk a b (oriented cmp a b) Insert s' (0, 0)
             = Some (len a, len b) →
             edits s ≤ edits s')
    ∧ ∀ u v, oriented cmp a b u v
             = if len b <? len a then cmp v u else cmp u v.
Proof.
  intros Hsmall.
  destruct (diff_fuel_script _ a b cmp Hsmall (min_fuel a b))
    as (s & Hs & Hw & Hmin).
  exists s. split; [done|]. split; [done|]. split; [done|].
  intros u v. unfold oriented. by destruct (len b <? len a).
Qed.

Lemma diff_shortest_path_witness :
  ∃ s,
    diff (of_string "abc") (of_string "ac") (λ u v, strict_eq u (VStr "a"))
    = Some s
    ∧ walk (of_string "abc") (of_string "ac")
        (oriented (λ u v, strict_eq u (VStr "a")) (of_string "abc")
           (of_string "ac")) Insert s (0, 0)
      = Some (len (of_string "abc"), len (of_string "ac"))
    ∧ (∀ s', walk (of_string "abc") (of_string "ac")
               (oriented (λ u v, strict_eq u (VStr "a")) (of_string "abc")
                  (of_string "ac")) Insert s' (0, 0)
             = Some (len (of_string "abc"), len (of_string "ac")) →
             edits s ≤ edits s')
    ∧ ∀ u v, oriented (λ u v, strict_eq u (VStr "a")) (of_string "abc")
               (of_string "ac") u v
             = if len (of_string "ac") <? len (of_string "abc")
               then strict_eq v (VStr "a") else strict_eq u (VStr "a").
Proof.
  exact (diff_shortest_path (of_string "abc") (of_string "ac")
           (λ u v, strict_eq u (VStr "a")) eq_refl).
Defined.

(** X8. The turns of the [do] loop, within the thresholds and for every
    comparator: the loop ends, and it ends in exactly
    [(e - |len b - len a|) / 2 + 1] turns, where [e] is the number of
    insert and delete tokens of the stream returned. Given fewer turns
    it has not ended; given that many or more it returns the same
    stream. *)
Theorem diff_loop_turns (fuel : nat) (a b : list value) (cmp : comparator) :
  exceeds_thresholds (len a) (len b) = false →
  ∃ s, diff a b cmp = Some s
       ∧ edits s - Z.abs (len b - len a)
         ≤ 2 * Z.min (len a) (len b)
       ∧ diff_fuel fuel a b cmp
         = if decide (edits s - Z.abs (len b - len a) < 2 * Z.of_nat fuel)
           then Some s else None.
Proof.
  intros Hsmall. destruct (diff_fuel_turns a b cmp Hsmall) as (s & Hall).
  destruct (diff_walk a b cmp) as (s' & Hs' & Hw). rewrite Hsmall in Hw.
  pose proof Hs' as Hs. unfold diff in Hs. rewrite Hall in Hs.
  case_decide as Hlt; [|done]. injection Hs as ->.
  exists s'. split; [done|]. split; [|apply Hall].
  pose proof (walk_diag a b _ Insert Delete s' ltac:(done) ltac:(done)
                ltac:(done) ltac:(intros []; auto) _ _ Hw) as [Hx Hy].
  simpl in Hx, Hy. pose proof (count_nonneg Equal s'). unfold edits. lia.
Qed.

Lemma diff_loop_turns_witness :
  ∃ s, diff (of_string "abcabba") (of_string "cbabac") strict_eq = Some s
       ∧ edits s - Z.abs (len (of_string "cbabac")
                          - len (of_string "abcabba"))
         ≤ 2 * Z.min (len (of_string "abcabba")) (len (of_string "cbabac"))
       ∧ diff_fuel 2 (of_string "abcabba") (of_string "cbabac") strict_eq
         = if decide (edits s - Z.abs (len (of_string "cbabac")
                                       - len (of_string "abcabba"))
                      < 2 * Z.of_nat 2)
           then Some s else None.
Proof.
  exact (diff_loop_turns 2 (of_string "abcabba") (of_string "cbabac")
           strict_eq eq_refl).
Defined.

(** X9. Arrays of different lengths, within the thresholds: exchanging
    the two arrays exchanges the insert and delete tokens of the stream
    and changes nothing else, for every comparator (which is called with
    the shorter array's element first either way). *)
Theorem diff_swap_symmetry (a b : list value) (cmp : comparator) :
  exceeds_thresholds (len a) (len b) = false → len a ≠ len b →
  diff a b cmp = (λ s : list atomic, swap_label <$> s) <$> diff b a cmp.
Proof.
  intros Hsmall Hne.
  destruct (Z.lt_trichotomy (len a) (len b)) as [Hlt|[?|Hlt]]; [|done|].
  - assert (exceeds_thresholds (len b) (len a) = false) as Hsmall'.
    { unfold exceeds_thresholds in *. rewrite (Z.add_comm (len b)).
      destruct (200 <? len a), (200 <? len b); done. }
    rewrite (diff_swap_longer b a cmp Hsmall' Hlt).
    destruct (diff a b cmp) as [s|]; simpl; [|done]. f_equal.
    rewrite <- list_fmap_compose. rewrite <- (list_fmap_id s) at 1.
    apply list_fmap_ext. intros _ t _. simpl.
    by rewrite swap_label_involutive.
  - by apply diff_swap_longer.
Qed.

Lemma diff_swap_symmetry_witness :
  diff (of_string "kitten") (of_string "sitting") strict_eq
  = (λ s : list atomic, swap_label <$> s)
      <$> diff (of_string "sitting") (of_string "kitten") strict_eq.
Proof.
  apply (diff_swap_symmetry (of_string "kitten") (of_string "sitting")
           strict_eq); [reflexivity | by vm_compute].
Defined.

(** X10. Within the thresholds and for a comparator that does not depend
    on the order of its arguments, the stream of [diff] holds no more
    insert and delete tokens than the stream the boundary engine gives
    for the same inputs. *)
Theorem diff_no_worse_than_fastDiff (a b : list value) (cmp : comparator) :
  (∀ u v, cmp u v = cmp v u) →
  exceeds_thresholds (len a) (len b) = false →
  ∃ s, diff a b cmp = Some s ∧ edits s ≤ edits (fastDiff a b cmp true).
Proof.
  intros Hsym Hsmall.
  destruct (diff_fuel_script _ a b cmp Hsmall (min_fuel a b))
    as (s & Hs & _ & Hmin).
  exists s. split; [done|]. apply Hmin.
  rewrite (walk_ext _ _ _ cmp); [apply fastDiff_walk|].
  intros u v. unfold oriented. destruct (len b <? len a); [|done].
  apply Hsym.
Qed.

Lemma diff_no_worse_than_fastDiff_witness :
  ∃ s, diff (of_string "abcabba") (of_string "cbabac") strict_eq = Some s
       ∧ edits s ≤ edits (fastDiff (of_string "abcabba")
                            (of_string "cbabac") strict_eq true).
Proof.
  apply (diff_no_worse_than_fastDiff (of_string "abcabba")
           (of_string "cbabac") strict_eq); [|reflexivity].
  apply strict_eq_sym.
Defined.

(** ** fastdiff.js: [diffToChanges] *)

(** X11. What the compactor keeps of a stream, for every stream and every
    new array: the values of the insert operations are as many as the
    insert tokens, the counts of the delete operations add up to the
    delete tokens, the operations come in the order of the new array (no
    operation starts before the one ahead of it ends), every insert
    carries the elements the new array holds at its positions, and the
    patch ends no further than the tokens that advance in the new array
    reach. *)
Theorem diffToChanges_conserves (s : list atomic) (output : list value) :
  inserted (diffToChanges s output) = count Insert s
  ∧ deleted (diffToChanges s output) = count Delete s
  ∧ ordered output 0 (diffToChanges s output)
  ∧ patch_end 0 (diffToChanges s output) ≤ count Equal s + count Insert s.
Proof.
  unfold diffToChanges.
  destruct (diffToChanges_totals_from output s (mkCompactor [] 0 None))
    as [Hi Hd].
  destruct (diffToChanges_ordered_from output s (mkCompactor [] 0 None))
    as [Hord Hend].
  { split; simpl; [done|]. unfold patch_end. simpl. lia. }
  rewrite pushLast_lastOperation, pushLast_index, diffToChanges_index
    in Hend. simpl in Hend.
  split; [exact Hi|]. split; [exact Hd|]. split; [done|]. lia.
Qed.

(** ** The client: the editing loop *)

(** X12. The test of [applyLocalChanges] never fails: with a keystroke
    pending the patch from the shadow copy to the snapshot is always
    emitted and the shadow copy becomes the snapshot; without one nothing
    changes. The branch that discards a patch is never taken. *)
Theorem applyLocalChanges_always_commits (c : client) :
  ∃ patch,
    getChanges (syncValue c) (of_string (editor c)) = Some patch
    ∧ applyChanges (syncValue c) patch = of_string (editor c)
    ∧ applyLocalChanges c
      = Some (if keypressed c
              then mkClient (of_string (editor c)) false (editor c)
                     (emitted c ++ [patch])
              else c).
Proof.
  destruct (round_trip_aux (syncValue c) (of_string (editor c)))
    as (patch & Hp & Hrt).
  exists patch. split; [done|]. split; [done|].
  destruct (keypressed c) eqn:Hk.
  - destruct (applyLocalChanges_commits c Hk) as (patch' & Hp' & ->).
    rewrite Hp in Hp'. by injection Hp' as <-.
  - unfold applyLocalChanges. by rewrite Hk.
Qed.

(** X13. Two participants with the same shadow copy: when one of them
    sends a pending keystroke and the other, with none pending, receives
    the message, the receiver's editor shows the sender's content, both
    shadow copies are that content, and the receiver sends nothing. *)
Theorem content_change_converges (c1 c2 : client) :
  keypressed c1 = true → keypressed c2 = false →
  syncValue c1 = syncValue c2 →
  ∃ patch c1' c2',
    applyLocalChanges c1 = Some c1'
    ∧ emitted c1' = emitted c1 ++ [patch]
    ∧ on_content_change patch c2 = Some c2'
    ∧ editor c2' = editor c1
    ∧ syncValue c2' = syncValue c1'
    ∧ syncValue c1' = of_string (editor c1)
    ∧ emitted c2' = emitted c2
    ∧ keypressed c2' = false.
Proof.
  intros Hk1 Hk2 Hsync.
  destruct (applyLocalChanges_commits c1 Hk1) as (patch & Hp & Hc1).
  destruct (round_trip_aux (syncValue c1) (of_string (editor c1)))
    as (patch' & Hp' & Hrt).
  rewrite Hp in Hp'. injection Hp' as <-.
  exists patch. eexists. eexists. split; [exact Hc1|]. simpl.
  split; [done|]. unfold on_content_change, applyLocalChanges. simpl.
  rewrite Hk2. simpl. rewrite <- Hsync, Hrt.
  split; [reflexivity|]. simpl. by rewrite join_of_string.
Qed.

Lemma content_change_converges_witness :
  ∃ patch c1' c2',
    applyLocalChanges (mkClient (of_string "ab") true "axb" []) = Some c1'
    ∧ emitted c1' = [] ++ [patch]
    ∧ on_content_change patch (mkClient (of_string "ab") false "ab" [])
      = Some c2'
    ∧ editor c2' = "axb"%string
    ∧ syncValue c2' = syncValue c1'
    ∧ syncValue c1' = of_string "axb"
    ∧ emitted c2' = []
    ∧ keypressed c2' = false.
Proof.
  exact (content_change_converges (mkClient (of_string "ab") true "axb" [])
           (mkClient (of_string "ab") false "ab" []) eq_refl eq_refl
           eq_refl).
Defined.

(** X14. A message that comes in while a keystroke is pending: whatever
    the incoming patch is, the editor keeps its content, the shadow copy
    becomes that content, and one patch is sent, the one that takes the
    shadow copy as the incoming patch left it to the content of the
    editor. *)
Theorem content_change_with_pending_keystroke
    (incomingChanges : list change) (c : client) :
  keypressed c = true →
  ∃ patch,
    getChanges (applyChanges (syncValue c) incomingChanges)
      (of_string (editor c)) = Some patch
    ∧ applyChanges (applyChanges (syncValue c) incomingChanges) patch
      = of_string (editor c)
    ∧ on_content_change incomingChanges c
      = Some (mkClient (of_string (editor c)) false (editor c)
                (emitted c ++ [patch])).
Proof.
  intros Hk.
  destruct (round_trip_aux (applyChanges (syncValue c) incomingChanges)
              (of_string (editor c))) as (patch & Hp & Hrt).
  exists patch. split; [done|]. split; [done|].
  unfold on_content_change. cbv zeta.
  match goal with |- context [applyLocalChanges ?c0] =>
    destruct (applyLocalChanges_commits c0 Hk) as (patch' & Hp' & ->) end.
  simpl in *. rewrite Hp in Hp'. injection Hp' as <-.
  by rewrite join_of_string.
Qed.

Lemma content_change_with_pending_keystroke_witness :
  ∃ patch,
    getChanges (applyChanges (of_string "ab") [CInsert 0 (of_string "z")])
      (of_string "abc") = Some patch
    ∧ applyChanges
        (applyChanges (of_string "ab") [CInsert 0 (of_string "z")]) patch
      = of_string "abc"
    ∧ on_content_change [CInsert 0 (of_string "z")]
        (mkClient (of_string "ab") true "abc" [])
      = Some (mkClient (of_string "abc") false "abc" ([] ++ [patch])).
Proof.
  exact (content_change_with_pending_keystroke [CInsert 0 (of_string "z")]
           (mkClient (of_string "ab") true "abc" []) eq_refl).
Defined.

(** X15. The first keystroke after [registerUserListener]: the shadow
    copy was reset to the empty string, so the patch sent is the insert
    of the whole content of the editor at index 0 (no operation for an
    empty editor), whatever the shadow copy held before. *)
Theorem first_patch_after_register (c : client) :
  applyLocalChanges (on_keypress (registerUserListener c))
  = Some (mkClient (of_string (editor c)) false (editor c)
            (emitted c
             ++ [match of_string (editor c) with
                 | [] => []
                 | _ :: _ => [CInsert 0 (of_string (editor c))]
                 end])).
Proof.
  destruct (applyLocalChanges_commits (on_keypress (registerUserListener c))
              eq_refl) as (patch & Hp & ->).
  simpl in *. rewrite getChanges_from_empty in Hp. by injection Hp as <-.
Qed.

(** ** The client: the debounce timer *)

(** X16. Whatever happens to the page (content typed, keystrokes, timers
    that fire, messages that come in), every event is handled, at most
    one timer is pending, it is the one [timeout] names, and a keystroke
    that has not been sent has a pending timer behind it. *)
Theorem page_timers (pg : page) (evs : list event) :
  one_timer pg → keystroke_covered pg →
  ∃ pg', page_run pg evs = Some pg'
         ∧ one_timer pg' ∧ keystroke_covered pg'
         ∧ (length (timers pg') ≤ 1)%nat.
Proof.
  intros Hone Hcov.
  destruct (page_run_invariant evs pg Hone Hcov) as (pg' & Hrun & H1 & H2).
  exists pg'. split; [done|]. split; [done|]. split; [done|].
  destruct H1 as [->|(h & _ & ->)]; simpl; lia.
Qed.

Lemma page_timers_witness :
  ∃ pg', page_run (mkPage initial_client None [] 0)
           [Typed "a"; Keypress; Typed "ab"; Keypress; Fire 0; Fire 1;
            Incoming [CInsert 0 (of_string "z")]]
         = Some pg'
         ∧ one_timer pg' ∧ keystroke_covered pg'
         ∧ (length (timers pg') ≤ 1)%nat.
Proof.
  apply (page_timers (mkPage initial_client None [] 0)).
  - by left.
  - intros H. discriminate H.
Defined.

(** X17. Debounce: from a page with no timer pending, any run of typing
    with at least one keystroke sends nothing and leaves exactly one
    timer; when that timer fires, exactly one patch is sent, and it takes
    the shadow copy from before the typing to the content the editor has
    at the end. *)
Theorem debounce_sends_one_patch (pg : page) (evs : list event) :
  timers pg = [] →
  Forall (λ e, is_typing e = true) evs → Keypress ∈ evs →
  ∃ pg' h patch pg'',
    page_run pg evs = Some pg'
    ∧ timers pg' = [h] ∧ timeout pg' = Some h
    ∧ emitted (page_client pg') = emitted (page_client pg)
    ∧ syncValue (page_client pg') = syncValue (page_client pg)
    ∧ page_step pg' (Fire h) = Some pg''
    ∧ timers pg'' = []
    ∧ emitted (page_client pg'') = emitted (page_client pg) ++ [patch]
    ∧ applyChanges (syncValue (page_client pg)) patch
      = of_string (editor (page_client pg'))
    ∧ syncValue (page_client pg'') = of_string (editor (page_client pg'))
    ∧ editor (page_client pg'') = editor (page_client pg').
Proof.
  intros Hnone Htyping Hkey.
  destruct (page_run_total evs pg) as [pg' Hrun].
  destruct (typing_run evs pg pg' Htyping Hrun) as (Hs & Hm & Hk).
  assert (keypressed (page_client pg') = true) as Hk' by (apply Hk; by right).
  destruct (typing_run_timers evs pg pg' Htyping (or_introl Hnone) Hrun)
    as [Hone Hne].
  destruct Hone as [Hempty|(h & Hto & Ht)].
  { exfalso. apply Hne; [by right | done]. }
  destruct (applyLocalChanges_commits (page_client pg') Hk')
    as (patch & Hp & Hc).
  destruct (round_trip_aux (syncValue (page_client pg'))
              (of_string (editor (page_client pg'))))
    as (patch' & Hp' & Hrt).
  rewrite Hp in Hp'. injection Hp' as <-.
  exists pg', h, patch. eexists.
  split; [done|]. split; [done|]. split; [done|]. split; [done|].
  split; [done|]. simpl. rewrite Ht.
  rewrite bool_decide_eq_true_2 by apply list_elem_of_here.
  rewrite Hc. simpl. split; [reflexivity|]. simpl.
  rewrite filter_cons, decide_False by (by intros []).
  split; [done|]. rewrite Hm. split; [done|]. by rewrite <- Hs.
Qed.

Lemma debounce_sends_one_patch_witness :
  ∃ pg' h patch pg'',
    page_run (mkPage initial_client None [] 0)
      [Typed "a"; Keypress; Typed "ab"; Keypress] = Some pg'
    ∧ timers pg' = [h] ∧ timeout pg' = Some h
    ∧ emitted (page_client pg') = []
    ∧ syncValue (page_client pg') = []
    ∧ page_step pg' (Fire h) = Some pg''
    ∧ timers pg'' = []
    ∧ emitted (page_client pg'') = [] ++ [patch]
    ∧ applyChanges [] patch = of_string (editor (page_client pg'))
    ∧ syncValue (page_client pg'') = of_string (editor (page_client pg'))
    ∧ editor (page_client pg'') = editor (page_client pg').
Proof.
  apply (debounce_sends_one_patch (mkPage initial_client None [] 0)
           [Typed "a"; Keypress; Typed "ab"; Keypress]).
  - reflexivity.
  - repeat constructor.
  - apply elem_of_cons. right. apply elem_of_cons. by left.
Defined.

(** ** Patches and streams at every size *)

(** X18. The patch of [getChanges], whatever the size of the arrays: the
    values it inserts less the elements it deletes make up the difference
    of the lengths, it inserts no more values than the new array holds
    and deletes no more elements than the old one holds, and it has no
    more operations than elements inserted and deleted. *)
Theorem getChanges_totals (a b : list value) :
  ∃ patch,
    getChanges a b = Some patch
    ∧ inserted patch - deleted patch = len b - len a
    ∧ 0 ≤ inserted patch ≤ len b
    ∧ 0 ≤ deleted patch ≤ len a
    ∧ len patch ≤ inserted patch + deleted patch.
Proof.
  destruct (diff_total a b strict_eq) as [s Hs].
  exists (diffToChanges s b). unfold getChanges. rewrite Hs. simpl.
  split; [done|].
  destruct (diff_counts _ _ _ _ Hs) as [Ha Hb].
  destruct (diffToChanges_totals s b) as [Hi Hd].
  destruct (nontrivial_size _ (diffToChanges_nontrivial s b))
    as (Hlen & ? & ?).
  pose proof (count_nonneg Equal s). rewrite Hi, Hd in *. lia.
Qed.

(** X19. The round trip holds for every comparator that accepts identical
    values only, at every size: [diff] returns a stream, and the patch
    computed from it turns [a] into [b]. A comparator that accepts two
    different values breaks it: with the comparator that accepts
    everything, the patch from [["x"]] to [["y"]] is empty. *)
Theorem diff_round_trip_any_sound_comparator :
  (∀ (a b : list value) (cmp : comparator),
     sound cmp →
     ∃ s, diff a b cmp = Some s ∧ applyChanges a (diffToChanges s b) = b)
  ∧ ∃ s, diff [VStr "x"] [VStr "y"] (λ _ _, true) = Some s
         ∧ applyChanges [VStr "x"] (diffToChanges s [VStr "y"])
           ≠ [VStr "y"].
Proof.
  split; [apply diff_round_trip|].
  eexists. split; [vm_compute; reflexivity|]. vm_compute. discriminate.
Qed.

(** X20. With [===] the stream of [diff] applies to [A] and gives [B] at
    every size, also where the boundary engine made it: each equal token
    keeps an element, each delete token drops one, each insert token
    takes the next new element, and the old array is used up. *)
Theorem diff_stream_applies (A B : list value) :
  ∃ s, diff A B strict_eq = Some s ∧ run_script s A B = Some B.
Proof.
  destruct (diff_walk A B strict_eq) as (s & Hs & Hw).
  exists s. split; [done|]. apply run_script_strict_eq.
  destruct (exceeds_thresholds (len A) (len B)); [done|].
  by rewrite (walk_ext _ _ _ strict_eq) in Hw by apply oriented_strict_eq.
Qed.

(** ** The compactor and the boundary engine on their own *)

(** X21. The compactor is right for every stream, not only for those of
    [diff]: whenever running a stream over [a] gives [b], the patch that
    [diffToChanges] makes of it over [b] turns [a] into [b]. *)
Theorem diffToChanges_correct_for_every_script (a b : list value)
    (s : list atomic) :
  run_script s a b = Some b → applyChanges a (diffToChanges s b) = b.
Proof.
  intros Hrun. apply run_script_path in Hrun.
  apply (diffToChanges_applyChanges a b same_value); [|done].
  apply same_value_sound.
Qed.

Lemma diffToChanges_correct_for_every_script_witness :
  applyChanges (of_string "ab")
    (diffToChanges [Equal; Insert; Delete] (of_string "ax"))
  = of_string "ax".
Proof.
  apply (diffToChanges_correct_for_every_script (of_string "ab")
           (of_string "ax") [Equal; Insert; Delete]).
  reflexivity.
Defined.

(** X22. The shape of the atomic stream of the boundary engine, for every
    comparator: a run of equal markers, then the inserts, then the
    deletes, then a run of equal markers; the runs account for every
    element of both arrays, and there is no insert and no delete exactly
    when [findFirstDifferenceIndex] finds no difference. *)
Theorem fastDiff_stream_shape (a b : list value) (cmp : comparator) :
  ∃ f i d l,
    0 ≤ f ∧ 0 ≤ i ∧ 0 ≤ d ∧ 0 ≤ l
    ∧ fastDiff a b cmp true
      = fill f Equal ++ fill i Insert ++ fill d Delete ++ fill l Equal
    ∧ f + i + l = len b ∧ f + d + l = len a
    ∧ (i + d = 0 ↔ findFirstDifferenceIndex a b cmp = -1).
Proof.
  unfold fastDiff.
  pose proof (findChangeBoundaryIndexes_spec a b cmp) as H. simpl in H.
  set (ci := findChangeBoundaryIndexes a b cmp) in *.
  pose proof (len_nonneg a). pose proof (len_nonneg b).
  destruct H as [(Hf & _ & _ & Hr) | (l & Hf & Hl & Hla & Hlb & Hlt & Hfeq
                                      & Hold & Hnew & _)].
  - pose proof (findFirstDifferenceIndex_spec a b cmp) as Hs. simpl in Hs.
    destruct Hs as [(_ & Hlen & _) | (? & _)]; [|lia].
    exists (len b), 0, 0, 0. unfold changeIndexesToAtomicChanges.
    rewrite Hf. simpl. rewrite app_nil_r.
    repeat split; try done; lia.
  - exists (firstIndex ci), (len b - l - firstIndex ci),
      (len a - l - firstIndex ci), l.
    rewrite changeIndexesToAtomicChanges_runs by lia. rewrite Hold, Hnew.
    replace (len b - (len b - l)) with l by lia.
    repeat split; try done; lia.
Qed.

(** ** The client: a keystroke is sent once *)

(** X23. A keystroke is sent once: after [applyLocalChanges] has run,
    running it again (a timer that fires after an incoming message has
    already flushed the keystroke) changes nothing and sends nothing. *)
Theorem applyLocalChanges_sends_once (c c' : client) :
  applyLocalChanges c = Some c' → applyLocalChanges c' = Some c'.
Proof.
  intros H. apply applyLocalChanges_keypressed in H.
  unfold applyLocalChanges. by rewrite H.
Qed.

Lemma applyLocalChanges_sends_once_witness :
  applyLocalChanges
    (mkClient (of_string "ab") false "ab" [[CInsert 0 (of_string "ab")]])
  = Some (mkClient (of_string "ab") false "ab"
            [[CInsert 0 (of_string "ab")]]).
Proof.
  apply (applyLocalChanges_sends_once (mkClient [] true "ab" [])).
  vm_compute. reflexivity.
Defined.
